(** * tmi: intrusive AVL index engine

    A shallow embedding of the two sources of the repository:

    - [avl.cpp], the stand-alone "readable AVL tree" over [AVLnode]
      (module [Avl]);
    - [tmi_comparator.h], the per-index engine [tmi_comparator<.., I>] that
      works on link set [I] of shared nodes (module [Tmi]).

    Both programs are pointer programs.  A pointer is an [option nat]:
    [None] is [nullptr], [Some a] is the address [a] of a cell of the heap,
    and the heap is a finite map from addresses to node records.  Loops are
    written as fuel-bounded recursive functions; every function returns an
    [outcome], which separates a normal return from a failed [assert], from
    undefined behaviour (a dereference of [nullptr] or of a dangling
    address) and from running out of fuel. *)

From Stdlib Require Import ZArith Lia String.
From stdpp Require Import base option list gmap.

Local Open Scope Z_scope.

(** ** Outcomes of a run *)

Inductive outcome (A : Type) : Type :=
| Ok (a : A)               (* the call returned [a] *)
| AssertFail (e : string)  (* the [assert] of expression [e] failed *)
| Undefined                (* nullptr or dangling dereference, overflow *)
| OutOfFuel.               (* the loop did not end within the fuel given *)

Arguments Ok {A} a.
Arguments AssertFail {A} e.
Arguments Undefined {A}.
Arguments OutOfFuel {A}.

#[global] Instance outcome_ret : MRet outcome := fun _ a => Ok a.

#[global] Instance outcome_bind : MBind outcome := fun _ _ f m =>
  match m with
  | Ok a => f a
  | AssertFail e => AssertFail e
  | Undefined => Undefined
  | OutOfFuel => OutOfFuel
  end.

(** [assert(e)] of <cassert>, [b] being the value of the expression [e];
    the sources are compiled without NDEBUG. *)
Definition assert (e : string) (b : bool) : outcome unit :=
  if b then Ok tt else AssertFail e.

(** A pointer: [None] is [nullptr]. *)
Definition ptr : Type := option nat.

Definition ptr_eqb (p q : ptr) : bool := bool_decide (p = q).

Definition is_null (p : ptr) : bool :=
  match p with None => true | Some _ => false end.

(** Shape of a pointer structure: the addresses of a binary tree. *)
Inductive shape : Type :=
| Leaf
| Node (l : shape) (a : nat) (r : shape).

Fixpoint depth (t : shape) : nat :=
  match t with
  | Leaf => 0%nat
  | Node l _ r => S (Nat.max (depth l) (depth r))
  end.

Fixpoint addrs (t : shape) : list nat :=
  match t with
  | Leaf => []
  | Node l a r => addrs l ++ a :: addrs r
  end.

(** * avl.cpp *)

Module Avl.

(** [struct AVLnode]; [KeyType = int] is only ever compared, [ValueType] is
    [std::string].  [height_] is the DEBUG annotation ([#define DEBUG]). *)
Record AVLnode : Type := mkAVLnode {
  K_ : Z;
  V_ : string;
  left_ : ptr;
  right_ : ptr;
  parent_ : ptr;
  heavy_ : bool;
  height_ : Z
}.

(** The constructor [AVLnode(K, V)]. *)
Definition new_AVLnode (K : Z) (V : string) : AVLnode :=
  mkAVLnode K V None None None false 0.

Abbreviation heap := (gmap nat AVLnode).

(** [p->field]: undefined on [nullptr] and on an address that holds no node. *)
Definition load (h : heap) (p : ptr) : outcome AVLnode :=
  match p with
  | None => Undefined
  | Some a => match h !! a with Some n => Ok n | None => Undefined end
  end.

(** [p->field = v], through the update [f] of the record. *)
Definition store (h : heap) (p : ptr) (f : AVLnode -> AVLnode) : outcome heap :=
  n ← load h p;
  match p with
  | Some a => Ok (<[a := f n]> h)
  | None => Undefined
  end.

Definition set_left_ (v : ptr) (n : AVLnode) : AVLnode :=
  mkAVLnode (K_ n) (V_ n) v (right_ n) (parent_ n) (heavy_ n) (height_ n).
Definition set_right_ (v : ptr) (n : AVLnode) : AVLnode :=
  mkAVLnode (K_ n) (V_ n) (left_ n) v (parent_ n) (heavy_ n) (height_ n).
Definition set_parent_ (v : ptr) (n : AVLnode) : AVLnode :=
  mkAVLnode (K_ n) (V_ n) (left_ n) (right_ n) v (heavy_ n) (height_ n).

(** [new AVLnode(K, V)]: a cell at an address that holds no node yet. *)
Definition new (h : heap) (K : Z) (V : string) : heap * ptr :=
  let a := fresh (dom h) in (<[a := new_AVLnode K V]> h, Some a).

(** [find(root, K)]: the loop [while (cur != nullptr)]. *)
Fixpoint find (fuel : nat) (h : heap) (cur : ptr) (K : Z) : outcome ptr :=
  match cur with
  | None => Ok None
  | Some _ =>
    match fuel with
    | O => OutOfFuel
    | S fuel' =>
      n ← load h cur;
      if K <? K_ n then find fuel' h (left_ n) K
      else if K_ n <? K then find fuel' h (right_ n) K
      else Ok cur
    end
  end.

(** [insert_without_rebalancing(root, K, V)]: the loop [while (1)].  The
    three statements of each insertion branch are
    [cur->left_ = new AVLnode(K, V); cur->left_->parent_ = cur->left_;
     cur = cur->left_;]. *)
Fixpoint insert_without_rebalancing (fuel : nat) (h : heap) (cur : ptr)
    (K : Z) (V : string) : outcome (heap * ptr) :=
  match fuel with
  | O => OutOfFuel
  | S fuel' =>
    n ← load h cur;
    if K <? K_ n then
      if negb (is_null (left_ n)) then
        insert_without_rebalancing fuel' h (left_ n) K V
      else
        let '(h1, fresh_node) := new h K V in
        h2 ← store h1 cur (set_left_ fresh_node);
        n2 ← load h2 cur;
        h3 ← store h2 (left_ n2) (set_parent_ (left_ n2));
        n3 ← load h3 cur;
        Ok (h3, left_ n3)
    else
      if negb (is_null (right_ n)) then
        insert_without_rebalancing fuel' h (right_ n) K V
      else
        let '(h1, fresh_node) := new h K V in
        h2 ← store h1 cur (set_right_ fresh_node);
        n2 ← load h2 cur;
        h3 ← store h2 (right_ n2) (set_parent_ (right_ n2));
        n3 ← load h3 cur;
        Ok (h3, right_ n3)
  end.

(** [insert(root, K, V)]. *)
Definition insert (fuel : nat) (h : heap) (root : ptr) (K : Z) (V : string)
    : outcome (heap * ptr) :=
  if is_null root then Ok (new h K V)
  else
    '(h', cur) ← insert_without_rebalancing fuel h root K V;
    Ok (h', root).

(** [remove(it)]. *)
Definition remove (it : ptr) : ptr := it.

(** The loop of [height(root)], from [cur] with the running sum [H]. *)
Fixpoint height_loop (fuel : nat) (h : heap) (cur : ptr) (H : Z) : outcome Z :=
  n ← load h cur;
  if negb (is_null (left_ n)) || negb (is_null (right_ n)) then
    match fuel with
    | O => OutOfFuel
    | S fuel' =>
      lheavy ← (if negb (is_null (left_ n))
                then l ← load h (left_ n); Ok (heavy_ l)
                else Ok false : outcome bool);
      if (lheavy : bool) then height_loop fuel' h (left_ n) (H + 2)
      else
        rheavy ← (if negb (is_null (right_ n))
                  then r ← load h (right_ n); Ok (heavy_ r)
                  else Ok false : outcome bool);
        if (rheavy : bool) then height_loop fuel' h (right_ n) (H + 2)
        else
          height_loop fuel' h
            (if negb (is_null (left_ n)) then left_ n else right_ n) (H + 1)
    end
  else Ok H.

(** [height(root)], with the DEBUG assertion [root->height_ == H]. *)
Definition height (fuel : nat) (h : heap) (root : ptr) : outcome Z :=
  if is_null root then Ok (-1)
  else
    H ← height_loop fuel h root 0;
    n ← load h root;
    _ ← assert "root->height_ == H" (height_ n =? H);
    Ok H.

(** [verify_inner(root, expected_parent, expected_height)].  The branch for
    [root == nullptr] has no [return]: control goes on to
    [assert(expected_height >= 0)] and then to [root->height_]. *)
Fixpoint verify_inner (fuel : nat) (h : heap) (root expected_parent : ptr)
    (expected_height : Z) : outcome unit :=
  _ ← (if is_null root then
         _ ← assert "expected_parent == nullptr" (is_null expected_parent);
         assert "expected_height == -1" (expected_height =? -1)
       else Ok tt);
  _ ← assert "expected_height >= 0" (0 <=? expected_height);
  n ← load h root;
  _ ← assert "root->height_ == expected_height"
        (height_ n =? expected_height);
  _ ← assert "root->parent_ == expected_parent"
        (ptr_eqb (parent_ n) expected_parent);
  if is_null (left_ n) && is_null (right_ n) then
    assert "expected_height == 0" (expected_height =? 0)
  else
    match fuel with
    | O => OutOfFuel
    | S fuel' =>
      not_both_heavy ← (if is_null (left_ n) then Ok true
                        else if is_null (right_ n) then Ok true
                        else l ← load h (left_ n);
                             if negb (heavy_ l) then Ok true
                             else r ← load h (right_ n); Ok (negb (heavy_ r))
                        : outcome bool);
      _ ← assert "at most one of the subtrees is heavy" not_both_heavy;
      _ ← (if negb (is_null (left_ n)) then
             l ← load h (left_ n);
             _ ← assert "!(root->K_ < root->left_->K_)"
                   (negb (K_ n <? K_ l));
             verify_inner fuel' h (left_ n) root
               (expected_height - (if heavy_ l then 2 else 1))
           else Ok tt);
      if negb (is_null (right_ n)) then
        r ← load h (right_ n);
        _ ← assert "!(root->right_->K_ < root->K_)" (negb (K_ r <? K_ n));
        verify_inner fuel' h (right_ n) root
          (expected_height - (if heavy_ r then 2 else 1))
      else Ok tt
    end.

(** [verify(root)]. *)
Definition verify (fuel : nat) (h : heap) (root : ptr) : outcome unit :=
  _ ← (if negb (is_null root) then
         n ← load h root; assert "root->heavy_ == false" (negb (heavy_ n))
       else Ok tt);
  H ← height fuel h root;
  verify_inner fuel h root None H.

End Avl.

(** * tmi_comparator.h *)

Module Tmi.

(** Modelled from the spec: the node type, whose declaration is not among
    the sources.  A node owns one value and, for each index [i], a link
    record [{left_i, right_i, parent_i, balance_factor_i}]; the engine
    reaches them through [value()], [left<I>()], [set_left<I>()] and the
    like.  The balance factor is an [int]. *)
Record link : Type := mkLink {
  l_left : ptr;
  l_right : ptr;
  l_parent : ptr;
  l_bf : Z
}.

Record node (T : Type) : Type := mkNode {
  value : T;
  links : nat -> link
}.

Arguments mkNode {T} value links.
Arguments value {T} n.
Arguments links {T} n I.

(** The template parameter [Comparator]: [key_from_value_type],
    [comparator] and [is_ordered_unique()]. *)
Record Comparator (T : Type) : Type := mkComparator {
  key_type : Type;
  m_key_from_value : T -> key_type;
  m_comparator : key_type -> key_type -> bool;
  sorted_unique : bool
}.

Arguments key_type {T} c.
Arguments m_key_from_value {T} c v.
Arguments m_comparator {T} c x y.
Arguments sorted_unique {T} c.

Definition INT_MAX : Z := 2147483647.

(** [struct insert_hints]. *)
Record insert_hints : Type := mkHints {
  m_parent : ptr;
  m_inserted_left : bool
}.

Definition no_hints : insert_hints := mkHints None false.

(** [class iterator]: the node it stands at; [m_root] is the address of the
    engine's root field and [operator==] compares [m_node] only. *)
Record iterator : Type := mkIterator { m_node : ptr }.

Section Engine.

Context {T : Type}.
Variable C : Comparator T.
Variable I : nat.

Abbreviation heap := (gmap nat (node T)).

Definition load (h : heap) (p : ptr) : outcome (node T) :=
  match p with
  | None => Undefined
  | Some a => match h !! a with Some n => Ok n | None => Undefined end
  end.

Definition upd_link (f : link -> link) (n : node T) : node T :=
  mkNode (value n) (fun j => if Nat.eqb j I then f (links n j) else links n j).

Definition store (h : heap) (p : ptr) (f : link -> link) : outcome heap :=
  n ← load h p;
  match p with
  | Some a => Ok (<[a := upd_link f n]> h)
  | None => Undefined
  end.

Definition key_of (n : node T) : key_type C := m_key_from_value C (value n).

Definition get_left (h : heap) (nd : ptr) : outcome ptr :=
  n ← load h nd; Ok (l_left (links n I)).
Definition get_right (h : heap) (nd : ptr) : outcome ptr :=
  n ← load h nd; Ok (l_right (links n I)).
Definition get_parent (h : heap) (nd : ptr) : outcome ptr :=
  n ← load h nd; Ok (l_parent (links n I)).
Definition get_bf (h : heap) (nd : ptr) : outcome Z :=
  n ← load h nd; Ok (l_bf (links n I)).

Definition set_left (h : heap) (lhs rhs : ptr) : outcome heap :=
  store h lhs (fun l => mkLink rhs (l_right l) (l_parent l) (l_bf l)).
Definition set_right (h : heap) (lhs rhs : ptr) : outcome heap :=
  store h lhs (fun l => mkLink (l_left l) rhs (l_parent l) (l_bf l)).
Definition set_parent (h : heap) (lhs rhs : ptr) : outcome heap :=
  store h lhs (fun l => mkLink (l_left l) (l_right l) rhs (l_bf l)).
Definition set_bf (h : heap) (nd : ptr) (bf : Z) : outcome heap :=
  store h nd (fun l => mkLink (l_left l) (l_right l) (l_parent l) bf).

(** [tree_is_left_child(node)]: [node == get_left(get_parent(node))]. *)
Definition tree_is_left_child (h : heap) (nd : ptr) : outcome bool :=
  p ← get_parent h nd;
  l ← get_left h p;
  Ok (ptr_eqb nd l).

(** [do { node = get_left(node); } while (node); return node;] *)
Fixpoint tree_min_loop (fuel : nat) (h : heap) (nd : ptr) : outcome ptr :=
  match fuel with
  | O => OutOfFuel
  | S fuel' =>
    nd' ← get_left h nd;
    if negb (is_null nd') then tree_min_loop fuel' h nd' else Ok nd'
  end.

Definition tree_min (fuel : nat) (h : heap) (nd : ptr) : outcome ptr :=
  assert "node" (negb (is_null nd));;
  tree_min_loop fuel h nd.

(** [do { node = get_right(node); } while (node); return node;] *)
Fixpoint tree_max_loop (fuel : nat) (h : heap) (nd : ptr) : outcome ptr :=
  match fuel with
  | O => OutOfFuel
  | S fuel' =>
    nd' ← get_right h nd;
    if negb (is_null nd') then tree_max_loop fuel' h nd' else Ok nd'
  end.

Definition tree_max (fuel : nat) (h : heap) (nd : ptr) : outcome ptr :=
  assert "node" (negb (is_null nd));;
  tree_max_loop fuel h nd.

(** [while (node && !tree_is_left_child(node)) node = get_parent(node);] *)
Fixpoint tree_next_loop (fuel : nat) (h : heap) (nd : ptr) : outcome ptr :=
  if is_null nd then Ok nd
  else
    b ← tree_is_left_child h nd;
    if negb (b : bool) then
      match fuel with
      | O => OutOfFuel
      | S fuel' => p ← get_parent h nd; tree_next_loop fuel' h p
      end
    else Ok nd.

Definition tree_next (fuel : nat) (h : heap) (nd : ptr) : outcome ptr :=
  assert "node" (negb (is_null nd));;
  r ← get_right h nd;
  if negb (is_null r) then tree_min fuel h r
  else
    nd' ← tree_next_loop fuel h nd;
    if negb (is_null nd') then get_parent h nd' else Ok None.

(** [while (node && tree_is_left_child(node)) node = get_parent(node);] *)
Fixpoint tree_prev_loop (fuel : nat) (h : heap) (nd : ptr) : outcome ptr :=
  if is_null nd then Ok nd
  else
    b ← tree_is_left_child h nd;
    if (b : bool) then
      match fuel with
      | O => OutOfFuel
      | S fuel' => p ← get_parent h nd; tree_prev_loop fuel' h p
      end
    else Ok nd.

Definition tree_prev (fuel : nat) (h : heap) (nd : ptr) : outcome ptr :=
  assert "node" (negb (is_null nd));;
  l ← get_left h nd;
  if negb (is_null l) then tree_max fuel h l
  else
    nd' ← tree_prev_loop fuel h nd;
    if negb (is_null nd') then get_parent h nd' else Ok None.

(** [tree_remove(node)]: [node_type* new_root = nullptr; return new_root;] *)
Definition tree_remove (nd : ptr) : ptr := None.

(** [tree_balance_after_insert(root, node)]: the loop
    [while (node != root && height_increased)].  Its body reads the parent
    and the parent's balance factor into locals, and writes nothing but
    the local [height_increased]. *)
Fixpoint tree_balance_after_insert_loop (fuel : nat) (h : heap)
    (root nd : ptr) (height_increased : bool) : outcome ptr :=
  if negb (ptr_eqb nd root) && height_increased then
    match fuel with
    | O => OutOfFuel
    | S fuel' =>
      parent ← get_parent h nd;
      parent_bf ← get_bf h parent;
      l ← get_left h parent;
      if ptr_eqb nd l then
        if INT_MAX <? parent_bf + 1 then Undefined
        else
          let parent_bf := parent_bf + 1 in
          if parent_bf =? 0 then
            tree_balance_after_insert_loop fuel' h root nd false
          else if parent_bf =? 1 then
            tree_balance_after_insert_loop fuel' h root nd height_increased
          else
            tree_balance_after_insert_loop fuel' h root nd height_increased
      else
        tree_balance_after_insert_loop fuel' h root nd height_increased
    end
  else Ok nd.

Definition tree_balance_after_insert (fuel : nat) (h : heap) (root nd : ptr)
    : outcome ptr :=
  tree_balance_after_insert_loop fuel h root nd true.

(** [remove_node(node)]: [m_root = tree_remove(node)]; the result is the new
    [m_root]. *)
Definition remove_node (m_root nd : ptr) : ptr := tree_remove nd.

(** The descent of [preinsert_node], from [curr] with the locals [parent]
    and [inserted_left]; it ends with the conflicting node, or with
    [nullptr] and the hints written. *)
Fixpoint preinsert_loop (fuel : nat) (h : heap) (key : key_type C)
    (parent curr : ptr) (inserted_left : bool) (hints : insert_hints)
    : outcome (ptr * insert_hints) :=
  if negb (is_null curr) then
    match fuel with
    | O => OutOfFuel
    | S fuel' =>
      let parent := curr in
      c ← load h curr;
      let curr_key := key_of c in
      if sorted_unique C then
        if m_comparator C key curr_key then
          preinsert_loop fuel' h key parent (l_left (links c I)) true hints
        else if m_comparator C curr_key key then
          preinsert_loop fuel' h key parent (l_right (links c I)) false hints
        else Ok (curr, hints)
      else
        if m_comparator C key curr_key then
          preinsert_loop fuel' h key parent (l_left (links c I)) true hints
        else
          preinsert_loop fuel' h key parent (l_right (links c I)) false hints
    end
  else Ok (None, mkHints parent inserted_left).

(** [preinsert_node(node, hints)]. *)
Definition preinsert_node (fuel : nat) (h : heap) (m_root nd : ptr)
    (hints : insert_hints) : outcome (ptr * insert_hints) :=
  n ← load h nd;
  preinsert_loop fuel h (key_of n) None m_root false hints.

(** [insert_node(node, hints)]; the result is the heap and the new
    [m_root]. *)
Definition insert_node (fuel : nat) (h : heap) (m_root nd : ptr)
    (hints : insert_hints) : outcome (heap * ptr) :=
  let parent := m_parent hints in
  h ← set_left h nd None;
  h ← set_right h nd None;
  h ← set_bf h nd 0;
  h ← set_parent h nd parent;
  if is_null parent then Ok (h, nd)
  else
    h ← (if m_inserted_left hints then set_left h parent nd
         else set_right h parent nd);
    r ← tree_balance_after_insert fuel h m_root nd;
    Ok (h, r).

(** [erase_if_modified(node, cache)]; the result is the heap, the new
    [m_root] and the returned flag. *)
Definition erase_if_modified (fuel : nat) (h : heap) (m_root nd : ptr)
    : outcome (heap * ptr * bool) :=
  mn ← tree_min fuel h m_root;
  prev_ptr ← (if negb (ptr_eqb nd mn) then tree_prev fuel h nd else Ok None);
  mx ← tree_max fuel h m_root;
  next_ptr ← (if negb (ptr_eqb nd mx) then tree_next fuel h nd else Ok None);
  n ← load h nd;
  let key := key_of n in
  after_next ← (if negb (is_null next_ptr)
                then x ← load h next_ptr; Ok (m_comparator C (key_of x) key)
                else Ok false : outcome bool);
  needs_resort ← (if (after_next : bool) then Ok true
                  else if negb (is_null prev_ptr)
                  then x ← load h prev_ptr; Ok (m_comparator C key (key_of x))
                  else Ok false : outcome bool);
  if (needs_resort : bool) then
    let m_root := tree_remove nd in
    h ← set_parent h nd None;
    h ← set_left h nd None;
    h ← set_right h nd None;
    h ← set_bf h nd 0;
    Ok (h, m_root, true)
  else Ok (h, m_root, false).

Definition make_iterator (nd : ptr) : iterator := mkIterator nd.

(** [end()]. *)
Definition end_ : iterator := make_iterator None.

(** [begin()]. *)
Definition begin (fuel : nat) (h : heap) (m_root : ptr) : outcome iterator :=
  if is_null m_root then Ok end_
  else nd ← tree_min fuel h m_root; Ok (make_iterator nd).

(** [iterator::operator++()]. *)
Definition iterator_incr (fuel : nat) (h : heap) (it : iterator)
    : outcome iterator :=
  next ← tree_next fuel h (m_node it);
  if negb (is_null next) then Ok (mkIterator next) else Ok (mkIterator None).

(** [find(key)]. *)
Fixpoint find_loop (fuel : nat) (h : heap) (key : key_type C) (curr : ptr)
    : outcome iterator :=
  if negb (is_null curr) then
    match fuel with
    | O => OutOfFuel
    | S fuel' =>
      c ← load h curr;
      let curr_key := key_of c in
      if m_comparator C key curr_key then
        find_loop fuel' h key (l_left (links c I))
      else if m_comparator C curr_key key then
        find_loop fuel' h key (l_right (links c I))
      else Ok (make_iterator curr)
    end
  else Ok end_.

Definition find (fuel : nat) (h : heap) (m_root : ptr) (key : key_type C)
    : outcome iterator :=
  find_loop fuel h key m_root.

(** [rotate_right(v)]. *)
Definition rotate_right (h : heap) (v : ptr) : outcome heap :=
  w ← get_left h v;
  assert "w != nullptr" (negb (is_null w));;
  B ← get_right h w;
  h ← set_right h w v;
  h ← set_parent h v w;
  h ← set_left h v B;
  if negb (is_null B) then set_parent h B v else Ok h.

(** [rotate_left(w)]. *)
Definition rotate_left (h : heap) (w : ptr) : outcome heap :=
  v ← get_right h w;
  assert "v != nullptr" (negb (is_null v));;
  B ← get_left h v;
  h ← set_left h v w;
  h ← set_parent h w v;
  h ← set_right h w B;
  if negb (is_null B) then set_parent h B w else Ok h.

(** The descent of [insert_node_direct], from [curr] with the locals
    [parent] and [inserted_left]. *)
Fixpoint insert_direct_loop (fuel : nat) (h : heap) (key : key_type C)
    (parent curr : ptr) (inserted_left : bool) : outcome (ptr * bool) :=
  if negb (is_null curr) then
    match fuel with
    | O => OutOfFuel
    | S fuel' =>
      let parent := curr in
      c ← load h curr;
      let curr_key := key_of c in
      if m_comparator C key curr_key then
        insert_direct_loop fuel' h key parent (l_left (links c I)) true
      else
        insert_direct_loop fuel' h key parent (l_right (links c I)) false
    end
  else Ok (parent, inserted_left).

(** [insert_node_direct(node)]; the result is the heap and the new
    [m_root]. *)
Definition insert_node_direct (fuel : nat) (h : heap) (m_root nd : ptr)
    : outcome (heap * ptr) :=
  n ← load h nd;
  '(parent, inserted_left) ←
    insert_direct_loop fuel h (key_of n) None m_root false;
  h ← set_left h nd None;
  h ← set_right h nd None;
  h ← set_bf h nd 0;
  h ← set_parent h nd parent;
  if negb (is_null parent) then
    h ← (if (inserted_left : bool) then set_left h parent nd
         else set_right h parent nd);
    r ← tree_balance_after_insert fuel h m_root nd;
    Ok (h, r)
  else Ok (h, nd).


(** The loop of [lower_bound(key)], with the local [ret]. *)
Fixpoint lower_bound_loop (fuel : nat) (h : heap) (key : key_type C)
    (curr ret : ptr) : outcome ptr :=
  if negb (is_null curr) then
    match fuel with
    | O => OutOfFuel
    | S fuel' =>
      c ← load h curr;
      let curr_key := key_of c in
      if negb (m_comparator C curr_key key) then
        lower_bound_loop fuel' h key (l_left (links c I)) curr
      else
        lower_bound_loop fuel' h key (l_right (links c I)) ret
    end
  else Ok ret.

Definition lower_bound (fuel : nat) (h : heap) (m_root : ptr)
    (key : key_type C) : outcome iterator :=
  ret ← lower_bound_loop fuel h key m_root None;
  if negb (is_null ret) then Ok (make_iterator ret) else Ok end_.

(** The loop of [upper_bound(key)], with the local [ret]. *)
Fixpoint upper_bound_loop (fuel : nat) (h : heap) (key : key_type C)
    (curr ret : ptr) : outcome ptr :=
  if negb (is_null curr) then
    match fuel with
    | O => OutOfFuel
    | S fuel' =>
      c ← load h curr;
      let curr_key := key_of c in
      if m_comparator C key curr_key then
        upper_bound_loop fuel' h key (l_left (links c I)) curr
      else
        upper_bound_loop fuel' h key (l_right (links c I)) ret
    end
  else Ok ret.

Definition upper_bound (fuel : nat) (h : heap) (m_root : ptr)
    (key : key_type C) : outcome iterator :=
  ret ← upper_bound_loop fuel h key m_root None;
  if negb (is_null ret) then Ok (make_iterator ret) else Ok end_.

(** [ret++] on a [size_t]. *)
Definition size_t_incr (ret : Z) : Z := (ret + 1) mod 2 ^ 64.

(** The first loop of [count(key)]: the descent, which ends with [ret] and
    [curr]. *)
Fixpoint count_descend (fuel : nat) (h : heap) (key : key_type C)
    (curr : ptr) (ret : Z) : outcome (Z * ptr) :=
  if negb (is_null curr) then
    match fuel with
    | O => OutOfFuel
    | S fuel' =>
      c ← load h curr;
      let curr_key := key_of c in
      if m_comparator C key curr_key then
        count_descend fuel' h key (l_left (links c I)) ret
      else if m_comparator C curr_key key then
        count_descend fuel' h key (l_right (links c I)) ret
      else Ok (size_t_incr ret, curr)
    end
  else Ok (ret, curr).

(** The second loop of [count(key)], backwards over the equivalent keys. *)
Fixpoint count_prev_loop (fuel : nat) (h : heap) (key : key_type C)
    (curr : ptr) (ret : Z) : outcome Z :=
  if negb (is_null curr) then
    match fuel with
    | O => OutOfFuel
    | S fuel' =>
      c ← load h curr;
      if m_comparator C (key_of c) key then Ok ret
      else
        curr' ← tree_prev fuel h curr;
        count_prev_loop fuel' h key curr' (size_t_incr ret)
    end
  else Ok ret.

(** The third loop of [count(key)], forwards over the equivalent keys. *)
Fixpoint count_next_loop (fuel : nat) (h : heap) (key : key_type C)
    (curr : ptr) (ret : Z) : outcome Z :=
  if negb (is_null curr) then
    match fuel with
    | O => OutOfFuel
    | S fuel' =>
      c ← load h curr;
      if m_comparator C key (key_of c) then Ok ret
      else
        curr' ← tree_next fuel h curr;
        count_next_loop fuel' h key curr' (size_t_incr ret)
    end
  else Ok ret.

(** [count(key)]. *)
Definition count (fuel : nat) (h : heap) (m_root : ptr) (key : key_type C)
    : outcome Z :=
  '(ret, curr) ← count_descend fuel h key m_root 0;
  if sorted_unique C then Ok ret
  else
    let found_match := curr in
    if negb (is_null found_match) then
      curr ← tree_prev fuel h found_match;
      ret ← count_prev_loop fuel h key curr ret;
      curr ← tree_next fuel h found_match;
      count_next_loop fuel h key curr ret
    else Ok ret.

End Engine.

End Tmi.

(** * The coordinator's insert *)

Module Coordinator.

Import Tmi.

(** The container: the node pool, the root of each index's tree (one
    [tmi_comparator] per index, in index order) and the element count that
    [size()] forwards to. *)
Record container (T : Type) : Type := mkContainer {
  pool : gmap nat (node T);
  roots : list ptr;
  m_size : nat
}.

Arguments mkContainer {T} pool roots m_size.
Arguments pool {T} c.
Arguments roots {T} c.
Arguments m_size {T} c.

Section Insert.

Context {T : Type}.

(** Modelled from the spec: the validation pass of the Multi-Index
    Coordinator's insert, whose class ([Parent]) is not among the sources:
    "for each index in a fixed order, pre-validate the candidate key
    without yet mutating any tree"; the first conflict ends the pass.
    Index [I] is validated by the engine's own [preinsert_node]. *)
Fixpoint preinsert_all (idxs : list (Comparator T)) (I : nat) (fuel : nat)
    (h : gmap nat (node T)) (rts : list ptr) (nd : ptr)
    : outcome (ptr * list insert_hints) :=
  match idxs, rts with
  | C :: idxs', m_root :: rts' =>
    '(conflict, hints) ← preinsert_node C I fuel h m_root nd no_hints;
    if negb (is_null conflict) then Ok (conflict, [])
    else
      '(conflict', rest) ← preinsert_all idxs' (S I) fuel h rts' nd;
      Ok (conflict', hints :: rest)
  | _, _ => Ok (None, [])
  end.

(** Modelled from the spec: the linking pass of the same insert, "physically
    insert it into every index's tree using the previously computed
    insertion points, then run rebalancing per tree", through the engine's
    own [insert_node]. *)
Fixpoint insert_all (idxs : list (Comparator T)) (I : nat) (fuel : nat)
    (h : gmap nat (node T)) (rts : list ptr) (nd : ptr)
    (hints : list insert_hints) : outcome (gmap nat (node T) * list ptr) :=
  match idxs, rts, hints with
  | C :: idxs', m_root :: rts', hint :: hints' =>
    '(h1, m_root1) ← insert_node I fuel h m_root nd hint;
    '(h2, rts2) ← insert_all idxs' (S I) fuel h1 rts' nd hints';
    Ok (h2, m_root1 :: rts2)
  | _, _, _ => Ok (h, [])
  end.

(** Modelled from the spec: the Multi-Index Coordinator's [insert(value)]
    ([Parent::do_insert] is not among the sources).  "If any sorted-unique
    index reports a conflict, abort: no index is mutated, and the
    conflicting existing element is returned.  If all validations pass,
    allocate the node and physically insert it into every index's tree."
    The engine validates a candidate node, so the candidate value sits in a
    cell outside the pool while it is validated and joins the pool only
    when every index has accepted it.  The result is the container, the
    node the returned cursor stands at and the success flag. *)
Definition do_insert (idxs : list (Comparator T)) (fuel : nat)
    (c : container T) (v : T) : outcome (container T * (ptr * bool)) :=
  let a := fresh (dom (pool c)) in
  let candidate := mkNode v (fun _ => mkLink None None None 0) in
  let h0 := <[a := candidate]> (pool c) in
  '(conflict, hints) ← preinsert_all idxs 0 fuel h0 (roots c) (Some a);
  if negb (is_null conflict) then Ok (c, (conflict, false))
  else
    '(h1, rts1) ← insert_all idxs 0 fuel h0 (roots c) (Some a) hints;
    Ok (mkContainer h1 rts1 (S (m_size c)), (Some a, true)).

End Insert.

End Coordinator.

(** * Well-formed trees *)

(** A strict weak order, as a comparator of the container has to be. *)
Record strict_weak_order {K : Type} (lt : K -> K -> bool) : Prop := {
  swo_irrefl : forall x, lt x x = false;
  swo_trans : forall x y z, lt x y = true -> lt y z = true -> lt x z = true;
  swo_incomp : forall x y z,
    lt x y = false -> lt y x = false -> lt y z = false -> lt z y = false ->
    lt x z = false /\ lt z x = false
}.

(** Two keys are equivalent when neither compares less than the other. *)
Definition equiv_under {K : Type} (lt : K -> K -> bool) (x y : K) : Prop :=
  lt x y = false /\ lt y x = false.

Module AvlTree.

Import Avl.

(** The cells reachable from [p] through [left_]/[right_] form the tree [t]. *)
Fixpoint tree_at (h : gmap nat AVLnode) (p : ptr) (t : shape) : Prop :=
  match t with
  | Leaf => p = None
  | Node l a r =>
    p = Some a /\
    exists n, h !! a = Some n /\ tree_at h (left_ n) l /\ tree_at h (right_ n) r
  end.

(** The ordering that [verify] documents: left <= root <= right, for whole
    subtrees. *)
Fixpoint bst (h : gmap nat AVLnode) (t : shape) : Prop :=
  match t with
  | Leaf => True
  | Node l a r =>
    (forall n x nx, h !! a = Some n -> x ∈ addrs l -> h !! x = Some nx ->
                    ~ K_ n < K_ nx) /\
    (forall n x nx, h !! a = Some n -> x ∈ addrs r -> h !! x = Some nx ->
                    ~ K_ nx < K_ n) /\
    bst h l /\ bst h r
  end.

(** Height by walking every path, a single node having height 0. *)
Fixpoint real_height (fuel : nat) (h : gmap nat AVLnode) (p : ptr) : Z :=
  match fuel, p with
  | S fuel', Some a =>
    match h !! a with
    | Some n =>
      1 + Z.max (real_height fuel' h (left_ n)) (real_height fuel' h (right_ n))
    | None => -1
    end
  | _, _ => -1
  end.

(** Some node of [t] holds a key equivalent to [K] under [<]. *)
Definition has_key (h : gmap nat AVLnode) (t : shape) (K : Z) : Prop :=
  exists x nx, x ∈ addrs t /\ h !! x = Some nx /\
    equiv_under Z.ltb K (K_ nx).

(** Parent consistency of the tree [t] at [root]: the root has no parent,
    and a node that has one is its parent's left or right child. *)
Definition parent_consistent (h : gmap nat AVLnode) (root : ptr) (t : shape)
    : Prop :=
  (forall r n, root = Some r -> h !! r = Some n -> parent_ n = None) /\
  (forall x n p, x ∈ addrs t -> h !! x = Some n -> parent_ n = Some p ->
     exists np, h !! p = Some np /\
       (left_ np = Some x \/ right_ np = Some x)).

(** The shape after an insertion of [K]: the new address [b] hangs where
    the descent of [insert_without_rebalancing] leaves the tree. *)
Fixpoint ins_shape (h : gmap nat AVLnode) (K : Z) (b : nat) (t : shape)
    : shape :=
  match t with
  | Leaf => Node Leaf b Leaf
  | Node l a r =>
    match h !! a with
    | Some n =>
      if K <? K_ n then Node (ins_shape h K b l) a r
      else Node l a (ins_shape h K b r)
    | None => t
    end
  end.

(** The fields of an old node that an insertion keeps. *)
Definition same_payload (n n' : AVLnode) : Prop :=
  K_ n' = K_ n /\ V_ n' = V_ n /\ parent_ n' = parent_ n /\
  heavy_ n' = heavy_ n /\ height_ n' = height_ n.


(** Inserting a list of keys one at a time, as [main] does. *)
Fixpoint insert_keys (fuel : nat) (h : gmap nat AVLnode) (root : ptr)
    (ks : list Z) : outcome (gmap nat AVLnode * ptr) :=
  match ks with
  | [] => Ok (h, root)
  | k :: ks' =>
    '(h', root') ← insert fuel h root k "abc";
    insert_keys fuel h' root' ks'
  end.

End AvlTree.

Module TmiTree.

Import Tmi.

Section Shape.

Context {T : Type}.
Variable C : Comparator T.
Variable I : nat.

(** The cells reachable from [p] through link set [I] form the tree [t]. *)
Fixpoint tree_at (h : gmap nat (node T)) (p : ptr) (t : shape) : Prop :=
  match t with
  | Leaf => p = None
  | Node l a r =>
    p = Some a /\
    exists n, h !! a = Some n /\
      tree_at h (l_left (links n I)) l /\ tree_at h (l_right (links n I)) r
  end.

(** BST ordering under the index's comparator, in the form that both
    policies satisfy: nothing in a left subtree is greater than the node,
    nothing in a right subtree is less. *)
Fixpoint bst (h : gmap nat (node T)) (t : shape) : Prop :=
  match t with
  | Leaf => True
  | Node l a r =>
    (forall n x nx, h !! a = Some n -> x ∈ addrs l -> h !! x = Some nx ->
                    m_comparator C (key_of C n) (key_of C nx) = false) /\
    (forall n x nx, h !! a = Some n -> x ∈ addrs r -> h !! x = Some nx ->
                    m_comparator C (key_of C nx) (key_of C n) = false) /\
    bst h l /\ bst h r
  end.

(** Some node of [t] holds a key equivalent to [key]. *)
Definition has_key (h : gmap nat (node T)) (t : shape) (key : key_type C)
    : Prop :=
  exists x nx, x ∈ addrs t /\ h !! x = Some nx /\
    equiv_under (m_comparator C) key (key_of C nx).

(** The insertion point [(parent, inserted_left)] is the child link [curr]
    of [parent], on the side of [parent] where [key] belongs. *)
Definition slot_at (h : gmap nat (node T)) (key : key_type C)
    (parent : ptr) (inserted_left : bool) (curr : ptr) : Prop :=
  match parent with
  | None => True
  | Some p =>
    exists np, h !! p = Some np /\
      (if inserted_left then l_left (links np I) else l_right (links np I))
        = curr /\
      inserted_left = m_comparator C key (key_of C np)
  end.

(** The engine of index [I] has left the values and the link sets of the
    other indices as they were: every cell of [h] is still there in [h']
    with the same value and the same links outside [I]. *)
Definition keeps_others (h h' : gmap nat (node T)) : Prop :=
  forall x n, h !! x = Some n ->
    exists n', h' !! x = Some n' /\ value n' = value n /\
      forall J, J <> I -> links n' J = links n J.

(** A cell keeps its child links and its balance factor in link set [I];
    its parent link may have been written. *)
Definition same_children (n n' : node T) : Prop :=
  l_left (links n' I) = l_left (links n I) /\
  l_right (links n' I) = l_right (links n I) /\
  l_bf (links n' I) = l_bf (links n I).

(** The common form of the loops of [lower_bound] and [upper_bound]: where
    [P] fails on the key of [curr] the loop remembers [curr] and goes left,
    where it holds the loop goes right. *)
Fixpoint bound_loop (P : key_type C -> bool) (fuel : nat)
    (h : gmap nat (node T)) (curr ret : ptr) : outcome ptr :=
  if negb (is_null curr) then
    match fuel with
    | O => OutOfFuel
    | S fuel' =>
      c ← load h curr;
      if negb (P (key_of C c)) then
        bound_loop P fuel' h (l_left (links c I)) curr
      else
        bound_loop P fuel' h (l_right (links c I)) ret
    end
  else Ok ret.

(** Every node of the address list [xs] has a key that satisfies [P]. *)
Definition all_keys (h : gmap nat (node T)) (xs : list nat)
    (P : key_type C -> bool) : Prop :=
  forall x nx, x ∈ xs -> h !! x = Some nx -> P (key_of C nx) = true.

(** The in-order sequence of [t] splits at the node a cursor stands at:
    the keys before it satisfy [P], its own key and the keys after it do
    not; at the end cursor every key satisfies [P]. *)
Definition splits_at (h : gmap nat (node T)) (t : shape)
    (P : key_type C -> bool) (it : iterator) : Prop :=
  match m_node it with
  | Some a =>
    exists pre post, addrs t = pre ++ a :: post /\
      all_keys h pre P /\ all_keys h (a :: post) (fun k => negb (P k))
  | None => all_keys h (addrs t) P
  end.

End Shape.

(** Index [I] of a container is well formed: its comparator is a strict
    weak order and its link set forms a search tree from its root. *)
Definition wf_index {T : Type} (C : Comparator T) (I : nat)
    (h : gmap nat (node T)) (m_root : ptr) : Prop :=
  strict_weak_order (m_comparator C) /\
  exists t, tree_at I h m_root t /\ bst C h t.

Definition wf_container {T : Type} (idxs : list (Comparator T))
    (c : Coordinator.container T) : Prop :=
  length (Coordinator.roots c) = length idxs /\
  forall i C r, idxs !! i = Some C -> Coordinator.roots c !! i = Some r ->
                wf_index C i (Coordinator.pool c) r.

(** The element at address [x] of the pool [h] is a duplicate of the value
    [v]: some sorted-unique index holds [x] and finds its key equivalent to
    the key of [v]. *)
Definition duplicate_of {T : Type} (idxs : list (Comparator T))
    (h : gmap nat (node T)) (rts : list ptr) (v : T) (x : nat) : Prop :=
  exists i C r t n,
    idxs !! i = Some C /\ rts !! i = Some r /\ sorted_unique C = true /\
    tree_at i h r t /\ x ∈ addrs t /\ h !! x = Some n /\
    equiv_under (m_comparator C) (m_key_from_value C v) (key_of C n).

End TmiTree.

(** * Concrete trees *)

Module Scenario.

Import Tmi.

(** A sorted-unique index over [int] values, keyed by the value itself and
    compared with [<]. *)
Definition int_index : Comparator Z := mkComparator Z Z (fun v => v) Z.ltb true.

(** A node of a one-index container. *)
Definition cell (v : Z) (l r p : ptr) : node Z :=
  mkNode v (fun _ => mkLink l r p 0).

(** Three nodes, left-heavy: 3 at the root (address 1), 2 its left child
    (address 2), 1 the left child of that (address 3). *)
Definition left_heavy3 : gmap nat (node Z) :=
  <[1%nat := cell 3 (Some 2%nat) None None]>
  (<[2%nat := cell 2 (Some 3%nat) None (Some 1%nat)]>
  (<[3%nat := cell 1 None None (Some 2%nat)]> ∅)).

(** Three nodes, balanced: [root] at the root (address 1), 3 its left child
    (address 2), 8 its right child (address 3). *)
Definition balanced3 (root : Z) : gmap nat (node Z) :=
  <[1%nat := cell root (Some 2%nat) (Some 3%nat) None]>
  (<[2%nat := cell 3 None None (Some 1%nat)]>
  (<[3%nat := cell 8 None None (Some 1%nat)]> ∅)).

(** Three nodes: 5 at the root (address 1), 3 its left child (address 2),
    and [inner] the right child of 3 (address 3). *)
Definition zigzag3 (inner : Z) : gmap nat (node Z) :=
  <[1%nat := cell 5 (Some 2%nat) None None]>
  (<[2%nat := cell 3 None (Some 3%nat) (Some 1%nat)]>
  (<[3%nat := cell inner None None (Some 2%nat)]> ∅)).

(** A one-index container that holds the single value 1 (address 0). *)
Definition singleton1 : Coordinator.container Z :=
  Coordinator.mkContainer (<[0%nat := cell 1 None None None]> ∅)
    [Some 0%nat] 1.

(** A one-index container that holds the single value 5 (address 1). *)
Definition singleton5 : Coordinator.container Z :=
  Coordinator.mkContainer (<[1%nat := cell 5 None None None]> ∅)
    [Some 1%nat] 1.

(** An [AVLnode] heap: 5 at the root (address 1), 3 and 8 its children. *)
Definition avl3 : gmap nat Avl.AVLnode :=
  <[1%nat := Avl.mkAVLnode 5 "a" (Some 2%nat) (Some 3%nat) None false 1]>
  (<[2%nat := Avl.mkAVLnode 3 "b" None None (Some 1%nat) false 0]>
  (<[3%nat := Avl.mkAVLnode 8 "c" None None (Some 1%nat) false 0]> ∅)).

Definition shape3 : shape :=
  Node (Node Leaf 2%nat Leaf) 1%nat (Node Leaf 3%nat Leaf).

(** The pool of [singleton1] together with a candidate cell for the value
    2 (address 1). *)
Definition two_cells : gmap nat (node Z) :=
  <[1%nat := cell 2 None None None]> (Coordinator.pool singleton1).

(** The empty one-index container. *)
Definition empty_container : Coordinator.container Z :=
  Coordinator.mkContainer ∅ [None] 0.

(** The container after the value 1 has been inserted into the empty one. *)
Definition after_first : Coordinator.container Z :=
  match Coordinator.do_insert [int_index] 1 empty_container 1 with
  | Ok (c, _) => c
  | _ => empty_container
  end.

End Scenario.

(** * Facts about avl.cpp *)

Module AvlFacts.

Import Avl AvlTree.

Lemma avl_load_Some (h : gmap nat AVLnode) a n :
  h !! a = Some n -> load h (Some a) = Ok n.
Proof. intros E. unfold load. now rewrite E. Qed.

(** [find] on a well-formed search tree: it returns, and what it returns
    is a node with an equivalent key, or [nullptr] when every key differs. *)
Lemma avl_find_descent (t : shape) :
  forall (h : gmap nat AVLnode) p K fuel,
    tree_at h p t -> bst h t -> (depth t <= fuel)%nat ->
    exists r, find fuel h p K = Ok r /\
      match r with
      | Some a => a ∈ addrs t /\
                  exists n, h !! a = Some n /\ ~ K < K_ n /\ ~ K_ n < K
      | None => forall x nx, x ∈ addrs t -> h !! x = Some nx ->
                             K < K_ nx \/ K_ nx < K
      end.
Proof.
  induction t as [|l IHl a r IHr]; intros h p K fuel Ht Hb Hd.
  - simpl in Ht. subst p. exists None. split.
    + destruct fuel; reflexivity.
    + intros x nx Hx. simpl in Hx. now apply elem_of_nil in Hx.
  - destruct Ht as [-> (n & Hn & Hl & Hr)].
    destruct Hb as (Bl & Br & Hbl & Hbr).
    destruct fuel as [|fuel]; [simpl in Hd; lia|].
    simpl in Hd. cbn [find]. rewrite (avl_load_Some _ _ _ Hn). cbn.
    destruct (Z.ltb_spec K (K_ n)) as [Hlt|Hge].
    + destruct (IHl h (left_ n) K fuel Hl Hbl ltac:(lia)) as (res & E & P).
      exists res. split; [exact E|].
      destruct res as [a'|].
      * destruct P as [Hin P]. split; [|exact P].
        simpl. apply elem_of_app. now left.
      * intros x nx Hx Hnx. simpl in Hx.
        apply elem_of_app in Hx as [Hx|Hx]; [now apply (P x nx)|].
        apply elem_of_cons in Hx as [->|Hx].
        -- rewrite Hn in Hnx. injection Hnx as <-. now left.
        -- specialize (Br n x nx Hn Hx Hnx). left. lia.
    + destruct (Z.ltb_spec (K_ n) K) as [Hlt|Hle].
      * destruct (IHr h (right_ n) K fuel Hr Hbr ltac:(lia)) as (res & E & P).
        exists res. split; [exact E|].
        destruct res as [a'|].
        -- destruct P as [Hin P]. split; [|exact P].
           simpl. apply elem_of_app. right. now apply elem_of_cons; right.
        -- intros x nx Hx Hnx. simpl in Hx.
           apply elem_of_app in Hx as [Hx|Hx].
           ++ specialize (Bl n x nx Hn Hx Hnx). right. lia.
           ++ apply elem_of_cons in Hx as [->|Hx]; [|now apply (P x nx)].
              rewrite Hn in Hnx. injection Hnx as <-. now right.
      * exists (Some a). split; [reflexivity|]. split.
        -- simpl. apply elem_of_app. right. apply elem_of_cons. now left.
        -- exists n. repeat split; [exact Hn|lia|lia].
Qed.

(** Whatever [insert] returns on a non-null root is that root. *)
Lemma insert_nonnull_result fuel (h : gmap nat AVLnode) a K V h' r' :
  insert fuel h (Some a) K V = Ok (h', r') -> r' = Some a.
Proof.
  unfold insert. cbn [is_null].
  destruct (insert_without_rebalancing fuel h (Some a) K V) as [[h1 c]| | |];
    cbn; congruence.
Qed.

(** The two stores and the reloads of an insertion branch succeed: the
    parent cell exists and the fresh cell has just been written. *)
Lemma link_fresh_left (h : gmap nat AVLnode) a n K V :
  h !! a = Some n ->
  exists h3 c,
    (let '(h1, fresh_node) := new h K V in
     h2 ← store h1 (Some a) (set_left_ fresh_node);
     n2 ← load h2 (Some a);
     h3 ← store h2 (left_ n2) (set_parent_ (left_ n2));
     n3 ← load h3 (Some a);
     Ok (h3, left_ n3)) = Ok (h3, c).
Proof.
  intros Hn. unfold new.
  set (b := fresh (dom h)).
  assert (Hb : h !! b = None).
  { apply not_elem_of_dom. apply is_fresh. }
  assert (Hab : b <> a) by congruence.
  unfold store, load. cbn.
  rewrite lookup_insert_ne by exact Hab. rewrite Hn. cbn.
  rewrite lookup_insert_eq. cbn.
  rewrite lookup_insert_ne by congruence. rewrite lookup_insert_eq. cbn.
  rewrite lookup_insert_ne by exact Hab. rewrite lookup_insert_eq. cbn.
  eauto.
Qed.

Lemma link_fresh_right (h : gmap nat AVLnode) a n K V :
  h !! a = Some n ->
  exists h3 c,
    (let '(h1, fresh_node) := new h K V in
     h2 ← store h1 (Some a) (set_right_ fresh_node);
     n2 ← load h2 (Some a);
     h3 ← store h2 (right_ n2) (set_parent_ (right_ n2));
     n3 ← load h3 (Some a);
     Ok (h3, right_ n3)) = Ok (h3, c).
Proof.
  intros Hn. unfold new.
  set (b := fresh (dom h)).
  assert (Hb : h !! b = None).
  { apply not_elem_of_dom. apply is_fresh. }
  assert (Hab : b <> a) by congruence.
  unfold store, load. cbn.
  rewrite lookup_insert_ne by exact Hab. rewrite Hn. cbn.
  rewrite lookup_insert_eq. cbn.
  rewrite lookup_insert_ne by congruence. rewrite lookup_insert_eq. cbn.
  rewrite lookup_insert_ne by exact Hab. rewrite lookup_insert_eq. cbn.
  eauto.
Qed.

(** The descent of [insert_without_rebalancing] ends on a tree. *)
Lemma insert_without_rebalancing_returns (t : shape) :
  forall (h : gmap nat AVLnode) a K V fuel,
    tree_at h (Some a) t -> (depth t <= fuel)%nat ->
    exists h' c, insert_without_rebalancing fuel h (Some a) K V = Ok (h', c).
Proof.
  induction t as [|l IHl b r IHr]; intros h a K V fuel Ht Hd.
  - simpl in Ht. discriminate.
  - destruct Ht as [Ha (n & Hn & Hl & Hr)]. injection Ha as ->.
    destruct fuel as [|fuel]; [simpl in Hd; lia|].
    simpl in Hd. cbn [insert_without_rebalancing].
    rewrite (avl_load_Some _ _ _ Hn). cbn.
    destruct (K <? K_ n).
    + destruct (left_ n) as [c|] eqn:El; cbn.
      * destruct l as [|ll la lr]; [simpl in Hl; discriminate|].
        apply (IHl h c K V fuel); [exact Hl|lia].
      * exact (link_fresh_left h b n K V Hn).
    + destruct (right_ n) as [c|] eqn:Er; cbn.
      * destruct r as [|rl ra rr]; [simpl in Hr; discriminate|].
        apply (IHr h c K V fuel); [exact Hr|lia].
      * exact (link_fresh_right h b n K V Hn).
Qed.

End AvlFacts.

(** * Facts about tmi_comparator.h *)

Module TmiFacts.

Import Tmi TmiTree.

Section Order.

Context {K : Type}.
Variable lt : K -> K -> bool.
Hypothesis lt_swo : strict_weak_order lt.

(** Equivalent keys stand on the same side of any third key. *)
Lemma lt_equiv_l k e c :
  lt k c = true -> equiv_under lt k e -> lt e c = true.
Proof.
  intros Hkc [Hke Hek].
  destruct (lt e c) eqn:Eec; [reflexivity|].
  destruct (lt c e) eqn:Ece.
  - pose proof (swo_trans lt lt_swo k c e Hkc Ece). congruence.
  - destruct (swo_incomp lt lt_swo k e c Hke Hek Eec Ece). congruence.
Qed.

Lemma lt_equiv_r k e c :
  lt c k = true -> equiv_under lt k e -> lt c e = true.
Proof.
  intros Hck [Hke Hek].
  destruct (lt c e) eqn:Ece; [reflexivity|].
  destruct (lt e c) eqn:Eec.
  - pose proof (swo_trans lt lt_swo e c k Eec Hck). congruence.
  - destruct (swo_incomp lt lt_swo k e c Hke Hek Eec Ece). congruence.
Qed.

End Order.

Section Engine.

Context {T : Type}.
Variable C : Comparator T.
Variable I : nat.

Lemma tmi_load_Some (h : gmap nat (node T)) a n :
  h !! a = Some n -> load h (Some a) = Ok n.
Proof. intros E. unfold load. now rewrite E. Qed.

(** Every address of a tree holds a node. *)
Lemma tree_at_allocated (t : shape) :
  forall (h : gmap nat (node T)) p x,
    tree_at I h p t -> x ∈ addrs t -> is_Some (h !! x).
Proof.
  induction t as [|l IHl a r IHr]; intros h p x Ht Hx; simpl in Hx.
  - now apply elem_of_nil in Hx.
  - destruct Ht as [-> (n & Hn & Hl & Hr)].
    apply elem_of_app in Hx as [Hx|Hx]; [now apply (IHl h _ x Hl)|].
    apply elem_of_cons in Hx as [->|Hx]; [eauto|now apply (IHr h _ x Hr)].
Qed.

(** A cell written at an unused address leaves every tree as it was. *)
Lemma tree_at_fresh (t : shape) :
  forall (h : gmap nat (node T)) p (a : nat) (c : node T),
    h !! a = None -> tree_at I h p t -> tree_at I (<[a := c]> h) p t.
Proof.
  induction t as [|l IHl b r IHr]; intros h p a c Ha Ht; simpl in *.
  - exact Ht.
  - destruct Ht as [-> (n & Hn & Hl & Hr)]. split; [reflexivity|].
    exists n. split; [|split; [now apply IHl|now apply IHr]].
    rewrite lookup_insert_ne; [exact Hn|congruence].
Qed.

Lemma bst_fresh (t : shape) :
  forall (h : gmap nat (node T)) p (a : nat) (c : node T),
    h !! a = None -> tree_at I h p t -> bst C h t ->
    bst C (<[a := c]> h) t.
Proof.
  induction t as [|l IHl b r IHr]; intros h p a c Ha Ht Hb; simpl in *.
  - trivial.
  - destruct Ht as [-> (n & Hn & Hl & Hr)].
    destruct Hb as (Bl & Br & Hbl & Hbr).
    assert (Hba : a <> b) by congruence.
    split; [|split; [|split]];
      [| |now apply (IHl h _ a c Ha Hl)|now apply (IHr h _ a c Ha Hr)].
    + intros n' x nx Hn' Hx Hnx.
      rewrite lookup_insert_ne in Hn' by exact Hba.
      destruct (tree_at_allocated l h _ x Hl Hx) as [y Hy].
      rewrite lookup_insert_ne in Hnx by congruence.
      now apply (Bl n' x nx).
    + intros n' x nx Hn' Hx Hnx.
      rewrite lookup_insert_ne in Hn' by exact Hba.
      destruct (tree_at_allocated r h _ x Hr Hx) as [y Hy].
      rewrite lookup_insert_ne in Hnx by congruence.
      now apply (Br n' x nx).
Qed.

Hypothesis C_swo : strict_weak_order (m_comparator C).

(** No node of a subtree on the far side of the descent is equivalent to
    the key searched. *)
Lemma no_key_node (h : gmap nat (node T)) l a r n key :
  h !! a = Some n ->
  (forall x nx, x ∈ addrs l -> h !! x = Some nx ->
                ~ equiv_under (m_comparator C) key (key_of C nx)) ->
  (forall x nx, x ∈ addrs r -> h !! x = Some nx ->
                ~ equiv_under (m_comparator C) key (key_of C nx)) ->
  ~ equiv_under (m_comparator C) key (key_of C n) ->
  ~ has_key C h (Node l a r) key.
Proof.
  intros Hn Hl Hr Ha (x & nx & Hx & Hnx & He). simpl in Hx.
  apply elem_of_app in Hx as [Hx|Hx]; [now apply (Hl x nx)|].
  apply elem_of_cons in Hx as [->|Hx]; [|now apply (Hr x nx)].
  rewrite Hn in Hnx. injection Hnx as <-. now apply Ha.
Qed.

(** [find] on a well-formed search tree returns, with a cursor at a node
    of equivalent key, or at the end when the tree has none. *)
Lemma tmi_find_descent (t : shape) :
  forall (h : gmap nat (node T)) p key fuel,
    tree_at I h p t -> bst C h t -> (depth t <= fuel)%nat ->
    exists r, find_loop C I fuel h key p = Ok (make_iterator r) /\
      match r with
      | Some a => a ∈ addrs t /\
                  exists n, h !! a = Some n /\
                    equiv_under (m_comparator C) key (key_of C n)
      | None => ~ has_key C h t key
      end.
Proof.
  induction t as [|l IHl a r IHr]; intros h p key fuel Ht Hb Hd.
  - simpl in Ht. subst p. exists None. split.
    + destruct fuel; reflexivity.
    + intros (x & nx & Hx & _). simpl in Hx. now apply elem_of_nil in Hx.
  - destruct Ht as [-> (n & Hn & Hl & Hr)].
    destruct Hb as (Bl & Br & Hbl & Hbr).
    destruct fuel as [|fuel]; [simpl in Hd; lia|].
    simpl in Hd. cbn [find_loop is_null negb].
    rewrite (tmi_load_Some _ _ _ Hn). cbn.
    destruct (m_comparator C key (key_of C n)) eqn:E1.
    + destruct (IHl h _ key fuel Hl Hbl ltac:(lia)) as (res & E & P).
      exists res. split; [exact E|].
      destruct res as [a'|].
      * destruct P as [Hin P]. split; [|exact P].
        simpl. apply elem_of_app. now left.
      * apply (no_key_node h l a r n key Hn).
        -- intros x nx Hx Hnx He. apply P. now exists x, nx.
        -- intros x nx Hx Hnx He.
           pose proof (lt_equiv_l _ C_swo _ _ _ E1 He) as Hlt.
           rewrite (Br n x nx Hn Hx Hnx) in Hlt. discriminate.
        -- intros [He _]. congruence.
    + destruct (m_comparator C (key_of C n) key) eqn:E2.
      * destruct (IHr h _ key fuel Hr Hbr ltac:(lia)) as (res & E & P).
        exists res. split; [exact E|].
        destruct res as [a'|].
        -- destruct P as [Hin P]. split; [|exact P].
           simpl. apply elem_of_app. right. now apply elem_of_cons; right.
        -- apply (no_key_node h l a r n key Hn).
           ++ intros x nx Hx Hnx He.
              pose proof (lt_equiv_r _ C_swo _ _ _ E2 He) as Hlt.
              rewrite (Bl n x nx Hn Hx Hnx) in Hlt. discriminate.
           ++ intros x nx Hx Hnx He. apply P. now exists x, nx.
           ++ intros [_ He]. congruence.
      * exists (Some a). split; [reflexivity|]. split.
        -- simpl. apply elem_of_app. right. apply elem_of_cons. now left.
        -- exists n. split; [exact Hn|]. split; assumption.
Qed.

(** The descent of [preinsert_node] under the sorted-unique policy: it
    returns the conflicting node and leaves the hints alone, or returns
    [nullptr] when no key of the tree is equivalent. *)
Lemma preinsert_unique (t : shape) :
  sorted_unique C = true ->
  forall (h : gmap nat (node T)) p key fuel parent il hints,
    tree_at I h p t -> bst C h t -> (depth t <= fuel)%nat ->
    exists conflict hints',
      preinsert_loop C I fuel h key parent p il hints = Ok (conflict, hints') /\
      match conflict with
      | Some a => hints' = hints /\ a ∈ addrs t /\
                  exists n, h !! a = Some n /\
                    equiv_under (m_comparator C) key (key_of C n)
      | None => ~ has_key C h t key
      end.
Proof.
  intros Hu.
  induction t as [|l IHl a r IHr]; intros h p key fuel parent il hints Ht Hb Hd.
  - simpl in Ht. subst p. exists None, (mkHints parent il). split.
    + destruct fuel; reflexivity.
    + intros (x & nx & Hx & _). simpl in Hx. now apply elem_of_nil in Hx.
  - destruct Ht as [-> (n & Hn & Hl & Hr)].
    destruct Hb as (Bl & Br & Hbl & Hbr).
    destruct fuel as [|fuel]; [simpl in Hd; lia|].
    simpl in Hd. cbn [preinsert_loop is_null negb].
    rewrite (tmi_load_Some _ _ _ Hn). cbn. rewrite Hu.
    destruct (m_comparator C key (key_of C n)) eqn:E1.
    + destruct (IHl h _ key fuel (Some a) true hints Hl Hbl ltac:(lia))
        as (res & hs & E & P).
      exists res, hs. split; [exact E|].
      destruct res as [a'|].
      * destruct P as (Hh & Hin & P). split; [exact Hh|]. split; [|exact P].
        simpl. apply elem_of_app. now left.
      * apply (no_key_node h l a r n key Hn).
        -- intros x nx Hx Hnx He. apply P. now exists x, nx.
        -- intros x nx Hx Hnx He.
           pose proof (lt_equiv_l _ C_swo _ _ _ E1 He) as Hlt.
           rewrite (Br n x nx Hn Hx Hnx) in Hlt. discriminate.
        -- intros [He _]. congruence.
    + destruct (m_comparator C (key_of C n) key) eqn:E2.
      * destruct (IHr h _ key fuel (Some a) false hints Hr Hbr ltac:(lia))
          as (res & hs & E & P).
        exists res, hs. split; [exact E|].
        destruct res as [a'|].
        -- destruct P as (Hh & Hin & P). split; [exact Hh|]. split; [|exact P].
           simpl. apply elem_of_app. right. now apply elem_of_cons; right.
        -- apply (no_key_node h l a r n key Hn).
           ++ intros x nx Hx Hnx He.
              pose proof (lt_equiv_r _ C_swo _ _ _ E2 He) as Hlt.
              rewrite (Bl n x nx Hn Hx Hnx) in Hlt. discriminate.
           ++ intros x nx Hx Hnx He. apply P. now exists x, nx.
           ++ intros [_ He]. congruence.
      * exists (Some a), hints. split; [reflexivity|].
        split; [reflexivity|]. split.
        -- simpl. apply elem_of_app. right. apply elem_of_cons. now left.
        -- exists n. split; [exact Hn|]. split; assumption.
Qed.

(** The shape of a pointer structure is determined by the heap. *)
Lemma tree_at_inj (t1 : shape) :
  forall (h : gmap nat (node T)) p t2,
    tree_at I h p t1 -> tree_at I h p t2 -> t1 = t2.
Proof.
  induction t1 as [|l IHl a r IHr]; intros h p [|l2 a2 r2] H1 H2; simpl in *.
  - reflexivity.
  - destruct H2 as [E _]. congruence.
  - destruct H1 as [E _]. congruence.
  - destruct H1 as [-> (n & Hn & Hl & Hr)].
    destruct H2 as [E (n2 & Hn2 & Hl2 & Hr2)]. injection E as <-.
    rewrite Hn in Hn2. injection Hn2 as <-.
    now rewrite (IHl h _ l2 Hl Hl2), (IHr h _ r2 Hr Hr2).
Qed.

(** Under the non-unique policy the descent reports no conflict. *)
Lemma preinsert_nonunique (t : shape) :
  sorted_unique C = false ->
  forall (h : gmap nat (node T)) p key fuel parent il hints,
    tree_at I h p t -> (depth t <= fuel)%nat ->
    exists hints',
      preinsert_loop C I fuel h key parent p il hints = Ok (None, hints').
Proof.
  intros Hu.
  induction t as [|l IHl a r IHr]; intros h p key fuel parent il hints Ht Hd.
  - simpl in Ht. subst p. exists (mkHints parent il).
    destruct fuel; reflexivity.
  - destruct Ht as [-> (n & Hn & Hl & Hr)].
    destruct fuel as [|fuel]; [simpl in Hd; lia|].
    simpl in Hd. cbn [preinsert_loop is_null negb].
    rewrite (tmi_load_Some _ _ _ Hn). cbn. rewrite Hu.
    destruct (m_comparator C key (key_of C n)).
    + apply IHl; [exact Hl|lia].
    + apply IHr; [exact Hr|lia].
Qed.

(** [preinsert_node] on a well-formed index: it returns; a conflict is
    reported by a sorted-unique index only, is a node of the tree with a
    key equivalent to the candidate's, and leaves the hints alone. *)
Lemma preinsert_node_returns (h : gmap nat (node T)) m_root t nd n hints fuel :
  h !! nd = Some n ->
  tree_at I h m_root t -> bst C h t -> (depth t <= fuel)%nat ->
  exists conflict hints',
    preinsert_node C I fuel h m_root (Some nd) hints = Ok (conflict, hints') /\
    match conflict with
    | Some a => sorted_unique C = true /\ hints' = hints /\ a ∈ addrs t /\
                exists na, h !! a = Some na /\
                  equiv_under (m_comparator C) (key_of C n) (key_of C na)
    | None => sorted_unique C = true -> ~ has_key C h t (key_of C n)
    end.
Proof.
  intros Hn Ht Hb Hd. unfold preinsert_node.
  rewrite (tmi_load_Some _ _ _ Hn). cbn.
  destruct (sorted_unique C) eqn:Hu.
  - destruct (preinsert_unique t Hu h m_root (key_of C n) fuel None false
                hints Ht Hb Hd) as (conflict & hs & E & P).
    exists conflict, hs. split; [exact E|].
    destruct conflict as [a|]; [|intros _; exact P].
    destruct P as (P1 & P2 & P3). auto.
  - destruct (preinsert_nonunique t Hu h m_root (key_of C n) fuel None false
                hints Ht Hd) as (hs & E).
    exists None, hs. split; [exact E|]. intros Hx. discriminate.
Qed.

End Engine.

Section Links.

Context {T : Type}.
Variable I : nat.

(** [tree_min] returns nothing but [nullptr]: its loop runs until [node]
    is null and then returns [node]. *)
Lemma tree_min_loop_null fuel (h : gmap nat (node T)) nd r :
  tree_min_loop I fuel h nd = Ok r -> r = None.
Proof.
  revert nd. induction fuel as [|fuel IH]; intros nd; cbn; [discriminate|].
  destruct (get_left I h nd) as [[nd'|]| | |]; cbn; try discriminate.
  - apply IH.
  - congruence.
Qed.

Lemma tree_min_null fuel (h : gmap nat (node T)) nd r :
  tree_min I fuel h nd = Ok r -> r = None.
Proof.
  unfold tree_min.
  destruct (assert "node" (negb (is_null nd))); cbn; try discriminate.
  apply tree_min_loop_null.
Qed.

(** One round of the loop of [tree_balance_after_insert] changes neither
    [node] nor the heap, and clears [height_increased] only below a parent
    of balance factor -1 on whose left [node] hangs: anywhere else the loop
    never ends. *)
Lemma balance_loop_stuck fuel (h : gmap nat (node T)) root nd n p np :
  Some nd <> root ->
  h !! nd = Some n -> l_parent (links n I) = Some p ->
  h !! p = Some np ->
  l_bf (links np I) < INT_MAX -> l_bf (links np I) <> -1 ->
  tree_balance_after_insert_loop I fuel h root (Some nd) true = OutOfFuel.
Proof.
  intros Hroot Hn Hp Hnp Hmax Hbf.
  assert (Hne : ptr_eqb (Some nd) root = false).
  { unfold ptr_eqb. now apply bool_decide_eq_false_2. }
  induction fuel as [|fuel IH]; cbn [tree_balance_after_insert_loop];
    rewrite Hne; cbn [negb andb]; [reflexivity|].
  unfold get_parent, get_bf, get_left, load. rewrite Hn. cbn. rewrite Hp.
  rewrite Hnp. cbn.
  destruct (ptr_eqb (Some nd) (l_left (links np I))); [|exact IH].
  destruct (Z.ltb_spec INT_MAX (l_bf (links np I) + 1)) as [Hov|_]; [lia|].
  destruct (Z.eqb_spec (l_bf (links np I) + 1) 0) as [E0|_]; [lia|].
  destruct (l_bf (links np I) + 1 =? 1); exact IH.
Qed.

Lemma store_Some (h : gmap nat (node T)) a n f :
  h !! a = Some n -> store I h (Some a) f = Ok (<[a := upd_link I f n]> h).
Proof. intros E. unfold store, load. now rewrite E. Qed.

Lemma links_upd_link f (n : node T) : links (upd_link I f n) I = f (links n I).
Proof. cbn. now rewrite Nat.eqb_refl. Qed.

(** [insert_node] below a parent whose balance factor is not -1 never
    returns. *)
Lemma insert_node_stuck fuel (h : gmap nat (node T)) m_root nd n p np hints :
  m_parent hints = Some p -> p <> nd -> Some nd <> m_root ->
  h !! nd = Some n -> h !! p = Some np ->
  l_bf (links np I) < INT_MAX -> l_bf (links np I) <> -1 ->
  insert_node I fuel h m_root (Some nd) hints = OutOfFuel.
Proof.
  intros Hh Hpn Hroot Hn Hnp Hmax Hbf.
  unfold insert_node, set_left, set_right, set_bf, set_parent.
  rewrite (store_Some h nd n _ Hn). cbn [mbind outcome_bind].
  do 3 (erewrite store_Some by apply lookup_insert_eq;
        cbn [mbind outcome_bind]).
  rewrite Hh. cbn [is_null].
  assert (Hp4 : forall (h4 : gmap nat (node T)) n4 f,
            h4 !! nd = Some n4 -> h4 !! p = Some np ->
            l_parent (links n4 I) = Some p ->
            l_bf (f (links np I)) = l_bf (links np I) ->
            (h5 ← store I h4 (Some p) f;
             r ← tree_balance_after_insert I fuel h5 m_root (Some nd);
             Ok (h5, r)) = OutOfFuel).
  { intros h4 n4 f H4 H4p Hpar Hf.
    rewrite (store_Some h4 p np f H4p). cbn [mbind outcome_bind].
    unfold tree_balance_after_insert.
    rewrite (balance_loop_stuck fuel _ m_root nd n4 p (upd_link I f np)).
    - reflexivity.
    - exact Hroot.
    - rewrite lookup_insert_ne by exact Hpn. exact H4.
    - exact Hpar.
    - apply lookup_insert_eq.
    - rewrite links_upd_link, Hf. exact Hmax.
    - rewrite links_upd_link, Hf. exact Hbf. }
  destruct (m_inserted_left hints).
  - eapply Hp4.
    + apply lookup_insert_eq.
    + rewrite !lookup_insert_ne by congruence. exact Hnp.
    + now rewrite links_upd_link.
    + reflexivity.
  - eapply Hp4.
    + apply lookup_insert_eq.
    + rewrite !lookup_insert_ne by congruence. exact Hnp.
    + now rewrite links_upd_link.
    + reflexivity.
Qed.

End Links.

End TmiFacts.

(** * Facts about the coordinator's insert *)

Module CoordinatorFacts.

Import Tmi TmiTree TmiFacts Coordinator.

Section Insert.

Context {T : Type}.

(** The validation pass stops at a duplicate: when every index from [I] on
    is well formed and some sorted-unique one holds a key equivalent to the
    candidate's, the pass returns a conflicting node, which is such a
    duplicate. *)
Lemma preinsert_all_conflict (idxs : list (Comparator T)) :
  forall (rts : list ptr) (I : nat) (h : gmap nat (node T)) nd n,
    h !! nd = Some n ->
    length rts = length idxs ->
    (forall i C r, idxs !! i = Some C -> rts !! i = Some r ->
                   wf_index C (I + i) h r) ->
    (exists i C r t, idxs !! i = Some C /\ rts !! i = Some r /\
       sorted_unique C = true /\ tree_at (I + i) h r t /\
       has_key C h t (key_of C n)) ->
    exists fuel0, forall fuel, (fuel0 <= fuel)%nat ->
      exists conflict hs,
        preinsert_all idxs I fuel h rts (Some nd) = Ok (Some conflict, hs) /\
        exists i C r t na,
          idxs !! i = Some C /\ rts !! i = Some r /\ sorted_unique C = true /\
          tree_at (I + i) h r t /\ conflict ∈ addrs t /\
          h !! conflict = Some na /\
          equiv_under (m_comparator C) (key_of C n) (key_of C na).
Proof.
  induction idxs as [|C idxs IH]; intros rts I h nd n Hn Hlen Hwf Hdup.
  - destruct Hdup as (i & C & r & t & Hi & _). now rewrite lookup_nil in Hi.
  - destruct rts as [|m_root rts]; [simpl in Hlen; lia|].
    destruct (Hwf 0%nat C m_root eq_refl eq_refl) as [Hswo (t0 & Ht0 & Hb0)].
    rewrite Nat.add_0_r in Ht0.
    assert (Hstop : forall fuel, (depth t0 <= fuel)%nat ->
              (exists a hs, preinsert_node C I fuel h m_root (Some nd) no_hints
                              = Ok (Some a, hs) /\
                 sorted_unique C = true /\ a ∈ addrs t0 /\
                 exists na, h !! a = Some na /\
                   equiv_under (m_comparator C) (key_of C n) (key_of C na)) \/
              (exists hs, preinsert_node C I fuel h m_root (Some nd) no_hints
                            = Ok (None, hs) /\
                 (sorted_unique C = true -> ~ has_key C h t0 (key_of C n)))).
    { intros fuel Hf.
      destruct (preinsert_node_returns C I Hswo h m_root t0 nd n no_hints fuel
                  Hn Ht0 Hb0 Hf) as (conflict & hs & E & P).
      destruct conflict as [a|].
      - left. exists a, hs. destruct P as (P1 & _ & P3 & P4). auto.
      - right. exists hs. auto. }
    assert (Hhere : forall fuel a hs,
              preinsert_node C I fuel h m_root (Some nd) no_hints
                = Ok (Some a, hs) ->
              preinsert_all (C :: idxs) I fuel h (m_root :: rts) (Some nd)
                = Ok (Some a, [])).
    { intros fuel a hs E. cbn [preinsert_all]. rewrite E. reflexivity. }
    destruct Hdup as ([|i] & C' & r & t & Hi & Hr & Hu & Ht & Hk).
    + (* the duplicate sits in this index *)
      simpl in Hi, Hr. injection Hi as <-. injection Hr as <-.
      rewrite Nat.add_0_r in Ht.
      rewrite (tree_at_inj I t h m_root t0 Ht Ht0) in Hk.
      exists (depth t0). intros fuel Hf.
      destruct (Hstop fuel Hf) as [(a & hs & E & Ua & Ha & Hna)|(hs & E & Hno)].
      * exists a, []. split; [now apply (Hhere fuel a hs)|].
        destruct Hna as (na & Hna & Heq).
        exists 0%nat, C, m_root, t0, na. rewrite Nat.add_0_r. auto 10.
      * exfalso. now apply Hno.
    + (* the duplicate sits in a later index *)
      simpl in Hi, Hr.
      destruct (IH rts (S I) h nd n Hn) as (fuel1 & Hrest).
      * simpl in Hlen. lia.
      * intros j Cj rj Hj Hrj. rewrite Nat.add_succ_comm.
        now apply (Hwf (S j) Cj rj).
      * exists i, C', r, t. rewrite Nat.add_succ_comm. auto.
      * exists (Nat.max (depth t0) fuel1). intros fuel Hf.
        destruct (Hstop fuel ltac:(lia))
          as [(a & hs & E & Ua & Ha & Hna)|(hs & E & Hno)].
        -- exists a, []. split; [now apply (Hhere fuel a hs)|].
           destruct Hna as (na & Hna & Heq).
           exists 0%nat, C, m_root, t0, na. rewrite Nat.add_0_r. auto 10.
        -- destruct (Hrest fuel ltac:(lia))
             as (a & hs' & E' & j & Cj & rj & tj & na & P).
           exists a, (hs :: hs'). split.
           ++ cbn [preinsert_all]. rewrite E. cbn. rewrite E'. reflexivity.
           ++ exists (S j), Cj, rj, tj, na.
              rewrite <- Nat.add_succ_comm. exact P.
Qed.

End Insert.

End CoordinatorFacts.

(** * The claims *)

Import Avl AvlTree Tmi TmiTree Coordinator Scenario.

(** C9.  [verify] on the empty tree ([root == nullptr]) fails an assertion
    for every heap: [height] gives -1, the two assertions of the null
    branch of [verify_inner] hold, the branch does not return, and
    [assert(expected_height >= 0)] fails on -1.  The empty tree meets every
    invariant all the same. *)
Theorem verify_empty_tree_fails (fuel : nat) (h : gmap nat AVLnode) :
  Avl.height fuel h None = Ok (-1) /\
  Avl.verify_inner fuel h None None (-1) = AssertFail "expected_height >= 0" /\
  Avl.verify fuel h None = AssertFail "expected_height >= 0" /\
  AvlTree.tree_at h None Leaf /\ AvlTree.bst h Leaf /\
  parent_consistent h None Leaf.
Proof.
  repeat split; try (destruct fuel; reflexivity).
  - intros r n E. discriminate.
  - intros x n p Hx. simpl in Hx. now apply elem_of_nil in Hx.
Qed.

(** C10.  [insert(root, K, V)] of avl.cpp on a non-null root that heads a
    tree returns, and what it returns is the root it was given. *)
Theorem insert_returns_original_root (h : gmap nat AVLnode) (a : nat)
    (t : shape) (K : Z) (V : string) :
  AvlTree.tree_at h (Some a) t ->
  (exists fuel0, forall fuel, (fuel0 <= fuel)%nat ->
     exists h', Avl.insert fuel h (Some a) K V = Ok (h', Some a)) /\
  (forall fuel h' r', Avl.insert fuel h (Some a) K V = Ok (h', r') ->
     r' = Some a).
Proof.
  intros Ht. split.
  - exists (depth t). intros fuel Hf.
    destruct (AvlFacts.insert_without_rebalancing_returns t h a K V fuel Ht Hf)
      as (h' & c & E).
    exists h'. unfold Avl.insert. cbn [is_null]. rewrite E. reflexivity.
  - intros fuel h' r'. apply AvlFacts.insert_nonnull_result.
Qed.

Lemma insert_returns_original_root_witness :
  AvlTree.tree_at avl3 (Some 1%nat) shape3 /\
  ((exists fuel0, forall fuel, (fuel0 <= fuel)%nat ->
      exists h',
        Avl.insert fuel avl3 (Some 1%nat) 4 "d" = Ok (h', Some 1%nat)) /\
   (forall fuel h' r', Avl.insert fuel avl3 (Some 1%nat) 4 "d" = Ok (h', r') ->
      r' = Some 1%nat)).
Proof.
  assert (Ht : AvlTree.tree_at avl3 (Some 1%nat) shape3).
  { simpl. split; [reflexivity|]. eexists. split; [reflexivity|].
    split; (split; [reflexivity|]; eexists; split; [reflexivity|];
            split; reflexivity). }
  split; [exact Ht|].
  apply (insert_returns_original_root avl3 1%nat shape3 4 "d" Ht).
Defined.

(** C7.  On a tree that satisfies the BST ordering invariant [find(K)]
    returns, both in avl.cpp and in the index engine: a node whose key is
    equivalent to [K] whenever the tree holds such a node, and the
    not-found result ([nullptr], the end cursor) when it holds none. *)
Theorem find_returns_equivalent_node
    (h : gmap nat AVLnode) (root : ptr) (t : shape) (K : Z)
    {T : Type} (C : Comparator T) (I : nat)
    (hT : gmap nat (node T)) (m_root : ptr) (tT : shape) (key : key_type C) :
  AvlTree.tree_at h root t -> AvlTree.bst h t ->
  strict_weak_order (m_comparator C) ->
  TmiTree.tree_at I hT m_root tT -> TmiTree.bst C hT tT ->
  (exists fuel0, forall fuel, (fuel0 <= fuel)%nat ->
     exists r, Avl.find fuel h root K = Ok r /\
       (AvlTree.has_key h t K ->
        exists a n, r = Some a /\ a ∈ addrs t /\ h !! a = Some n /\
                    equiv_under Z.ltb K (K_ n)) /\
       (~ AvlTree.has_key h t K -> r = None)) /\
  (exists fuel0, forall fuel, (fuel0 <= fuel)%nat ->
     exists it, Tmi.find C I fuel hT m_root key = Ok it /\
       (TmiTree.has_key C hT tT key ->
        exists a n, m_node it = Some a /\ a ∈ addrs tT /\ hT !! a = Some n /\
                    equiv_under (m_comparator C) key (key_of C n)) /\
       (~ TmiTree.has_key C hT tT key -> it = end_)).
Proof.
  intros Ht Hb Hswo HtT HbT. split.
  - exists (depth t). intros fuel Hf.
    destruct (AvlFacts.avl_find_descent t h root K fuel Ht Hb Hf)
      as (r & E & P).
    exists r. split; [exact E|].
    destruct r as [a|].
    + destruct P as (Hin & n & Hn & H1 & H2). split.
      * intros _. exists a, n. repeat split; auto.
        -- now apply Z.ltb_ge, Z.nlt_ge.
        -- now apply Z.ltb_ge, Z.nlt_ge.
      * intros Hno. exfalso. apply Hno. exists a, n. repeat split; auto.
        -- now apply Z.ltb_ge, Z.nlt_ge.
        -- now apply Z.ltb_ge, Z.nlt_ge.
    + split; [|reflexivity].
      intros (x & nx & Hx & Hnx & [E1 E2]). exfalso.
      apply Z.ltb_ge in E1, E2. destruct (P x nx Hx Hnx); lia.
  - exists (depth tT). intros fuel Hf.
    destruct (TmiFacts.tmi_find_descent C I Hswo tT hT m_root key fuel
                HtT HbT Hf)
      as (r & E & P).
    exists (make_iterator r). split; [exact E|].
    destruct r as [a|].
    + destruct P as (Hin & n & Hn & He). split.
      * intros _. exists a, n. auto.
      * intros Hno. exfalso. apply Hno. now exists a, n.
    + split; [|reflexivity]. intros Hk. now exfalso.
Qed.

Lemma int_index_swo : strict_weak_order (m_comparator int_index).
Proof.
  split; cbn.
  - intros x. apply Z.ltb_irrefl.
  - intros x y z H1 H2. apply Z.ltb_lt in H1, H2. apply Z.ltb_lt. lia.
  - intros x y z H1 H2 H3 H4. apply Z.ltb_ge in H1, H2, H3, H4.
    split; apply Z.ltb_ge; lia.
Defined.

Lemma balanced3_tree : TmiTree.tree_at 0 (balanced3 5) (Some 1%nat) shape3.
Proof.
  simpl. split; [reflexivity|]. eexists. split; [reflexivity|].
  split; (split; [reflexivity|]; eexists; split; [reflexivity|];
          split; reflexivity).
Defined.

Lemma balanced3_bst : TmiTree.bst int_index (balanced3 5) shape3.
Proof.
  assert (L : forall (x : nat) (l : list nat), x ∈ l -> In x l).
  { intros x l. apply list_elem_of_In. }
  simpl. repeat split; intros n x nx Hn Hx Hnx; apply L in Hx; simpl in Hx;
    try tauto; destruct Hx as [<-|[]];
    (vm_compute in Hn; vm_compute in Hnx;
     injection Hn as <-; injection Hnx as <-; reflexivity).
Defined.

Lemma avl3_tree : AvlTree.tree_at avl3 (Some 1%nat) shape3.
Proof.
  simpl. split; [reflexivity|]. eexists. split; [reflexivity|].
  split; (split; [reflexivity|]; eexists; split; [reflexivity|];
          split; reflexivity).
Defined.

Lemma avl3_bst : AvlTree.bst avl3 shape3.
Proof.
  assert (L : forall (x : nat) (l : list nat), x ∈ l -> In x l).
  { intros x l. apply list_elem_of_In. }
  simpl. repeat split; intros n x nx Hn Hx Hnx; apply L in Hx; simpl in Hx;
    try tauto; destruct Hx as [<-|[]];
    (vm_compute in Hn; vm_compute in Hnx;
     injection Hn as <-; injection Hnx as <-; cbn; lia).
Defined.

Lemma find_returns_equivalent_node_witness :
  (exists fuel0, forall fuel, (fuel0 <= fuel)%nat ->
     exists r, Avl.find fuel avl3 (Some 1%nat) 8 = Ok r /\
       (AvlTree.has_key avl3 shape3 8 ->
        exists a n, r = Some a /\ a ∈ addrs shape3 /\ avl3 !! a = Some n /\
                    equiv_under Z.ltb 8 (K_ n)) /\
       (~ AvlTree.has_key avl3 shape3 8 -> r = None)) /\
  (exists fuel0, forall fuel, (fuel0 <= fuel)%nat ->
     exists it,
       Tmi.find int_index 0 fuel (balanced3 5) (Some 1%nat) 4 = Ok it /\
       (TmiTree.has_key int_index (balanced3 5) shape3 4 ->
        exists a n, m_node it = Some a /\ a ∈ addrs shape3 /\
                    balanced3 5 !! a = Some n /\
                    equiv_under (m_comparator int_index) 4
                      (key_of int_index n)) /\
       (~ TmiTree.has_key int_index (balanced3 5) shape3 4 -> it = end_)).
Proof.
  apply (find_returns_equivalent_node avl3 (Some 1%nat) shape3 8
           int_index 0%nat (balanced3 5) (Some 1%nat) shape3 4
           avl3_tree avl3_bst int_index_swo balanced3_tree balanced3_bst).
Defined.

(** C5.  Inserting a value whose key is equivalent to the key of an
    existing element under a sorted-unique index fails: the insert returns,
    with the failure flag and a reference to such a conflicting element,
    and the container it leaves is the one it got: the pool, every index's
    root and the size are unchanged. *)
Theorem duplicate_key_insert_fails {T : Type} (idxs : list (Comparator T))
    (c : container T) (v : T) :
  wf_container idxs c ->
  (exists x, duplicate_of idxs (pool c) (roots c) v x) ->
  exists fuel0, forall fuel, (fuel0 <= fuel)%nat ->
    exists conflict,
      do_insert idxs fuel c v = Ok (c, (Some conflict, false)) /\
      duplicate_of idxs (pool c) (roots c) v conflict.
Proof.
  intros [Hlen Hwf] (x & i & C & r & t & n & Hi & Hr & Hu & Ht & Hx & Hn & He).
  unfold do_insert. cbv zeta.
  set (a := fresh (dom (pool c))).
  set (cand := mkNode v (fun _ => mkLink None None None 0)).
  assert (Ha : pool c !! a = None).
  { apply not_elem_of_dom. apply is_fresh. }
  destruct (CoordinatorFacts.preinsert_all_conflict idxs (roots c) 0%nat
              (<[a := cand]> (pool c)) a cand) as (fuel0 & Hrun).
  - apply lookup_insert_eq.
  - exact Hlen.
  - intros j Cj rj Hj Hrj.
    destruct (Hwf j Cj rj Hj Hrj) as [Hswo (tj & Htj & Hbj)].
    split; [exact Hswo|]. exists tj. split.
    + now apply TmiFacts.tree_at_fresh.
    + now apply (TmiFacts.bst_fresh Cj j tj (pool c) rj).
  - exists i, C, r, t. repeat split; auto.
    + now apply TmiFacts.tree_at_fresh.
    + exists x, n. repeat split; auto.
      * rewrite lookup_insert_ne; [exact Hn|congruence].
      * apply He.
      * apply He.
  - exists fuel0. intros fuel Hf.
    destruct (Hrun fuel Hf)
      as (conflict & hs & E & j & Cj & rj & tj & na & Hj & Hrj & Huj & Htj
          & Hin & Hna & Heq).
    exists conflict. split.
    + rewrite E. reflexivity.
    + destruct (Hwf j Cj rj Hj Hrj) as [_ (tj' & Htj' & _)].
      pose proof (TmiFacts.tree_at_fresh j tj' (pool c) rj a cand Ha Htj')
        as Hfresh.
      rewrite <- (TmiFacts.tree_at_inj j tj _ rj tj' Htj Hfresh) in Htj'.
      destruct (TmiFacts.tree_at_allocated j tj (pool c) rj conflict Htj' Hin)
        as [y Hy].
      rewrite lookup_insert_ne in Hna by congruence.
      exists j, Cj, rj, tj, na. repeat split; auto; apply Heq.
Qed.

Lemma singleton5_wf : wf_container [int_index] singleton5.
Proof.
  split; [reflexivity|].
  intros [|i] C r Hi Hr; [|destruct i; discriminate Hi].
  injection Hi as <-. injection Hr as <-.
  split; [exact int_index_swo|].
  exists (Node Leaf 1%nat Leaf). split.
  - simpl. split; [reflexivity|]. eexists. split; [reflexivity|].
    split; reflexivity.
  - simpl. repeat split; intros n x nx _ Hx; now apply elem_of_nil in Hx.
Defined.

Lemma singleton5_duplicate :
  exists x, duplicate_of [int_index] (pool singleton5) (roots singleton5) 5 x.
Proof.
  exists 1%nat, 0%nat, int_index, (Some 1%nat), (Node Leaf 1%nat Leaf).
  exists (cell 5 None None None).
  split; [reflexivity|]. split; [reflexivity|]. split; [reflexivity|].
  split; [|split; [|split; [reflexivity|split; reflexivity]]].
  - simpl. split; [reflexivity|]. eexists. split; [reflexivity|].
    split; reflexivity.
  - simpl. apply elem_of_cons. now left.
Defined.

Lemma duplicate_key_insert_fails_witness :
  exists fuel0, forall fuel, (fuel0 <= fuel)%nat ->
    exists conflict,
      do_insert [int_index] fuel singleton5 5
        = Ok (singleton5, (Some conflict, false)) /\
      duplicate_of [int_index] (pool singleton5) (roots singleton5) 5 conflict.
Proof.
  apply (duplicate_key_insert_fails [int_index] singleton5 5
           singleton5_wf singleton5_duplicate).
Defined.

(** C1.  Inserts do not keep the tree balanced.  In avl.cpp the keys 1, 2, 3
    inserted in this order leave the root with an empty left subtree
    (height -1) and a right subtree of height 1, and [verify] rejects the
    tree.  In the index engine the insertion of a second node never
    returns: [preinsert_node] places 2 to the right of 1, and [insert_node]
    then runs the loop of [tree_balance_after_insert] for ever. *)
Theorem sorted_inserts_leave_tree_unbalanced :
  (exists h root n,
     insert_keys 10 ∅ None [1; 2; 3] = Ok (h, root) /\
     Avl.load h root = Ok n /\
     real_height 10 h (left_ n) = -1 /\
     real_height 10 h (right_ n) = 1 /\
     Avl.verify 10 h root = AssertFail "root->height_ == H") /\
  (forall fuel,
     preinsert_node int_index 0 (S fuel) two_cells (Some 0%nat) (Some 1%nat)
       no_hints = Ok (None, mkHints (Some 0%nat) false) /\
     insert_node 0 fuel two_cells (Some 0%nat) (Some 1%nat)
       (mkHints (Some 0%nat) false) = OutOfFuel).
Proof.
  split.
  - eexists _, _, _. split; [vm_compute; reflexivity|].
    split; [vm_compute; reflexivity|].
    repeat split; vm_compute; reflexivity.
  - intros fuel. split.
    + destruct fuel; vm_compute; reflexivity.
    + apply (TmiFacts.insert_node_stuck 0 fuel two_cells (Some 0%nat) 1%nat
               (cell 2 None None None) 0%nat (cell 1 None None None)).
      * reflexivity.
      * discriminate.
      * discriminate.
      * reflexivity.
      * reflexivity.
      * reflexivity.
      * discriminate.
Qed.

(** C4.  Parent links are not consistent after an insert of avl.cpp.  After
    2 and then 1 are inserted, the node of key 1 is the left child of the
    root, and its parent link points at the node itself, of which it is
    neither the left nor the right child. *)
Theorem insert_sets_parent_to_self :
  exists h root t,
    insert_keys 10 ∅ None [2; 1] = Ok (h, root) /\
    AvlTree.tree_at h root t /\
    (exists x n, x ∈ addrs t /\ h !! x = Some n /\ K_ n = 1 /\
                 parent_ n = Some x) /\
    ~ parent_consistent h root t.
Proof.
  eexists _, _, (Node (Node Leaf 1%nat Leaf) 0%nat Leaf).
  split; [vm_compute; reflexivity|].
  split.
  { simpl. split; [reflexivity|]. eexists. split; [vm_compute; reflexivity|].
    split; [|reflexivity].
    split; [reflexivity|]. eexists. split; [vm_compute; reflexivity|].
    split; reflexivity. }
  assert (Hin : 1%nat ∈ addrs (Node (Node Leaf 1%nat Leaf) 0%nat Leaf)).
  { simpl. apply elem_of_cons. now left. }
  split.
  { eexists 1%nat, _. split; [exact Hin|].
    split; [vm_compute; reflexivity|]. split; reflexivity. }
  intros [_ Hp].
  destruct (Hp 1%nat (mkAVLnode 1 "abc" None None (Some 1%nat) false 0)
              1%nat Hin) as (np & Hnp & Hc).
  - vm_compute. reflexivity.
  - reflexivity.
  - vm_compute in Hnp. injection Hnp as <-.
    destruct Hc as [Hc|Hc]; discriminate Hc.
Qed.

(** C2.  Erasing a node empties the index instead of removing the node.  In
    the left-heavy tree of the keys 3, 2, 1 [find] locates 1 and 2; once
    the root has been erased ([remove_node] assigns the result of
    [tree_remove], which is [nullptr], to [m_root]) neither key is found.
    In avl.cpp [remove] returns its argument and unlinks nothing: the key
    of the erased root is still found. *)
Theorem erase_empties_the_index :
  Tmi.find int_index 0 10 left_heavy3 (Some 1%nat) 1
    = Ok (make_iterator (Some 3%nat)) /\
  Tmi.find int_index 0 10 left_heavy3 (Some 1%nat) 2
    = Ok (make_iterator (Some 2%nat)) /\
  remove_node (Some 1%nat) (Some 1%nat) = None /\
  Tmi.find int_index 0 10 left_heavy3
    (remove_node (Some 1%nat) (Some 1%nat)) 1 = Ok end_ /\
  Tmi.find int_index 0 10 left_heavy3
    (remove_node (Some 1%nat) (Some 1%nat)) 2 = Ok end_ /\
  Avl.find 10 avl3 (Some 1%nat) 5 = Ok (Some 1%nat) /\
  Avl.find 10 avl3 (Avl.remove (Some 1%nat)) 5 = Ok (Some 1%nat).
Proof. repeat split; vm_compute; reflexivity. Qed.

(** C3.  The successor of a node with a right subtree is not the leftmost
    node of that subtree: [tree_min] runs until its node is null and
    returns that null, so [tree_next] of the root of the tree 3, 5, 8 is
    [nullptr] (the leftmost node of the right subtree is the node of 8),
    a cursor at the root steps to the end, and [begin()] is [end()].  A left
    child without right subtree does get its parent; the ascent from the
    last node, and from the only node of a one-element index, dereferences
    the parent of the root. *)
Theorem tree_next_skips_right_subtree :
  tree_next 0 10 (balanced3 5) (Some 1%nat) = Ok None /\
  tree_min 0 10 (balanced3 5) (Some 3%nat) = Ok None /\
  iterator_incr 0 10 (balanced3 5) (make_iterator (Some 1%nat)) = Ok end_ /\
  begin 0 10 (balanced3 5) (Some 1%nat) = Ok end_ /\
  tree_next 0 10 (balanced3 5) (Some 2%nat) = Ok (Some 1%nat) /\
  tree_next 0 10 (balanced3 5) (Some 3%nat) = Undefined /\
  begin 0 10 (pool after_first) (Some 0%nat) = Ok end_ /\
  tree_next 0 10 (pool after_first) (Some 0%nat) = Undefined.
Proof. repeat split; vm_compute; reflexivity. Qed.

(** C8.  [erase_if_modified] does not compare the node with its neighbours
    in the tree.  In the tree 3, 5, 8 the root is edited from 5 to 1, below
    its predecessor 3: the check finds neither neighbour, returns false and
    leaves the tree as it is.  In the tree of 5, its left child 3 and the
    right child 4 of that, 4 is edited to 9, above its successor 5: the
    check returns true and resets the node's links, the root of the index
    becomes [nullptr], and the node of 3 still has the node as its right
    child.  On the only node of a one-element index the check dereferences
    the parent of the root. *)
Theorem erase_if_modified_misses_violation :
  erase_if_modified int_index 0 10 (balanced3 1) (Some 1%nat) (Some 1%nat)
    = Ok (balanced3 1, Some 1%nat, false) /\
  m_comparator int_index 1 3 = true /\
  (exists h',
     erase_if_modified int_index 0 10 (zigzag3 9) (Some 1%nat) (Some 3%nat)
       = Ok (h', None, true) /\
     get_parent 0 h' (Some 3%nat) = Ok None /\
     get_right 0 h' (Some 2%nat) = Ok (Some 3%nat)) /\
  erase_if_modified int_index 0 10 (pool after_first) (Some 0%nat)
    (Some 0%nat) = Undefined.
Proof.
  split; [vm_compute; reflexivity|]. split; [reflexivity|].
  split; [|vm_compute; reflexivity].
  eexists. split; [vm_compute; reflexivity|].
  split; vm_compute; reflexivity.
Qed.

(** C6.  The keys 1 to 7 inserted in ascending order do not give a tree of
    height 2.  In avl.cpp the result is the right spine, of height 6.  In a
    sorted-unique index the first insert succeeds and the second never
    returns, whatever the fuel. *)
Theorem ascending_inserts_give_height_six :
  (exists h root,
     insert_keys 10 ∅ None [1; 2; 3; 4; 5; 6; 7] = Ok (h, root) /\
     real_height 10 h root = 6) /\
  do_insert [int_index] 1 empty_container 1
    = Ok (after_first, (Some 0%nat, true)) /\
  (forall fuel, do_insert [int_index] fuel after_first 2 = OutOfFuel).
Proof.
  split; [|split].
  - eexists _, _. split; [vm_compute; reflexivity|].
    vm_compute. reflexivity.
  - vm_compute. reflexivity.
  - intros [|fuel]; [vm_compute; reflexivity|].
    unfold do_insert. cbv zeta.
    assert (Ef : fresh (dom (pool after_first)) = 1%nat)
      by (vm_compute; reflexivity).
    rewrite Ef.
    assert (Er : roots after_first = [Some 0%nat]) by (vm_compute; reflexivity).
    rewrite Er.
    set (cand := mkNode 2 (fun _ => mkLink None None None 0)).
    assert (E : preinsert_all [int_index] 0 (S fuel)
                  (<[1%nat := cand]> (pool after_first)) [Some 0%nat]
                  (Some 1%nat)
                = Ok (None, [mkHints (Some 0%nat) false]))
      by (destruct fuel; vm_compute; reflexivity).
    rewrite E. cbn [mbind outcome_bind is_null negb insert_all].
    assert (Hroot : exists np, pool after_first !! 0%nat = Some np /\
                               l_bf (links np 0) = 0).
    { eexists. split; vm_compute; reflexivity. }
    destruct Hroot as (np & Hnp & Hbf).
    rewrite (TmiFacts.insert_node_stuck 0 (S fuel)
               (<[1%nat := cand]> (pool after_first)) (Some 0%nat) 1%nat
               cand 0%nat np).
    + reflexivity.
    + reflexivity.
    + discriminate.
    + discriminate.
    + apply lookup_insert_eq.
    + rewrite lookup_insert_ne by discriminate. exact Hnp.
    + rewrite Hbf. reflexivity.
    + rewrite Hbf. discriminate.
Qed.

(** * Insertion and verification in avl.cpp *)

Module AvlInsertFacts.

Lemma avl_tree_at_allocated (t : shape) :
  forall (h : gmap nat AVLnode) p x,
    AvlTree.tree_at h p t -> x ∈ addrs t -> is_Some (h !! x).
Proof.
  induction t as [|l IHl a r IHr]; intros h p x Ht Hx; simpl in Hx.
  - now apply elem_of_nil in Hx.
  - destruct Ht as [-> (n & Hn & Hl & Hr)].
    apply elem_of_app in Hx as [Hx|Hx]; [now apply (IHl h _ x Hl)|].
    apply elem_of_cons in Hx as [->|Hx]; [eauto|now apply (IHr h _ x Hr)].
Qed.

(** A tree only depends on the cells at its own addresses. *)
Lemma avl_tree_at_agree (t : shape) :
  forall (h h' : gmap nat AVLnode) p,
    (forall x, x ∈ addrs t -> h' !! x = h !! x) ->
    AvlTree.tree_at h p t -> AvlTree.tree_at h' p t.
Proof.
  induction t as [|l IHl a r IHr]; intros h h' p Hag Ht; simpl in *.
  - exact Ht.
  - destruct Ht as [-> (n & Hn & Hl & Hr)]. split; [reflexivity|].
    exists n. split; [|split].
    + rewrite Hag; [exact Hn|]. apply elem_of_app. right.
      apply elem_of_cons. now left.
    + apply (IHl h); [|exact Hl]. intros x Hx. apply Hag.
      apply elem_of_app. now left.
    + apply (IHr h); [|exact Hr]. intros x Hx. apply Hag.
      apply elem_of_app. right. apply elem_of_cons. now right.
Qed.

Lemma NoDup_node l (a : nat) r :
  NoDup (addrs l ++ a :: addrs r) ->
  NoDup (addrs l) /\ NoDup (addrs r) /\ (a ∉ addrs l) /\ (a ∉ addrs r) /\
  (forall x, x ∈ addrs l -> x ∉ addrs r).
Proof.
  intros H. apply NoDup_app in H as (Hl & Hd & Hr).
  apply NoDup_cons in Hr as [Har Hr].
  repeat split; auto.
  - intros Ha. apply (Hd a Ha). apply elem_of_cons. now left.
  - intros x Hx Hxr. apply (Hd x Hx). apply elem_of_cons. now right.
Qed.

(** The in-order addresses after an insertion are the old ones and the new
    one. *)
Lemma addrs_ins_shape (t : shape) :
  forall (h : gmap nat AVLnode) p K b,
    AvlTree.tree_at h p t -> addrs (ins_shape h K b t) ≡ₚ b :: addrs t.
Proof.
  induction t as [|l IHl a r IHr]; intros h p K b Ht; simpl in *.
  - reflexivity.
  - destruct Ht as [-> (n & Hn & Hl & Hr)]. rewrite Hn.
    destruct (K <? K_ n); simpl.
    + rewrite (IHl h _ K b Hl). reflexivity.
    + rewrite (IHr h _ K b Hr). rewrite <- !Permutation_middle.
      apply Permutation_swap.
Qed.

Lemma depth_ins_shape (t : shape) :
  forall (h : gmap nat AVLnode) K b,
    (depth (ins_shape h K b t) <= S (depth t))%nat.
Proof.
  induction t as [|l IHl a r IHr]; intros h K b; simpl.
  - lia.
  - destruct (h !! a) as [n|]; [|simpl; lia].
    destruct (K <? K_ n); simpl.
    + specialize (IHl h K b). lia.
    + specialize (IHr h K b). lia.
Qed.

(** [insert_without_rebalancing] on a tree: it returns the fresh node, the
    heap then holds the tree with the node hung at the end of the descent,
    the node is a leaf of key [K], and no other cell changes beyond one
    child link. *)
Lemma insert_without_rebalancing_shape (t : shape) :
  forall (h : gmap nat AVLnode) a K V fuel,
    AvlTree.tree_at h (Some a) t -> NoDup (addrs t) ->
    (depth t <= fuel)%nat ->
    exists h',
      insert_without_rebalancing fuel h (Some a) K V
        = Ok (h', Some (fresh (dom h))) /\
      AvlTree.tree_at h' (Some a) (ins_shape h K (fresh (dom h)) t) /\
      h' !! fresh (dom h)
        = Some (mkAVLnode K V None None (Some (fresh (dom h))) false 0) /\
      (forall x, x <> fresh (dom h) -> x ∉ addrs t -> h' !! x = h !! x) /\
      (forall x n, x ∈ addrs t -> h !! x = Some n ->
         exists n', h' !! x = Some n' /\ same_payload n n').
Proof.
  induction t as [|l IHl a0 r IHr]; intros h a K V fuel Ht Hnd Hd.
  - simpl in Ht. discriminate.
  - destruct Ht as [Ha (n & Hn & Hl & Hr)]. injection Ha as ->.
    simpl in Hnd.
    destruct (NoDup_node l a0 r Hnd) as (Nl & Nr & Hal & Har & Hlr).
    destruct fuel as [|fuel]; [simpl in Hd; lia|]. simpl in Hd.
    set (b := fresh (dom h)).
    assert (Hb : h !! b = None) by (apply not_elem_of_dom, is_fresh).
    assert (Hab : a0 <> b) by congruence.
    assert (Hfresh : forall s p x,
              AvlTree.tree_at h p s -> x ∈ addrs s -> x <> b).
    { intros s p x Hs Hx ->.
      destruct (avl_tree_at_allocated s h p b Hs Hx) as [y Hy]. congruence. }
    cbn [insert_without_rebalancing ins_shape].
    rewrite (AvlFacts.avl_load_Some _ _ _ Hn). cbn [mbind outcome_bind].
    rewrite Hn.
    destruct (K <? K_ n).
    + destruct (left_ n) as [c|] eqn:El; cbn [is_null negb].
      * destruct l as [|ll la lr]; [simpl in Hl; discriminate|].
        destruct (IHl h c K V fuel Hl Nl ltac:(lia))
          as (h' & E & Ht' & Hb' & Hfr & Hpay).
        fold b in E, Ht', Hb', Hfr.
        exists h'. split; [exact E|].
        assert (Ha' : h' !! a0 = Some n).
        { rewrite Hfr; [exact Hn|exact Hab|exact Hal]. }
        split; [|split; [exact Hb'|split]].
        -- simpl. split; [reflexivity|]. exists n. split; [exact Ha'|].
           rewrite El. split; [exact Ht'|].
           apply (avl_tree_at_agree r h); [|exact Hr].
           intros x Hx. apply Hfr; [now apply (Hfresh r (right_ n))|].
           intros Hxl. now apply (Hlr x Hxl).
        -- intros x Hxb Hx. apply Hfr; [exact Hxb|].
           intros Hxl. apply Hx. simpl. apply elem_of_app. now left.
        -- intros x nx Hx Hnx.
           destruct (decide (x ∈ addrs (Node ll la lr))) as [Hxl|Hxl].
           ++ now apply Hpay.
           ++ exists nx. split; [|now repeat split].
              rewrite Hfr; [exact Hnx| |exact Hxl].
              intros ->. congruence.
      * destruct l as [|ll la lr]; [|simpl in Hl; destruct Hl; discriminate].
        unfold new. fold b. unfold Avl.store, Avl.load.
        cbn [mbind outcome_bind].
        rewrite lookup_insert_ne by congruence. rewrite Hn.
        cbn [mbind outcome_bind]. rewrite lookup_insert_eq.
        cbn [mbind outcome_bind left_ set_left_].
        rewrite lookup_insert_ne by congruence. rewrite lookup_insert_eq.
        cbn [mbind outcome_bind].
        rewrite lookup_insert_ne by congruence. rewrite lookup_insert_eq.
        cbn [mbind outcome_bind left_].
        eexists. split; [reflexivity|].
        split; [|split; [|split]].
        -- simpl. split; [reflexivity|]. eexists. split.
           { rewrite lookup_insert_ne by congruence. apply lookup_insert_eq. }
           cbn [left_ right_]. split.
           { split; [reflexivity|]. eexists. split; [apply lookup_insert_eq|].
             split; reflexivity. }
           apply (avl_tree_at_agree r h); [|exact Hr].
           intros x Hx.
           assert (x <> b) by now apply (Hfresh r (right_ n)).
           assert (x <> a0) by (intros ->; now apply Har).
           now rewrite !lookup_insert_ne by congruence.
        -- apply lookup_insert_eq.
        -- intros x Hxb Hx.
           assert (x <> a0).
           { intros ->. apply Hx. simpl. apply elem_of_cons. now left. }
           now rewrite !lookup_insert_ne by congruence.
        -- intros x nx Hx Hnx. simpl in Hx.
           apply elem_of_cons in Hx as [->|Hx].
           ++ rewrite Hn in Hnx. injection Hnx as <-. eexists. split.
              { rewrite lookup_insert_ne by congruence.
                apply lookup_insert_eq. }
              now repeat split.
           ++ assert (x <> b) by now apply (Hfresh r (right_ n)).
              assert (x <> a0) by (intros ->; now apply Har).
              exists nx. split; [|now repeat split].
              now rewrite !lookup_insert_ne by congruence.
    + destruct (right_ n) as [c|] eqn:Er; cbn [is_null negb].
      * destruct r as [|rl ra rr]; [simpl in Hr; discriminate|].
        destruct (IHr h c K V fuel Hr Nr ltac:(lia))
          as (h' & E & Ht' & Hb' & Hfr & Hpay).
        fold b in E, Ht', Hb', Hfr.
        exists h'. split; [exact E|].
        assert (Ha' : h' !! a0 = Some n).
        { rewrite Hfr; [exact Hn|exact Hab|exact Har]. }
        split; [|split; [exact Hb'|split]].
        -- simpl. split; [reflexivity|]. exists n. split; [exact Ha'|].
           rewrite Er. split; [|exact Ht'].
           apply (avl_tree_at_agree l h); [|exact Hl].
           intros x Hx. apply Hfr; [now apply (Hfresh l (left_ n))|].
           now apply Hlr.
        -- intros x Hxb Hx. apply Hfr; [exact Hxb|].
           intros Hxr. apply Hx. simpl. apply elem_of_app. right.
           apply elem_of_cons. now right.
        -- intros x nx Hx Hnx.
           destruct (decide (x ∈ addrs (Node rl ra rr))) as [Hxr|Hxr].
           ++ now apply Hpay.
           ++ exists nx. split; [|now repeat split].
              rewrite Hfr; [exact Hnx| |exact Hxr].
              intros ->. congruence.
      * destruct r as [|rl ra rr]; [|simpl in Hr; destruct Hr; discriminate].
        unfold new. fold b. unfold Avl.store, Avl.load.
        cbn [mbind outcome_bind].
        rewrite lookup_insert_ne by congruence. rewrite Hn.
        cbn [mbind outcome_bind]. rewrite lookup_insert_eq.
        cbn [mbind outcome_bind right_ set_right_].
        rewrite lookup_insert_ne by congruence. rewrite lookup_insert_eq.
        cbn [mbind outcome_bind].
        rewrite lookup_insert_ne by congruence. rewrite lookup_insert_eq.
        cbn [mbind outcome_bind right_].
        eexists. split; [reflexivity|].
        split; [|split; [|split]].
        -- simpl. split; [reflexivity|]. eexists. split.
           { rewrite lookup_insert_ne by congruence. apply lookup_insert_eq. }
           cbn [left_ right_]. split.
           2:{ split; [reflexivity|]. eexists. split; [apply lookup_insert_eq|].
               split; reflexivity. }
           apply (avl_tree_at_agree l h); [|exact Hl].
           intros x Hx.
           assert (x <> b) by now apply (Hfresh l (left_ n)).
           assert (x <> a0) by (intros ->; now apply Hal).
           now rewrite !lookup_insert_ne by congruence.
        -- apply lookup_insert_eq.
        -- intros x Hxb Hx.
           assert (x <> a0).
           { intros ->. apply Hx. simpl. apply elem_of_app. right.
             apply elem_of_cons. now left. }
           now rewrite !lookup_insert_ne by congruence.
        -- intros x nx Hx Hnx. simpl in Hx.
           apply elem_of_app in Hx as [Hx|Hx].
           ++ assert (x <> b) by now apply (Hfresh l (left_ n)).
              assert (x <> a0) by (intros ->; now apply Hal).
              exists nx. split; [|now repeat split].
              now rewrite !lookup_insert_ne by congruence.
           ++ apply list_elem_of_singleton in Hx as ->.
              rewrite Hn in Hnx. injection Hnx as <-. eexists. split.
              { rewrite lookup_insert_ne by congruence.
                apply lookup_insert_eq. }
              now repeat split.
Qed.

(** A search tree stays one when its nodes keep their keys. *)
Lemma avl_bst_keys_agree (t : shape) :
  forall (h h' : gmap nat AVLnode) p,
    AvlTree.tree_at h p t -> AvlTree.bst h t ->
    (forall x n, x ∈ addrs t -> h !! x = Some n ->
       exists n', h' !! x = Some n' /\ K_ n' = K_ n) ->
    AvlTree.bst h' t.
Proof.
  induction t as [|l IHl a r IHr]; intros h h' p Ht Hb Hk; simpl in *.
  - trivial.
  - destruct Ht as [-> (n & Hn & Hl & Hr)].
    destruct Hb as (Bl & Br & Hbl & Hbr).
    assert (Hinl : forall x, x ∈ addrs l -> x ∈ addrs l ++ a :: addrs r).
    { intros x Hx. apply elem_of_app. now left. }
    assert (Hinr : forall x, x ∈ addrs r -> x ∈ addrs l ++ a :: addrs r).
    { intros x Hx. apply elem_of_app. right. apply elem_of_cons. now right. }
    assert (Hina : a ∈ addrs l ++ a :: addrs r).
    { apply elem_of_app. right. apply elem_of_cons. now left. }
    destruct (Hk a n Hina Hn) as (n' & Hn' & Kn').
    split; [|split; [|split]].
    + intros n0 x nx Hn0 Hx Hnx. rewrite Hn' in Hn0. injection Hn0 as <-.
      destruct (avl_tree_at_allocated l h _ x Hl Hx) as [ox Hox].
      destruct (Hk x ox (Hinl x Hx) Hox) as (nx' & Hnx' & Kx').
      rewrite Hnx' in Hnx. injection Hnx as <-. rewrite Kn', Kx'.
      now apply (Bl n x ox).
    + intros n0 x nx Hn0 Hx Hnx. rewrite Hn' in Hn0. injection Hn0 as <-.
      destruct (avl_tree_at_allocated r h _ x Hr Hx) as [ox Hox].
      destruct (Hk x ox (Hinr x Hx) Hox) as (nx' & Hnx' & Kx').
      rewrite Hnx' in Hnx. injection Hnx as <-. rewrite Kn', Kx'.
      now apply (Br n x ox).
    + apply (IHl h h' _ Hl Hbl). intros x nx Hx. apply Hk. now apply Hinl.
    + apply (IHr h h' _ Hr Hbr). intros x nx Hx. apply Hk. now apply Hinr.
Qed.

(** Hanging a node of key [K] where the descent for [K] ends keeps the
    ordering. *)
Lemma avl_bst_ins_shape (t : shape) :
  forall (h h' : gmap nat AVLnode) p K b nb,
    AvlTree.tree_at h p t -> AvlTree.bst h t ->
    h' !! b = Some nb -> K_ nb = K ->
    (forall x n, x ∈ addrs t -> h !! x = Some n ->
       exists n', h' !! x = Some n' /\ K_ n' = K_ n) ->
    AvlTree.bst h' (ins_shape h K b t).
Proof.
  induction t as [|l IHl a r IHr]; intros h h' p K b nb Ht Hb Hnb HK Hk.
  - simpl. repeat split; intros n x nx _ Hx; now apply elem_of_nil in Hx.
  - simpl in Ht, Hb. destruct Ht as [-> (n & Hn & Hl & Hr)].
    destruct Hb as (Bl & Br & Hbl & Hbr).
    assert (Hinl : forall x, x ∈ addrs l -> x ∈ addrs (Node l a r)).
    { intros x Hx. simpl. apply elem_of_app. now left. }
    assert (Hinr : forall x, x ∈ addrs r -> x ∈ addrs (Node l a r)).
    { intros x Hx. simpl. apply elem_of_app. right.
      apply elem_of_cons. now right. }
    assert (Hina : a ∈ addrs (Node l a r)).
    { simpl. apply elem_of_app. right. apply elem_of_cons. now left. }
    destruct (Hk a n Hina Hn) as (n' & Hn' & Kn').
    assert (Hold : forall s q x nx, AvlTree.tree_at h q s ->
              (forall y, y ∈ addrs s -> y ∈ addrs (Node l a r)) ->
              x ∈ addrs s -> h' !! x = Some nx ->
              exists ox, h !! x = Some ox /\ K_ nx = K_ ox).
    { intros s q x nx Hs Hin Hx Hnx.
      destruct (avl_tree_at_allocated s h q x Hs Hx) as [ox Hox].
      destruct (Hk x ox (Hin x Hx) Hox) as (nx' & Hnx' & Kx').
      rewrite Hnx' in Hnx. injection Hnx as <-. eauto. }
    cbn [ins_shape]. rewrite Hn.
    destruct (Z.ltb_spec K (K_ n)) as [Hlt|Hge]; simpl.
    + split; [|split; [|split]].
      * intros n0 x nx Hn0 Hx Hnx. rewrite Hn' in Hn0. injection Hn0 as <-.
        rewrite (addrs_ins_shape l h _ K b Hl) in Hx.
        apply elem_of_cons in Hx as [->|Hx].
        -- rewrite Hnb in Hnx. injection Hnx as <-. lia.
        -- destruct (Hold l _ x nx Hl Hinl Hx Hnx) as (ox & Hox & Kx).
           rewrite Kn', Kx. now apply (Bl n x ox).
      * intros n0 x nx Hn0 Hx Hnx. rewrite Hn' in Hn0. injection Hn0 as <-.
        destruct (Hold r _ x nx Hr Hinr Hx Hnx) as (ox & Hox & Kx).
        rewrite Kn', Kx. now apply (Br n x ox).
      * apply (IHl h h' _ K b nb Hl Hbl Hnb HK).
        intros x nx Hx. apply Hk. now apply Hinl.
      * apply (avl_bst_keys_agree r h h' _ Hr Hbr).
        intros x nx Hx. apply Hk. now apply Hinr.
    + split; [|split; [|split]].
      * intros n0 x nx Hn0 Hx Hnx. rewrite Hn' in Hn0. injection Hn0 as <-.
        destruct (Hold l _ x nx Hl Hinl Hx Hnx) as (ox & Hox & Kx).
        rewrite Kn', Kx. now apply (Bl n x ox).
      * intros n0 x nx Hn0 Hx Hnx. rewrite Hn' in Hn0. injection Hn0 as <-.
        rewrite (addrs_ins_shape r h _ K b Hr) in Hx.
        apply elem_of_cons in Hx as [->|Hx].
        -- rewrite Hnb in Hnx. injection Hnx as <-. lia.
        -- destruct (Hold r _ x nx Hr Hinr Hx Hnx) as (ox & Hox & Kx).
           rewrite Kn', Kx. now apply (Br n x ox).
      * apply (avl_bst_keys_agree l h h' _ Hl Hbl).
        intros x nx Hx. apply Hk. now apply Hinl.
      * apply (IHr h h' _ K b nb Hr Hbr Hnb HK).
        intros x nx Hx. apply Hk. now apply Hinr.
Qed.

(** [insert] on a non-empty search tree, in one statement: the result and
    the tree the new heap holds. *)
Lemma insert_search_tree (h : gmap nat AVLnode) a t K V fuel :
  AvlTree.tree_at h (Some a) t -> NoDup (addrs t) -> AvlTree.bst h t ->
  (depth t <= fuel)%nat ->
  exists h' t',
    Avl.insert fuel h (Some a) K V = Ok (h', Some a) /\
    AvlTree.tree_at h' (Some a) t' /\ AvlTree.bst h' t' /\
    (depth t' <= S (depth t))%nat /\
    addrs t' ≡ₚ fresh (dom h) :: addrs t /\
    h !! fresh (dom h) = None /\
    h' !! fresh (dom h)
      = Some (mkAVLnode K V None None (Some (fresh (dom h))) false 0) /\
    (forall x n, x ∈ addrs t -> h !! x = Some n ->
       exists n', h' !! x = Some n' /\ same_payload n n').
Proof.
  intros Ht Hnd Hb Hf.
  destruct (insert_without_rebalancing_shape t h a K V fuel Ht Hnd Hf)
    as (h' & E & Ht' & Hb' & Hfr & Hpay).
  exists h', (ins_shape h K (fresh (dom h)) t).
  split; [unfold Avl.insert; cbn [is_null]; now rewrite E|].
  split; [exact Ht'|]. split.
  { apply (avl_bst_ins_shape t h h' (Some a) K _ _ Ht Hb Hb' eq_refl).
    intros x n Hx Hn. destruct (Hpay x n Hx Hn) as (n' & Hn' & Hs).
    exists n'. split; [exact Hn'|apply Hs]. }
  split; [apply depth_ins_shape|].
  split; [now apply (addrs_ins_shape t h (Some a))|].
  split; [apply not_elem_of_dom, is_fresh|].
  split; [exact Hb'|exact Hpay].
Qed.

(** Inversion of a successful run. *)
Lemma bind_Ok_inv {A B : Type} (m : outcome A) (f : A -> outcome B) b :
  m ≫= f = Ok b -> exists a, m = Ok a /\ f a = Ok b.
Proof. destruct m; cbn; try discriminate. eauto. Qed.






End AvlInsertFacts.

(** * Further properties of avl.cpp *)

(** X1.  [insert] into a non-empty search tree keeps it a search tree: the
    heap then holds, below the same root, a tree of the ordering
    left <= node <= right whose nodes are the old ones and one fresh leaf
    of key [K] and value [V]; the old nodes keep key, value, parent link,
    heavy flag and height annotation. *)
Theorem insert_keeps_search_tree (h : gmap nat AVLnode) (a : nat) (t : shape)
    (K : Z) (V : string) :
  AvlTree.tree_at h (Some a) t -> NoDup (addrs t) -> AvlTree.bst h t ->
  exists fuel0, forall fuel, (fuel0 <= fuel)%nat ->
    exists h' t' b,
      Avl.insert fuel h (Some a) K V = Ok (h', Some a) /\
      h !! b = None /\
      AvlTree.tree_at h' (Some a) t' /\ AvlTree.bst h' t' /\
      NoDup (addrs t') /\ addrs t' ≡ₚ b :: addrs t /\
      (exists nb, h' !! b = Some nb /\ K_ nb = K /\ V_ nb = V /\
                  left_ nb = None /\ right_ nb = None) /\
      (forall x n, x ∈ addrs t -> h !! x = Some n ->
         exists n', h' !! x = Some n' /\ same_payload n n').
Proof.
  intros Ht Hnd Hb. exists (depth t). intros fuel Hf.
  destruct (AvlInsertFacts.insert_search_tree h a t K V fuel Ht Hnd Hb Hf)
    as (h' & t' & E & Ht' & Hb' & _ & Hperm & Hfresh & Hnew & Hpay).
  exists h', t', (fresh (dom h)).
  split; [exact E|]. split; [exact Hfresh|]. split; [exact Ht'|].
  split; [exact Hb'|]. split; [|split; [exact Hperm|split; [|exact Hpay]]].
  - rewrite Hperm. apply NoDup_cons. split; [|exact Hnd].
    intros Hin.
    destruct (AvlInsertFacts.avl_tree_at_allocated t h _ _ Ht Hin) as [y Hy].
    congruence.
  - eexists. split; [exact Hnew|]. repeat split.
Qed.

Lemma shape3_NoDup : NoDup (addrs shape3).
Proof. apply (bool_decide_unpack _). vm_compute. exact Logic.I. Defined.

Lemma insert_keeps_search_tree_witness :
  exists fuel0, forall fuel, (fuel0 <= fuel)%nat ->
    exists h' t' b,
      Avl.insert fuel avl3 (Some 1%nat) 4 "d" = Ok (h', Some 1%nat) /\
      avl3 !! b = None /\
      AvlTree.tree_at h' (Some 1%nat) t' /\ AvlTree.bst h' t' /\
      NoDup (addrs t') /\ addrs t' ≡ₚ b :: addrs shape3 /\
      (exists nb, h' !! b = Some nb /\ K_ nb = 4 /\ V_ nb = "d"%string /\
                  left_ nb = None /\ right_ nb = None) /\
      (forall x n, x ∈ addrs shape3 -> avl3 !! x = Some n ->
         exists n', h' !! x = Some n' /\ same_payload n n').
Proof.
  apply (insert_keeps_search_tree avl3 1%nat shape3 4 "d"
           avl3_tree shape3_NoDup avl3_bst).
Defined.

(** X2.  Lookup after insertion: once [insert(root, K, V)] has returned,
    [find(root, K)] returns a node of key [K], and every key that [find]
    located before the insertion is still located. *)
Theorem insert_then_find (h : gmap nat AVLnode) (a : nat) (t : shape)
    (K : Z) (V : string) :
  AvlTree.tree_at h (Some a) t -> NoDup (addrs t) -> AvlTree.bst h t ->
  exists fuel0, forall fuel, (fuel0 <= fuel)%nat ->
    exists h',
      Avl.insert fuel h (Some a) K V = Ok (h', Some a) /\
      (exists x nx, Avl.find fuel h' (Some a) K = Ok (Some x) /\
                    h' !! x = Some nx /\ K_ nx = K) /\
      (forall K0 x0, Avl.find fuel h (Some a) K0 = Ok (Some x0) ->
         exists x1 n1, Avl.find fuel h' (Some a) K0 = Ok (Some x1) /\
                       h' !! x1 = Some n1 /\ K_ n1 = K0).
Proof.
  intros Ht Hnd Hb. exists (S (depth t)). intros fuel Hf.
  destruct (AvlInsertFacts.insert_search_tree h a t K V fuel Ht Hnd Hb
              ltac:(lia))
    as (h' & t' & E & Ht' & Hb' & Hd' & Hperm & Hfresh & Hnew & Hpay).
  exists h'. split; [exact E|].
  assert (Hfound : forall K0 y ny, y ∈ addrs t' -> h' !! y = Some ny ->
            K_ ny = K0 ->
            exists x1 n1, Avl.find fuel h' (Some a) K0 = Ok (Some x1) /\
                          h' !! x1 = Some n1 /\ K_ n1 = K0).
  { intros K0 y ny Hy Hny HK.
    destruct (AvlFacts.avl_find_descent t' h' (Some a) K0 fuel Ht' Hb'
                ltac:(lia)) as (r & Er & P).
    destruct r as [x1|].
    - destruct P as (_ & n1 & Hn1 & H1 & H2). exists x1, n1.
      split; [exact Er|]. split; [exact Hn1|lia].
    - destruct (P y ny Hy Hny); lia. }
  split.
  - eapply (Hfound K (fresh (dom h))); [|exact Hnew|reflexivity].
    rewrite Hperm. apply elem_of_cons. now left.
  - intros K0 x0 E0.
    destruct (AvlFacts.avl_find_descent t h (Some a) K0 fuel Ht Hb
                ltac:(lia)) as (r & Er & P).
    rewrite E0 in Er. injection Er as <-.
    destruct P as (Hin & n0 & Hn0 & H1 & H2).
    destruct (Hpay x0 n0 Hin Hn0) as (n' & Hn' & HK & _).
    apply (Hfound K0 x0 n'); [|exact Hn'|lia].
    rewrite Hperm. apply elem_of_cons. now right.
Qed.

Lemma insert_then_find_witness :
  exists fuel0, forall fuel, (fuel0 <= fuel)%nat ->
    exists h',
      Avl.insert fuel avl3 (Some 1%nat) 4 "d" = Ok (h', Some 1%nat) /\
      (exists x nx, Avl.find fuel h' (Some 1%nat) 4 = Ok (Some x) /\
                    h' !! x = Some nx /\ K_ nx = 4) /\
      (forall K0 x0, Avl.find fuel avl3 (Some 1%nat) K0 = Ok (Some x0) ->
         exists x1 n1, Avl.find fuel h' (Some 1%nat) K0 = Ok (Some x1) /\
                       h' !! x1 = Some n1 /\ K_ n1 = K0).
Proof.
  apply (insert_then_find avl3 1%nat shape3 4 "d"
           avl3_tree shape3_NoDup avl3_bst).
Defined.

(** X3.  The first insertion: [insert(nullptr, K, V)] allocates one cell and
    leaves every other cell alone; the one-node tree it returns passes
    [verify], has height 0, and [find] locates [K] in it. *)
Theorem insert_into_empty_tree_verifies (fuel fuel' : nat)
    (h : gmap nat AVLnode) (K : Z) (V : string) :
  exists h' b,
    Avl.insert fuel h None K V = Ok (h', Some b) /\
    h !! b = None /\ (forall x, x <> b -> h' !! x = h !! x) /\
    Avl.verify fuel' h' (Some b) = Ok tt /\
    Avl.height fuel' h' (Some b) = Ok 0 /\
    Avl.find (S fuel') h' (Some b) K = Ok (Some b).
Proof.
  exists (<[fresh (dom h) := new_AVLnode K V]> h), (fresh (dom h)).
  split; [reflexivity|].
  split; [apply not_elem_of_dom, is_fresh|].
  split; [intros x Hx; now rewrite lookup_insert_ne|].
  assert (Hheight : Avl.height fuel' (<[fresh (dom h) := new_AVLnode K V]> h)
                      (Some (fresh (dom h))) = Ok 0).
  { unfold Avl.height. cbn [is_null].
    assert (Hloop : Avl.height_loop fuel'
                      (<[fresh (dom h) := new_AVLnode K V]> h)
                      (Some (fresh (dom h))) 0 = Ok 0).
    { destruct fuel'; cbn [height_loop]; unfold Avl.load;
        rewrite lookup_insert_eq; reflexivity. }
    rewrite Hloop. cbn [mbind outcome_bind]. unfold Avl.load.
    rewrite lookup_insert_eq. reflexivity. }
  split; [|split; [exact Hheight|]].
  - unfold Avl.verify. cbn [is_null negb]. unfold Avl.load at 1.
    rewrite lookup_insert_eq. cbn [mbind outcome_bind]. rewrite Hheight.
    cbn [mbind outcome_bind].
    destruct fuel'; cbn [verify_inner is_null]; unfold Avl.load;
      rewrite lookup_insert_eq; reflexivity.
  - cbn [Avl.find]. unfold Avl.load. rewrite lookup_insert_eq.
    cbn [mbind outcome_bind new_AVLnode K_]. now rewrite Z.ltb_irrefl.
Qed.



(** * Search, bounds and counting in tmi_comparator.h *)

Module TmiSearchFacts.

Section Order.

Context {K : Type}.
Variable lt : K -> K -> bool.
Hypothesis lt_swo : strict_weak_order lt.

(** "Not less" is transitive in a strict weak order. *)
Lemma lt_neg_trans x y z :
  lt x y = false -> lt y z = false -> lt x z = false.
Proof.
  intros Hxy Hyz. destruct (lt x z) eqn:Hxz; [|reflexivity].
  destruct (lt y x) eqn:Hyx.
  - pose proof (swo_trans lt lt_swo y x z Hyx Hxz). congruence.
  - pose proof (TmiFacts.lt_equiv_l lt lt_swo x y z Hxz (conj Hxy Hyx)).
    congruence.
Qed.

End Order.

Section Engine.

Context {T : Type}.
Variable C : Comparator T.
Variable I : nat.
Hypothesis C_swo : strict_weak_order (m_comparator C).

Lemma lower_bound_loop_eq fuel (h : gmap nat (node T)) key curr ret :
  lower_bound_loop C I fuel h key curr ret
  = bound_loop C I (fun k => m_comparator C k key) fuel h curr ret.
Proof.
  revert curr ret. induction fuel as [|fuel IH]; intros curr ret; cbn.
  - reflexivity.
  - destruct curr as [c|]; cbn; [|reflexivity].
    destruct (h !! c) as [n|]; cbn; [|reflexivity].
    destruct (m_comparator C (key_of C n) key); cbn; apply IH.
Qed.

Lemma upper_bound_loop_eq fuel (h : gmap nat (node T)) key curr ret :
  upper_bound_loop C I fuel h key curr ret
  = bound_loop C I (fun k => negb (m_comparator C key k)) fuel h curr ret.
Proof.
  revert curr ret. induction fuel as [|fuel IH]; intros curr ret; cbn.
  - reflexivity.
  - destruct curr as [c|]; cbn; [|reflexivity].
    destruct (h !! c) as [n|]; cbn; [|reflexivity].
    destruct (m_comparator C key (key_of C n)); cbn; apply IH.
Qed.

(** The loop on a search tree, for a test [P] that holds on the keys up to
    some point of the ordering and fails from there on: it returns the
    first node in order on which [P] fails, or the [ret] it was given when
    [P] holds on the whole tree. *)
Lemma bound_loop_splits (P : key_type C -> bool) (t : shape) :
  (forall kx kn, P kn = false -> m_comparator C kx kn = false ->
                 P kx = false) ->
  (forall kx kn, P kn = true -> m_comparator C kn kx = false ->
                 P kx = true) ->
  forall (h : gmap nat (node T)) p fuel ret,
    TmiTree.tree_at I h p t -> TmiTree.bst C h t -> (depth t <= fuel)%nat ->
    exists r, bound_loop C I P fuel h p ret = Ok r /\
      ((exists a pre post, r = Some a /\ addrs t = pre ++ a :: post /\
          all_keys C h pre P /\
          all_keys C h (a :: post) (fun k => negb (P k))) \/
       (r = ret /\ all_keys C h (addrs t) P)).
Proof.
  intros Hup Hdown.
  induction t as [|l IHl a r IHr]; intros h p fuel ret Ht Hb Hd.
  - simpl in Ht. subst p. exists ret. split; [destruct fuel; reflexivity|].
    right. split; [reflexivity|]. intros x nx Hx.
    now apply elem_of_nil in Hx.
  - destruct Ht as [-> (n & Hn & Hl & Hr)].
    destruct Hb as (Bl & Br & Hbl & Hbr).
    destruct fuel as [|fuel]; [simpl in Hd; lia|]. simpl in Hd.
    cbn [bound_loop is_null negb].
    rewrite (TmiFacts.tmi_load_Some _ _ _ Hn). cbn [mbind outcome_bind].
    assert (Hright : P (key_of C n) = false ->
              all_keys C h (a :: addrs r) (fun k => negb (P k))).
    { intros HP x nx Hx Hnx. apply negb_true_iff.
      apply elem_of_cons in Hx as [->|Hx].
      - rewrite Hn in Hnx. now injection Hnx as <-.
      - apply (Hup _ (key_of C n) HP). now apply (Br n x nx). }
    assert (Hleft : P (key_of C n) = true ->
              all_keys C h (addrs l ++ [a]) P).
    { intros HP x nx Hx Hnx.
      apply elem_of_app in Hx as [Hx|Hx].
      - apply (Hdown _ (key_of C n) HP). now apply (Bl n x nx).
      - apply list_elem_of_singleton in Hx as ->.
        rewrite Hn in Hnx. now injection Hnx as <-. }
    destruct (P (key_of C n)) eqn:HP; cbn [negb].
    + destruct (IHr h _ fuel ret Hr Hbr ltac:(lia)) as (res & E & Hres).
      exists res. split; [exact E|].
      destruct Hres
        as [(a' & pre & post & -> & Hsplit & Hpre & Hpost)|[-> Hall]].
      * left. exists a', (addrs l ++ a :: pre), post.
        split; [reflexivity|]. split.
        { simpl. rewrite Hsplit. now rewrite <- app_assoc. }
        split; [|exact Hpost].
        intros x nx Hx Hnx. apply elem_of_app in Hx as [Hx|Hx].
        -- apply (Hleft eq_refl x nx); [|exact Hnx].
           apply elem_of_app. now left.
        -- apply elem_of_cons in Hx as [->|Hx].
           ++ apply (Hleft eq_refl a nx); [|exact Hnx].
              apply elem_of_app. right. now apply list_elem_of_singleton.
           ++ now apply (Hpre x nx).
      * right. split; [reflexivity|].
        intros x nx Hx Hnx. simpl in Hx.
        apply elem_of_app in Hx as [Hx|Hx].
        -- apply (Hleft eq_refl x nx); [|exact Hnx].
           apply elem_of_app. now left.
        -- apply elem_of_cons in Hx as [->|Hx].
           ++ apply (Hleft eq_refl a nx); [|exact Hnx].
              apply elem_of_app. right. now apply list_elem_of_singleton.
           ++ now apply (Hall x nx).
    + destruct (IHl h _ fuel (Some a) Hl Hbl ltac:(lia)) as (res & E & Hres).
      exists res. split; [exact E|]. left.
      destruct Hres
        as [(a' & pre & post & -> & Hsplit & Hpre & Hpost)|[-> Hall]].
      * exists a', pre, (post ++ a :: addrs r).
        split; [reflexivity|]. split.
        { simpl. rewrite Hsplit. now rewrite <- app_assoc. }
        split; [exact Hpre|].
        intros x nx Hx Hnx. rewrite app_comm_cons in Hx.
        apply elem_of_app in Hx as [Hx|Hx].
        -- now apply (Hpost x nx).
        -- now apply (Hright eq_refl x nx).
      * exists a, (addrs l), (addrs r).
        split; [reflexivity|]. split; [reflexivity|].
        split; [exact Hall|]. now apply Hright.
Qed.

(** [count_descend] is the descent of [find], with the counter bumped where
    [find] stops at a node. *)
Lemma count_descend_find fuel (h : gmap nat (node T)) key curr ret :
  count_descend C I fuel h key curr ret
  = (it ← find_loop C I fuel h key curr;
     Ok (if is_null (m_node it) then ret else size_t_incr ret, m_node it)).
Proof.
  revert curr. induction fuel as [|fuel IH]; intros curr; cbn.
  - destruct curr; reflexivity.
  - destruct curr as [c|]; cbn; [|reflexivity].
    destruct (h !! c) as [n|]; cbn; [|reflexivity].
    destruct (m_comparator C key (key_of C n)); [apply IH|].
    destruct (m_comparator C (key_of C n) key); [apply IH|reflexivity].
Qed.

End Engine.

End TmiSearchFacts.

(** * Links written by the engine of tmi_comparator.h *)

Module TmiLinkFacts.

Section Engine.

Context {T : Type}.
Variable C : Comparator T.
Variable I : nat.

Lemma tmi_load_Ok_inv (h : gmap nat (node T)) p n :
  Tmi.load h p = Ok n -> exists a, p = Some a /\ h !! a = Some n.
Proof.
  destruct p as [a|]; [|discriminate]. unfold Tmi.load.
  destruct (h !! a) as [n'|] eqn:E; [|discriminate].
  intros H. injection H as <-. eauto.
Qed.

Lemma store_Ok_inv (h h' : gmap nat (node T)) p f :
  Tmi.store I h p f = Ok h' ->
  exists a n, p = Some a /\ h !! a = Some n /\
              h' = <[a := upd_link I f n]> h.
Proof.
  unfold Tmi.store. intros H.
  apply AvlInsertFacts.bind_Ok_inv in H as (n & Hn & H).
  apply tmi_load_Ok_inv in Hn as (a & -> & Hn).
  injection H as <-. eauto.
Qed.

Lemma keeps_others_refl (h : gmap nat (node T)) : keeps_others I h h.
Proof. intros x n Hn. exists n. auto. Qed.

Lemma keeps_others_trans (h1 h2 h3 : gmap nat (node T)) :
  keeps_others I h1 h2 -> keeps_others I h2 h3 -> keeps_others I h1 h3.
Proof.
  intros H12 H23 x n Hn.
  destruct (H12 x n Hn) as (n2 & Hn2 & Hv2 & Hl2).
  destruct (H23 x n2 Hn2) as (n3 & Hn3 & Hv3 & Hl3).
  exists n3. split; [exact Hn3|]. split; [congruence|].
  intros J HJ. rewrite (Hl3 J HJ). now apply Hl2.
Qed.

(** A store of the engine writes link set [I] of one cell. *)
Lemma store_keeps_others (h h' : gmap nat (node T)) p f :
  Tmi.store I h p f = Ok h' -> keeps_others I h h'.
Proof.
  intros H. apply store_Ok_inv in H as (a & n & -> & Hn & ->).
  intros x nx Hx. destruct (decide (x = a)) as [->|Hne].
  - rewrite Hn in Hx. injection Hx as <-.
    exists (upd_link I f n). split; [apply lookup_insert_eq|].
    split; [reflexivity|]. intros J HJ. cbn.
    destruct (Nat.eqb_spec J I); [contradiction|reflexivity].
  - exists nx. rewrite lookup_insert_ne by congruence. auto.
Qed.

Lemma store_frame (h h' : gmap nat (node T)) p f x :
  Tmi.store I h p f = Ok h' -> Some x <> p -> h' !! x = h !! x.
Proof.
  intros H Hx. apply store_Ok_inv in H as (a & n & -> & Hn & ->).
  rewrite lookup_insert_ne; [reflexivity|congruence].
Qed.

Lemma store_links (h h' : gmap nat (node T)) a f :
  Tmi.store I h (Some a) f = Ok h' ->
  exists n n', h !! a = Some n /\ h' !! a = Some n' /\
               links n' I = f (links n I).
Proof.
  intros H. apply store_Ok_inv in H as (a' & n & E & Hn & ->).
  injection E as <-. exists n, (upd_link I f n).
  split; [exact Hn|]. split; [apply lookup_insert_eq|].
  apply TmiFacts.links_upd_link.
Qed.

(** The loop of [tree_balance_after_insert] returns the node it was given. *)
Lemma balance_loop_returns_node fuel (h : gmap nat (node T)) root nd hi r :
  tree_balance_after_insert_loop I fuel h root nd hi = Ok r -> r = nd.
Proof.
  revert hi. induction fuel as [|fuel IH]; intros hi;
    cbn [tree_balance_after_insert_loop];
    destruct (negb (ptr_eqb nd root) && hi); try discriminate;
    try (intros H; now injection H).
  intros H.
  apply AvlInsertFacts.bind_Ok_inv in H as (p & _ & H).
  apply AvlInsertFacts.bind_Ok_inv in H as (bf & _ & H).
  apply AvlInsertFacts.bind_Ok_inv in H as (l & _ & H).
  destruct (ptr_eqb nd l).
  - destruct (INT_MAX <? bf + 1); [discriminate|].
    destruct (bf + 1 =? 0); [now apply (IH false)|].
    destruct (bf + 1 =? 1); now apply (IH hi).
  - now apply (IH hi).
Qed.



(** The descent of [preinsert_node], when it reports no conflict, ends at a
    child link that is null, on the side of its node where the key
    belongs. *)
Lemma preinsert_loop_slot fuel :
  forall (h : gmap nat (node T)) key parent curr il hints hints',
    slot_at C I h key parent il curr ->
    preinsert_loop C I fuel h key parent curr il hints = Ok (None, hints') ->
    slot_at C I h key (m_parent hints') (m_inserted_left hints') None /\
    (m_parent hints' = None -> parent = None /\ curr = None).
Proof.
  induction fuel as [|fuel IH]; intros h key parent curr il hints hints' Hs H;
    cbn [preinsert_loop] in H; destruct curr as [c|]; cbn [is_null negb] in H;
    try discriminate H;
    try (injection H as <-; cbn; now split).
  apply AvlInsertFacts.bind_Ok_inv in H as (n & Hn & H).
  apply tmi_load_Ok_inv in Hn as (c' & E & Hn). injection E as <-.
  assert (Hgo : forall il',
            il' = m_comparator C key (key_of C n) ->
            preinsert_loop C I fuel h key (Some c)
              (if il' then l_left (links n I) else l_right (links n I))
              il' hints = Ok (None, hints') ->
            slot_at C I h key (m_parent hints') (m_inserted_left hints') None /\
            (m_parent hints' = None -> parent = None /\ Some c = None)).
  { intros il' Hil Hrun.
    destruct (IH h key (Some c)
                (if il' then l_left (links n I) else l_right (links n I))
                il' hints hints') as [Hslot Hnone];
      [|exact Hrun|].
    - exists n. auto.
    - split; [exact Hslot|]. intros Hp. now destruct (Hnone Hp). }
  destruct (sorted_unique C);
    destruct (m_comparator C key (key_of C n)) eqn:E1.
  - now apply (Hgo true).
  - destruct (m_comparator C (key_of C n) key); [|discriminate H].
    now apply (Hgo false).
  - now apply (Hgo true).
  - now apply (Hgo false).
Qed.

(** Where [preinsert_node] reports no conflict, [insert_node_direct] takes
    the same descent. *)
Lemma insert_direct_loop_preinsert fuel :
  forall (h : gmap nat (node T)) key parent curr il hints hints',
    preinsert_loop C I fuel h key parent curr il hints = Ok (None, hints') ->
    insert_direct_loop C I fuel h key parent curr il
      = Ok (m_parent hints', m_inserted_left hints').
Proof.
  induction fuel as [|fuel IH]; intros h key parent curr il hints hints' H;
    cbn [preinsert_loop] in H; cbn [insert_direct_loop];
    destruct curr as [c|]; cbn [is_null negb] in *;
    try discriminate H;
    try (injection H as <-; reflexivity).
  apply AvlInsertFacts.bind_Ok_inv in H as (n & Hn & H). rewrite Hn.
  cbn [mbind outcome_bind].
  destruct (sorted_unique C);
    destruct (m_comparator C key (key_of C n)) eqn:E1.
  - now apply (IH h key (Some c) _ true hints).
  - destruct (m_comparator C (key_of C n) key); [|discriminate H].
    now apply (IH h key (Some c) _ false hints).
  - now apply (IH h key (Some c) _ true hints).
  - now apply (IH h key (Some c) _ false hints).
Qed.

(** The writes of [insert_node]. *)
Lemma insert_node_writes fuel (h h' : gmap nat (node T)) m_root nd r hints :
  insert_node I fuel h m_root nd hints = Ok (h', r) ->
  r = nd /\
  (forall x, Some x <> nd -> Some x <> m_parent hints -> h' !! x = h !! x) /\
  keeps_others I h h' /\
  exists n', Tmi.load h' nd = Ok n' /\
    l_parent (links n' I) = m_parent hints /\ l_bf (links n' I) = 0.
Proof.
  unfold insert_node, set_left, set_right, set_bf, set_parent. intros H.
  apply AvlInsertFacts.bind_Ok_inv in H as (h1 & S1 & H).
  apply AvlInsertFacts.bind_Ok_inv in H as (h2 & S2 & H).
  apply AvlInsertFacts.bind_Ok_inv in H as (h3 & S3 & H).
  apply AvlInsertFacts.bind_Ok_inv in H as (h4 & S4 & H).
  assert (Hnd : exists a, nd = Some a).
  { apply store_Ok_inv in S1 as (a & _ & -> & _). eauto. }
  destruct Hnd as (a & ->).
  assert (K4 : keeps_others I h h4).
  { repeat (eapply keeps_others_trans;
            [eapply store_keeps_others; eassumption|]).
    apply keeps_others_refl. }
  assert (F4 : forall x, Some x <> Some a -> h4 !! x = h !! x).
  { intros x Hx.
    rewrite (store_frame _ _ _ _ x S4 Hx).
    rewrite (store_frame _ _ _ _ x S3 Hx).
    rewrite (store_frame _ _ _ _ x S2 Hx).
    apply (store_frame _ _ _ _ x S1 Hx). }
  assert (L4 : exists n4, h4 !! a = Some n4 /\
                 l_parent (links n4 I) = m_parent hints /\
                 l_bf (links n4 I) = 0).
  { apply store_links in S3 as (n3 & n3' & _ & Hn3' & E3).
    apply store_links in S4 as (n4 & n4' & Hn4 & Hn4' & E4).
    rewrite Hn3' in Hn4. injection Hn4 as <-.
    exists n4'. split; [exact Hn4'|]. rewrite E4, E3. split; reflexivity. }
  destruct (m_parent hints) as [p|] eqn:Hp; cbn [is_null] in H.
  - apply AvlInsertFacts.bind_Ok_inv in H as (h5 & S5 & H).
    apply AvlInsertFacts.bind_Ok_inv in H as (r0 & Hb & H).
    injection H as <- <-.
    apply balance_loop_returns_node in Hb. subst r0.
    assert (S5' : exists f, Tmi.store I h4 (Some p) f = Ok h5 /\
                   forall l, l_parent (f l) = l_parent l /\
                             l_bf (f l) = l_bf l).
    { destruct (m_inserted_left hints); eexists; (split; [exact S5|]);
        intros l; split; reflexivity. }
    destruct S5' as (f & S5' & Hf).
    split; [reflexivity|]. split; [|split].
    + intros x Hx Hxp.
      rewrite (store_frame _ _ _ _ x S5' Hxp). now apply F4.
    + eapply keeps_others_trans; [exact K4|].
      eapply store_keeps_others. exact S5'.
    + destruct L4 as (n4 & Hn4 & Hpar & Hbf).
      destruct (decide (a = p)) as [<-|Hne].
      * apply store_links in S5' as (m & m' & Hm & Hm' & E5).
        rewrite Hn4 in Hm. injection Hm as <-.
        exists m'. split; [unfold Tmi.load; now rewrite Hm'|].
        rewrite E5. destruct (Hf (links n4 I)) as [-> ->]. auto.
      * exists n4. split; [|auto]. unfold Tmi.load.
        rewrite (store_frame _ _ _ _ a S5'); [|congruence].
        now rewrite Hn4.
  - injection H as <- <-.
    split; [reflexivity|]. split; [|split; [exact K4|]].
    + intros x Hx _. now apply F4.
    + destruct L4 as (n4 & Hn4 & Hpar & Hbf).
      exists n4. split; [unfold Tmi.load; now rewrite Hn4|auto].
Qed.

(** Where [preinsert_node] reports no conflict, [insert_node_direct] is
    [insert_node] with the hints it wrote. *)
Lemma insert_node_direct_eq fuel (h : gmap nat (node T)) m_root nd
    hints hints' :
  preinsert_node C I fuel h m_root nd hints = Ok (None, hints') ->
  insert_node_direct C I fuel h m_root nd
  = insert_node I fuel h m_root nd hints'.
Proof.
  unfold preinsert_node, insert_node_direct, insert_node. intros H.
  apply AvlInsertFacts.bind_Ok_inv in H as (n & Hn & H). rewrite Hn.
  cbn [mbind outcome_bind].
  rewrite (insert_direct_loop_preinsert fuel h _ _ _ _ _ _ H).
  cbn [mbind outcome_bind].
  destruct hints' as [[p|] il]; cbn [m_parent m_inserted_left is_null negb];
    reflexivity.
Qed.

End Engine.

End TmiLinkFacts.

(** * Further properties of tmi_comparator.h *)

(** X5.  [lower_bound(key)] on a search tree returns the first element, in
    the in-order sequence of the tree, whose key is not less than [key]:
    every key before the cursor is less than [key], the key at the cursor
    and every key after it is not; when every key is less the cursor is
    the end. *)
Theorem lower_bound_first_not_less {T : Type} (C : Comparator T) (I : nat)
    (h : gmap nat (node T)) (m_root : ptr) (t : shape) (key : key_type C) :
  strict_weak_order (m_comparator C) ->
  TmiTree.tree_at I h m_root t -> TmiTree.bst C h t ->
  exists fuel0, forall fuel, (fuel0 <= fuel)%nat ->
    exists it,
      lower_bound C I fuel h m_root key = Ok it /\
      splits_at C h t (fun k => m_comparator C k key) it.
Proof.
  intros Hswo Ht Hb. exists (depth t). intros fuel Hf.
  destruct (TmiSearchFacts.bound_loop_splits C I
              (fun k => m_comparator C k key) t) with
    (h := h) (p := m_root) (fuel := fuel) (ret := @None nat)
    as (r & E & Hr); try assumption.
  - intros kx kn H1 H2.
    apply (TmiSearchFacts.lt_neg_trans _ Hswo kx kn key H2 H1).
  - intros kx kn H1 H2. destruct (m_comparator C kx key) eqn:E; [easy|].
    pose proof (TmiSearchFacts.lt_neg_trans _ Hswo kn kx key H2 E).
    congruence.
  - unfold lower_bound.
    rewrite (TmiSearchFacts.lower_bound_loop_eq C I), E.
    cbn [mbind outcome_bind].
    destruct Hr as [(a & pre & post & -> & Hsplit)|[-> Hall]]; cbn.
    + eexists. split; [reflexivity|]. unfold splits_at. cbn. eauto.
    + eexists. split; [reflexivity|]. exact Hall.
Qed.

Lemma lower_bound_first_not_less_witness :
  exists fuel0, forall fuel, (fuel0 <= fuel)%nat ->
    exists it,
      lower_bound int_index 0 fuel (balanced3 5) (Some 1%nat) 4 = Ok it /\
      splits_at int_index (balanced3 5) shape3
        (fun k => m_comparator int_index k 4) it.
Proof.
  apply (lower_bound_first_not_less int_index 0%nat (balanced3 5)
           (Some 1%nat) shape3 4 int_index_swo balanced3_tree balanced3_bst).
Defined.

(** X6.  [upper_bound(key)] on a search tree returns the first element in
    order whose key is greater than [key]: [key] is less than no key
    before the cursor, and less than the key at the cursor and every key
    after it; when [key] is less than no key the cursor is the end. *)
Theorem upper_bound_first_greater {T : Type} (C : Comparator T) (I : nat)
    (h : gmap nat (node T)) (m_root : ptr) (t : shape) (key : key_type C) :
  strict_weak_order (m_comparator C) ->
  TmiTree.tree_at I h m_root t -> TmiTree.bst C h t ->
  exists fuel0, forall fuel, (fuel0 <= fuel)%nat ->
    exists it,
      upper_bound C I fuel h m_root key = Ok it /\
      splits_at C h t (fun k => negb (m_comparator C key k)) it.
Proof.
  intros Hswo Ht Hb. exists (depth t). intros fuel Hf.
  destruct (TmiSearchFacts.bound_loop_splits C I
              (fun k => negb (m_comparator C key k)) t) with
    (h := h) (p := m_root) (fuel := fuel) (ret := @None nat)
    as (r & E & Hr); try assumption.
  - intros kx kn H1 H2. apply negb_false_iff in H1. apply negb_false_iff.
    destruct (m_comparator C key kx) eqn:E; [easy|].
    pose proof (TmiSearchFacts.lt_neg_trans _ Hswo key kx kn E H2).
    congruence.
  - intros kx kn H1 H2. apply negb_true_iff in H1. apply negb_true_iff.
    apply (TmiSearchFacts.lt_neg_trans _ Hswo key kn kx H1 H2).
  - unfold upper_bound.
    rewrite (TmiSearchFacts.upper_bound_loop_eq C I), E.
    cbn [mbind outcome_bind].
    destruct Hr as [(a & pre & post & -> & Hsplit)|[-> Hall]]; cbn.
    + eexists. split; [reflexivity|]. unfold splits_at. cbn. eauto.
    + eexists. split; [reflexivity|]. exact Hall.
Qed.

Lemma upper_bound_first_greater_witness :
  exists fuel0, forall fuel, (fuel0 <= fuel)%nat ->
    exists it,
      upper_bound int_index 0 fuel (balanced3 5) (Some 1%nat) 5 = Ok it /\
      splits_at int_index (balanced3 5) shape3
        (fun k => negb (m_comparator int_index 5 k)) it.
Proof.
  apply (upper_bound_first_greater int_index 0%nat (balanced3 5)
           (Some 1%nat) shape3 5 int_index_swo balanced3_tree balanced3_bst).
Defined.

(** X7.  [count(key)] on a sorted-unique index over a search tree is 1 when
    the tree holds a key equivalent to [key] and 0 when it holds none. *)
Theorem count_on_unique_index {T : Type} (C : Comparator T) (I : nat)
    (h : gmap nat (node T)) (m_root : ptr) (t : shape) (key : key_type C) :
  sorted_unique C = true ->
  strict_weak_order (m_comparator C) ->
  TmiTree.tree_at I h m_root t -> TmiTree.bst C h t ->
  exists fuel0, forall fuel, (fuel0 <= fuel)%nat ->
    exists n,
      count C I fuel h m_root key = Ok n /\
      (TmiTree.has_key C h t key -> n = 1) /\
      (~ TmiTree.has_key C h t key -> n = 0).
Proof.
  intros Hu Hswo Ht Hb. exists (depth t). intros fuel Hf.
  destruct (TmiFacts.tmi_find_descent C I Hswo t h m_root key fuel Ht Hb Hf)
    as (r & E & P).
  unfold count. rewrite (TmiSearchFacts.count_descend_find C I), E, Hu.
  destruct r as [a|]; cbn.
  - exists 1. split; [reflexivity|]. split; [reflexivity|].
    intros Hno. exfalso. apply Hno.
    destruct P as (Hin & n & Hn & He). now exists a, n.
  - exists 0. split; [reflexivity|]. split; [|reflexivity].
    intros Hk. now exfalso.
Qed.

Lemma count_on_unique_index_witness :
  exists fuel0, forall fuel, (fuel0 <= fuel)%nat ->
    exists n,
      count int_index 0 fuel (balanced3 5) (Some 1%nat) 8 = Ok n /\
      (TmiTree.has_key int_index (balanced3 5) shape3 8 -> n = 1) /\
      (~ TmiTree.has_key int_index (balanced3 5) shape3 8 -> n = 0).
Proof.
  apply (count_on_unique_index int_index 0%nat (balanced3 5) (Some 1%nat)
           shape3 8 eq_refl int_index_swo balanced3_tree balanced3_bst).
Defined.

(** X8.  Where [preinsert_node] reports no conflict, the insertion point it
    writes to the hints is free and on the right side: with no parent the
    tree is empty; otherwise the child link of the parent on the hinted
    side is null, and the side is the left one exactly when the
    candidate's key compares less than the parent's. *)
Theorem preinsert_node_finds_free_slot {T : Type} (C : Comparator T)
    (I fuel : nat) (h : gmap nat (node T)) (m_root nd : ptr)
    (hints hints' : insert_hints) :
  preinsert_node C I fuel h m_root nd hints = Ok (None, hints') ->
  exists n, Tmi.load h nd = Ok n /\
    slot_at C I h (key_of C n) (m_parent hints') (m_inserted_left hints')
      None /\
    (m_parent hints' = None -> m_root = None).
Proof.
  unfold preinsert_node. intros H.
  apply AvlInsertFacts.bind_Ok_inv in H as (n & Hn & H).
  exists n. split; [exact Hn|].
  destruct (TmiLinkFacts.preinsert_loop_slot C I fuel h (key_of C n) None
              m_root false hints hints' Logic.I H) as [Hslot Hnone].
  split; [exact Hslot|]. intros Hp. now destruct (Hnone Hp).
Qed.

Lemma preinsert_node_finds_free_slot_witness :
  exists n, Tmi.load two_cells (Some 1%nat) = Ok n /\
    slot_at int_index 0 two_cells (key_of int_index n)
      (m_parent (mkHints (Some 0%nat) false))
      (m_inserted_left (mkHints (Some 0%nat) false)) None /\
    (m_parent (mkHints (Some 0%nat) false) = None -> Some 0%nat = None).
Proof.
  apply (preinsert_node_finds_free_slot int_index 0%nat 10 two_cells
           (Some 0%nat) (Some 1%nat) no_hints (mkHints (Some 0%nat) false)).
  vm_compute. reflexivity.
Defined.





(** X11.  Whenever [tree_next] returns on a node that has a right child it
    returns [nullptr], and the increment of a cursor at such a node gives
    the end cursor: the elements of the right subtree are skipped. *)
Theorem successor_of_node_with_right_child {T : Type} (I fuel : nat)
    (h : gmap nat (node T)) (nd r : ptr) (c : nat) (it : iterator) :
  get_right I h nd = Ok (Some c) ->
  tree_next I fuel h nd = Ok r ->
  iterator_incr I fuel h (mkIterator nd) = Ok it ->
  r = None /\ it = end_.
Proof.
  intros Hr Hn Hi.
  assert (Hnull : r = None).
  { unfold tree_next in Hn.
    apply AvlInsertFacts.bind_Ok_inv in Hn as (_ & _ & Hn).
    rewrite Hr in Hn. cbn [mbind outcome_bind is_null negb] in Hn.
    now apply TmiFacts.tree_min_null in Hn. }
  split; [exact Hnull|]. subst r.
  unfold iterator_incr in Hi. cbn [m_node] in Hi. rewrite Hn in Hi.
  cbn in Hi. now injection Hi as <-.
Qed.

Lemma successor_of_node_with_right_child_witness :
  @None nat = None /\ mkIterator None = end_.
Proof.
  apply (successor_of_node_with_right_child 0 10 (balanced3 5) (Some 1%nat)
           None 3%nat (mkIterator None)); vm_compute; reflexivity.
Defined.

(** X12.  What [erase_if_modified] leaves behind.  When it returns false the
    heap and the root are the ones it got.  When it returns true the root
    of the index is [nullptr], the node's links and balance factor in index
    [I] are cleared, and no other cell is written: the node that pointed at
    it still does.  Either way values and the other indices' links are
    kept. *)
Theorem erase_if_modified_effect {T : Type} (C : Comparator T) (I fuel : nat)
    (h h' : gmap nat (node T)) (m_root nd r : ptr) (b : bool) :
  erase_if_modified C I fuel h m_root nd = Ok (h', r, b) ->
  keeps_others I h h' /\
  (b = false -> h' = h /\ r = m_root) /\
  (b = true ->
     r = None /\
     (forall x, Some x <> nd -> h' !! x = h !! x) /\
     exists n', Tmi.load h' nd = Ok n' /\
                links n' I = mkLink None None None 0).
Proof.
  unfold erase_if_modified, set_left, set_right, set_bf, set_parent.
  intros H.
  apply AvlInsertFacts.bind_Ok_inv in H as (mn & _ & H).
  apply AvlInsertFacts.bind_Ok_inv in H as (prev_ptr & _ & H).
  apply AvlInsertFacts.bind_Ok_inv in H as (mx & _ & H).
  apply AvlInsertFacts.bind_Ok_inv in H as (next_ptr & _ & H).
  apply AvlInsertFacts.bind_Ok_inv in H as (n & _ & H).
  apply AvlInsertFacts.bind_Ok_inv in H as (after_next & _ & H).
  apply AvlInsertFacts.bind_Ok_inv in H as (needs_resort & _ & H).
  destruct needs_resort.
  - apply AvlInsertFacts.bind_Ok_inv in H as (h1 & S1 & H).
    apply AvlInsertFacts.bind_Ok_inv in H as (h2 & S2 & H).
    apply AvlInsertFacts.bind_Ok_inv in H as (h3 & S3 & H).
    apply AvlInsertFacts.bind_Ok_inv in H as (h4 & S4 & H).
    injection H as <- <- <-.
    split; [|split; [discriminate|intros _; split; [reflexivity|split]]].
    + repeat (eapply TmiLinkFacts.keeps_others_trans;
              [eapply TmiLinkFacts.store_keeps_others; eassumption|]).
      apply TmiLinkFacts.keeps_others_refl.
    + intros x Hx.
      rewrite (TmiLinkFacts.store_frame I _ _ _ _ x S4 Hx).
      rewrite (TmiLinkFacts.store_frame I _ _ _ _ x S3 Hx).
      rewrite (TmiLinkFacts.store_frame I _ _ _ _ x S2 Hx).
      apply (TmiLinkFacts.store_frame I _ _ _ _ x S1 Hx).
    + assert (Hnd : exists a, nd = Some a).
      { apply TmiLinkFacts.store_Ok_inv in S1 as (a & _ & -> & _). eauto. }
      destruct Hnd as (a & ->).
      apply TmiLinkFacts.store_links in S1 as (n1 & n1' & _ & Hn1' & E1).
      apply TmiLinkFacts.store_links in S2 as (n2 & n2' & Hn2 & Hn2' & E2).
      apply TmiLinkFacts.store_links in S3 as (n3 & n3' & Hn3 & Hn3' & E3).
      apply TmiLinkFacts.store_links in S4 as (n4 & n4' & Hn4 & Hn4' & E4).
      rewrite Hn1' in Hn2. injection Hn2 as <-.
      rewrite Hn2' in Hn3. injection Hn3 as <-.
      rewrite Hn3' in Hn4. injection Hn4 as <-.
      exists n4'. split; [unfold Tmi.load; now rewrite Hn4'|].
      rewrite E4, E3, E2, E1. reflexivity.
  - injection H as <- <- <-.
    split; [apply TmiLinkFacts.keeps_others_refl|].
    split; [auto|discriminate].
Qed.

Lemma erase_if_modified_effect_witness :
  exists h',
    erase_if_modified int_index 0 10 (zigzag3 9) (Some 1%nat) (Some 3%nat)
      = Ok (h', None, true) /\
    (keeps_others 0 (zigzag3 9) h' /\
     (true = false -> h' = zigzag3 9 /\ @None nat = Some 1%nat) /\
     (true = true ->
        @None nat = None /\
        (forall x, Some x <> Some 3%nat -> h' !! x = zigzag3 9 !! x) /\
        exists n', Tmi.load h' (Some 3%nat) = Ok n' /\
                   links n' 0 = mkLink None None None 0)).
Proof.
  eexists. split; [vm_compute; reflexivity|].
  apply (erase_if_modified_effect int_index 0 10 (zigzag3 9) _ (Some 1%nat)
           (Some 3%nat) None true).
  vm_compute. reflexivity.
Defined.

(** X13.  [insert_node_direct] is the two-phase insertion in one call: where
    [preinsert_node] reports no conflict and writes the hints [hints'],
    [insert_node_direct] gives what [insert_node] gives with [hints']. *)
Theorem insert_node_direct_is_preinsert_then_insert {T : Type}
    (C : Comparator T) (I fuel : nat) (h : gmap nat (node T))
    (m_root nd : ptr) (hints hints' : insert_hints) :
  preinsert_node C I fuel h m_root nd hints = Ok (None, hints') ->
  insert_node_direct C I fuel h m_root nd
  = insert_node I fuel h m_root nd hints'.
Proof. apply TmiLinkFacts.insert_node_direct_eq. Qed.

Lemma insert_node_direct_is_preinsert_then_insert_witness :
  insert_node_direct int_index 0 10 two_cells (Some 0%nat) (Some 1%nat)
  = insert_node 0 10 two_cells (Some 0%nat) (Some 1%nat)
      (mkHints (Some 0%nat) false).
Proof.
  apply (insert_node_direct_is_preinsert_then_insert int_index 0%nat 10
           two_cells (Some 0%nat) (Some 1%nat) no_hints
           (mkHints (Some 0%nat) false)).
  vm_compute. reflexivity.
Defined.

(** X14.  Insertion into an empty index and lookup: on an index without
    root [insert_node_direct] returns with the node as the root, writes no
    other cell, keeps every value, and [find] with the node's key then
    returns a cursor at the node. *)
Theorem insert_into_empty_index_then_find {T : Type} (C : Comparator T)
    (I fuel fuel' : nat) (h : gmap nat (node T)) (a : nat) (n : node T) :
  (forall k, m_comparator C k k = false) ->
  h !! a = Some n ->
  exists h',
    insert_node_direct C I fuel h None (Some a) = Ok (h', Some a) /\
    (forall x, x <> a -> h' !! x = h !! x) /\
    keeps_others I h h' /\
    Tmi.find C I (S fuel') h' (Some a) (key_of C n)
      = Ok (make_iterator (Some a)).
Proof.
  intros Hirr Hn.
  assert (Hpre : preinsert_node C I fuel h None (Some a) no_hints
                 = Ok (None, mkHints None false)).
  { unfold preinsert_node. rewrite (TmiFacts.tmi_load_Some _ _ _ Hn).
    destruct fuel; reflexivity. }
  rewrite (TmiLinkFacts.insert_node_direct_eq C I fuel h None (Some a) _ _
             Hpre).
  assert (E : exists h', insert_node I fuel h None (Some a)
                           (mkHints None false) = Ok (h', Some a)).
  { unfold insert_node, set_left, set_right, set_bf, set_parent.
    rewrite (TmiFacts.store_Some I h a n _ Hn). cbn [mbind outcome_bind].
    do 3 (erewrite TmiFacts.store_Some by apply lookup_insert_eq;
          cbn [mbind outcome_bind]).
    cbn [m_parent is_null]. eauto. }
  destruct E as (h' & E). exists h'. split; [exact E|].
  destruct (TmiLinkFacts.insert_node_writes I fuel h h' None (Some a) _ _ E)
    as (_ & Hframe & Hkeep & _).
  split; [|split; [exact Hkeep|]].
  - intros x Hx. apply Hframe; cbn; congruence.
  - destruct (Hkeep a n Hn) as (n' & Hn' & Hv & _).
    cbn [Tmi.find find_loop is_null negb].
    rewrite (TmiFacts.tmi_load_Some _ _ _ Hn'). cbn [mbind outcome_bind].
    unfold key_of. rewrite Hv, Hirr. reflexivity.
Qed.

Lemma insert_into_empty_index_then_find_witness :
  exists h',
    insert_node_direct int_index 0 10 two_cells None (Some 1%nat)
      = Ok (h', Some 1%nat) /\
    (forall x, x <> 1%nat -> h' !! x = two_cells !! x) /\
    keeps_others 0 two_cells h' /\
    Tmi.find int_index 0 (S 10) h' (Some 1%nat)
      (key_of int_index (cell 2 None None None))
      = Ok (make_iterator (Some 1%nat)).
Proof.
  apply (insert_into_empty_index_then_find int_index 0%nat 10 10 two_cells
           1%nat (cell 2 None None None) Z.ltb_irrefl eq_refl).
Defined.

(** * Rotations in tmi_comparator.h *)

Module TmiRotationFacts.

Section Engine.

Context {T : Type}.
Variable C : Comparator T.
Variable I : nat.

(** A tree only depends on the child links at its own addresses. *)
Lemma tree_at_links_agree (t : shape) :
  forall (h h' : gmap nat (node T)) p,
    (forall x n, x ∈ addrs t -> h !! x = Some n ->
       exists n', h' !! x = Some n' /\ same_children I n n') ->
    TmiTree.tree_at I h p t -> TmiTree.tree_at I h' p t.
Proof.
  induction t as [|l IHl a r IHr]; intros h h' p Hag Ht; simpl in *.
  - exact Ht.
  - destruct Ht as [-> (n & Hn & Hl & Hr)]. split; [reflexivity|].
    destruct (Hag a n) as (n' & Hn' & El & Er & _); [|exact Hn|].
    { apply elem_of_app. right. apply elem_of_cons. now left. }
    exists n'. split; [exact Hn'|]. rewrite El, Er. split.
    + apply (IHl h); [|exact Hl]. intros x nx Hx. apply Hag.
      apply elem_of_app. now left.
    + apply (IHr h); [|exact Hr]. intros x nx Hx. apply Hag.
      apply elem_of_app. right. apply elem_of_cons. now right.
Qed.

(** The cells of a rotation: the two nodes and the root of the inner
    subtree are distinct, and no other node of the subtree is one of
    them. *)
Lemma rotation_cells (A B Cs : shape) (w v : nat) :
  NoDup (addrs (Node (Node A w B) v Cs)) ->
  v <> w /\
  (forall x, x ∈ addrs A -> x <> v /\ x <> w /\ x ∉ addrs B) /\
  (forall x, x ∈ addrs B -> x <> v /\ x <> w) /\
  (forall x, x ∈ addrs Cs -> x <> v /\ x <> w /\ x ∉ addrs B).
Proof.
  simpl. intros H.
  apply NoDup_app in H as (Hl & Hd & Hr).
  apply NoDup_cons in Hr as [HvC HC].
  apply NoDup_app in Hl as (HA & HdA & HwB).
  apply NoDup_cons in HwB as [HwB HB].
  assert (Hv : forall x, x ∈ addrs A ++ w :: addrs B -> x <> v).
  { intros x Hx ->. apply (Hd v Hx). apply elem_of_cons. now left. }
  assert (HxC : forall x, x ∈ addrs A ++ w :: addrs B -> x ∉ addrs Cs).
  { intros x Hx HC'. apply (Hd x Hx). apply elem_of_cons. now right. }
  split; [|split; [|split]].
  - intros ->. apply (Hv w); [|reflexivity].
    apply elem_of_app. right. apply elem_of_cons. now left.
  - intros x Hx. split; [|split].
    + apply Hv. apply elem_of_app. now left.
    + intros ->. apply (HdA w Hx). apply elem_of_cons. now left.
    + intros HB'. apply (HdA x Hx). apply elem_of_cons. now right.
  - intros x Hx. split.
    + apply Hv. apply elem_of_app. right. apply elem_of_cons. now right.
    + intros ->. contradiction.
  - intros x Hx. split; [|split].
    + intros ->. contradiction.
    + intros ->. apply (HxC w); [|exact Hx].
      apply elem_of_app. right. apply elem_of_cons. now left.
    + intros HB'. apply (HxC x); [|exact Hx].
      apply elem_of_app. right. apply elem_of_cons. now right.
Qed.


(** A store that leaves the child links and the balance factor alone. *)
Lemma store_same_children (h h' : gmap nat (node T)) p f :
  (forall l, l_left (f l) = l_left l /\ l_right (f l) = l_right l /\
             l_bf (f l) = l_bf l) ->
  Tmi.store I h p f = Ok h' ->
  forall x n, h !! x = Some n ->
    exists n', h' !! x = Some n' /\ same_children I n n'.
Proof.
  intros Hf H x nx Hx.
  apply (TmiLinkFacts.store_Ok_inv I) in H as (a & n & -> & Hn & ->).
  destruct (decide (x = a)) as [->|Hne].
  - rewrite Hn in Hx. injection Hx as <-.
    exists (upd_link I f n). split; [apply lookup_insert_eq|].
    unfold same_children. rewrite TmiFacts.links_upd_link. apply Hf.
  - exists nx. rewrite lookup_insert_ne by congruence.
    split; [exact Hx|]. repeat split.
Qed.

(** The cells after [rotate_right(v)], [w] being the left child of [v]:
    [w] gets [v] as its right child, [v] gets the former right child of
    [w] as its left child and [w] as its parent, that child gets [v] as
    its parent, and nothing else is written. *)
Lemma rotate_right_cells (h : gmap nat (node T)) v w nv nw :
  h !! v = Some nv -> l_left (links nv I) = Some w ->
  h !! w = Some nw -> v <> w ->
  (forall b, l_right (links nw I) = Some b ->
             b <> v /\ b <> w /\ is_Some (h !! b)) ->
  exists h' nv' nw',
    rotate_right I h (Some v) = Ok h' /\
    h' !! w = Some nw' /\
    links nw' I = mkLink (l_left (links nw I)) (Some v)
                    (l_parent (links nw I)) (l_bf (links nw I)) /\
    h' !! v = Some nv' /\
    links nv' I = mkLink (l_right (links nw I)) (l_right (links nv I))
                    (Some w) (l_bf (links nv I)) /\
    (forall x n, x <> v -> x <> w -> h !! x = Some n ->
       exists n', h' !! x = Some n' /\ same_children I n n') /\
    (forall x, x <> v -> x <> w -> Some x <> l_right (links nw I) ->
       h' !! x = h !! x) /\
    keeps_others I h h' /\
    (forall b, l_right (links nw I) = Some b ->
       exists nb', h' !! b = Some nb' /\ l_parent (links nb' I) = Some v).
Proof.
  intros Hv Hlw Hw Hvw HB.
  unfold rotate_right, get_left, get_right, set_right, set_parent, set_left.
  rewrite (TmiFacts.tmi_load_Some _ _ _ Hv). cbn [mbind outcome_bind].
  rewrite Hlw. cbn [assert is_null negb mbind outcome_bind].
  rewrite (TmiFacts.tmi_load_Some _ _ _ Hw). cbn [mbind outcome_bind].
  destruct (Tmi.store I h (Some w)
              (fun l => mkLink (l_left l) (Some v) (l_parent l) (l_bf l)))
    as [h1| | |] eqn:S1;
    [|rewrite (TmiFacts.store_Some I h w nw _ Hw) in S1; discriminate..].
  cbn [mbind outcome_bind].
  assert (H1v : h1 !! v = Some nv).
  { rewrite (TmiLinkFacts.store_frame I _ _ _ _ v S1); [exact Hv|congruence]. }
  destruct (Tmi.store I h1 (Some v)
              (fun l => mkLink (l_left l) (l_right l) (Some w) (l_bf l)))
    as [h2| | |] eqn:S2;
    [|rewrite (TmiFacts.store_Some I h1 v nv _ H1v) in S2; discriminate..].
  cbn [mbind outcome_bind].
  destruct (TmiLinkFacts.store_links I _ _ _ _ S2)
    as (m & nv2 & Hm & H2v & E2).
  rewrite H1v in Hm. injection Hm as <-.
  destruct (Tmi.store I h2 (Some v)
              (fun l => mkLink (l_right (links nw I)) (l_right l)
                          (l_parent l) (l_bf l)))
    as [h3| | |] eqn:S3;
    [|rewrite (TmiFacts.store_Some I h2 v nv2 _ H2v) in S3; discriminate..].
  cbn [mbind outcome_bind].
  destruct (TmiLinkFacts.store_links I _ _ _ _ S3)
    as (m & nv3 & Hm & H3v & E3).
  rewrite H2v in Hm. injection Hm as <-.
  destruct (TmiLinkFacts.store_links I _ _ _ _ S1)
    as (m & nw1 & Hm & H1w & E1).
  rewrite Hw in Hm. injection Hm as <-.
  assert (H3w : h3 !! w = Some nw1).
  { rewrite (TmiLinkFacts.store_frame I _ _ _ _ w S3) by congruence.
    rewrite (TmiLinkFacts.store_frame I _ _ _ _ w S2) by congruence.
    exact H1w. }
  assert (F3 : forall x, x <> v -> x <> w -> h3 !! x = h !! x).
  { intros x Hxv Hxw.
    rewrite (TmiLinkFacts.store_frame I _ _ _ _ x S3) by congruence.
    rewrite (TmiLinkFacts.store_frame I _ _ _ _ x S2) by congruence.
    apply (TmiLinkFacts.store_frame I _ _ _ _ x S1). congruence. }
  assert (K3 : keeps_others I h h3).
  { repeat (eapply TmiLinkFacts.keeps_others_trans;
            [eapply TmiLinkFacts.store_keeps_others; eassumption|]).
    apply TmiLinkFacts.keeps_others_refl. }
  assert (Ew : links nw1 I = mkLink (l_left (links nw I)) (Some v)
                               (l_parent (links nw I)) (l_bf (links nw I)))
    by exact E1.
  assert (Ev : links nv3 I = mkLink (l_right (links nw I))
                               (l_right (links nv I)) (Some w)
                               (l_bf (links nv I))).
  { rewrite E3, E2. reflexivity. }
  destruct (l_right (links nw I)) as [b|] eqn:Eb; cbn [is_null negb].
  - destruct (HB b eq_refl) as (Hbv & Hbw & [nb Hb]).
    assert (H3b : h3 !! b = Some nb) by (rewrite F3; auto).
    destruct (Tmi.store I h3 (Some b)
                (fun l => mkLink (l_left l) (l_right l) (Some v) (l_bf l)))
      as [h4| | |] eqn:S4;
      [|rewrite (TmiFacts.store_Some I h3 b nb _ H3b) in S4; discriminate..].
    exists h4, nv3, nw1. split; [reflexivity|].
    split; [|split; [exact Ew|split; [|split; [exact Ev|]]]].
    { rewrite (TmiLinkFacts.store_frame I _ _ _ _ w S4) by congruence.
      exact H3w. }
    { rewrite (TmiLinkFacts.store_frame I _ _ _ _ v S4) by congruence.
      exact H3v. }
    split; [|split; [|split]].
    + intros x n Hxv Hxw Hx.
      eapply (store_same_children h3 h4 (Some b)); [|exact S4|].
      * intros l. repeat split.
      * now rewrite F3.
    + intros x Hxv Hxw Hxb.
      rewrite (TmiLinkFacts.store_frame I _ _ _ _ x S4) by congruence.
      now apply F3.
    + eapply TmiLinkFacts.keeps_others_trans; [exact K3|].
      eapply TmiLinkFacts.store_keeps_others. exact S4.
    + intros b' Hb'. injection Hb' as <-.
      destruct (TmiLinkFacts.store_links I _ _ _ _ S4)
        as (m & nb' & _ & H4b & E4).
      exists nb'. split; [exact H4b|]. now rewrite E4.
  - exists h3, nv3, nw1. split; [reflexivity|].
    split; [exact H3w|]. split; [exact Ew|]. split; [exact H3v|].
    split; [exact Ev|]. split; [|split; [|split; [exact K3|]]].
    + intros x n Hxv Hxw Hx. exists n. rewrite F3 by assumption.
      split; [exact Hx|]. repeat split.
    + intros x Hxv Hxw _. now apply F3.
    + intros b' Hb'. discriminate.
Qed.


(** The cells after [rotate_left(w)], [v] being the right child of [w]: the
    mirror image. *)
Lemma rotate_left_cells (h : gmap nat (node T)) v w nv nw :
  h !! w = Some nw -> l_right (links nw I) = Some v ->
  h !! v = Some nv -> v <> w ->
  (forall b, l_left (links nv I) = Some b ->
             b <> v /\ b <> w /\ is_Some (h !! b)) ->
  exists h' nv' nw',
    rotate_left I h (Some w) = Ok h' /\
    h' !! v = Some nv' /\
    links nv' I = mkLink (Some w) (l_right (links nv I))
                    (l_parent (links nv I)) (l_bf (links nv I)) /\
    h' !! w = Some nw' /\
    links nw' I = mkLink (l_left (links nw I)) (l_left (links nv I))
                    (Some v) (l_bf (links nw I)) /\
    (forall x n, x <> v -> x <> w -> h !! x = Some n ->
       exists n', h' !! x = Some n' /\ same_children I n n') /\
    (forall x, x <> v -> x <> w -> Some x <> l_left (links nv I) ->
       h' !! x = h !! x) /\
    keeps_others I h h' /\
    (forall b, l_left (links nv I) = Some b ->
       exists nb', h' !! b = Some nb' /\ l_parent (links nb' I) = Some w).
Proof.
  intros Hw Hrv Hv Hvw HB.
  unfold rotate_left, get_left, get_right, set_right, set_parent, set_left.
  rewrite (TmiFacts.tmi_load_Some _ _ _ Hw). cbn [mbind outcome_bind].
  rewrite Hrv. cbn [assert is_null negb mbind outcome_bind].
  rewrite (TmiFacts.tmi_load_Some _ _ _ Hv). cbn [mbind outcome_bind].
  destruct (Tmi.store I h (Some v)
              (fun l => mkLink (Some w) (l_right l) (l_parent l) (l_bf l)))
    as [h1| | |] eqn:S1;
    [|rewrite (TmiFacts.store_Some I h v nv _ Hv) in S1; discriminate..].
  cbn [mbind outcome_bind].
  assert (H1w : h1 !! w = Some nw).
  { rewrite (TmiLinkFacts.store_frame I _ _ _ _ w S1); [exact Hw|congruence]. }
  destruct (Tmi.store I h1 (Some w)
              (fun l => mkLink (l_left l) (l_right l) (Some v) (l_bf l)))
    as [h2| | |] eqn:S2;
    [|rewrite (TmiFacts.store_Some I h1 w nw _ H1w) in S2; discriminate..].
  cbn [mbind outcome_bind].
  destruct (TmiLinkFacts.store_links I _ _ _ _ S2)
    as (m & nw2 & Hm & H2w & E2).
  rewrite H1w in Hm. injection Hm as <-.
  destruct (Tmi.store I h2 (Some w)
              (fun l => mkLink (l_left l) (l_left (links nv I))
                          (l_parent l) (l_bf l)))
    as [h3| | |] eqn:S3;
    [|rewrite (TmiFacts.store_Some I h2 w nw2 _ H2w) in S3; discriminate..].
  cbn [mbind outcome_bind].
  destruct (TmiLinkFacts.store_links I _ _ _ _ S3)
    as (m & nw3 & Hm & H3w & E3).
  rewrite H2w in Hm. injection Hm as <-.
  destruct (TmiLinkFacts.store_links I _ _ _ _ S1)
    as (m & nv1 & Hm & H1v & E1).
  rewrite Hv in Hm. injection Hm as <-.
  assert (H3v : h3 !! v = Some nv1).
  { rewrite (TmiLinkFacts.store_frame I _ _ _ _ v S3) by congruence.
    rewrite (TmiLinkFacts.store_frame I _ _ _ _ v S2) by congruence.
    exact H1v. }
  assert (F3 : forall x, x <> v -> x <> w -> h3 !! x = h !! x).
  { intros x Hxv Hxw.
    rewrite (TmiLinkFacts.store_frame I _ _ _ _ x S3) by congruence.
    rewrite (TmiLinkFacts.store_frame I _ _ _ _ x S2) by congruence.
    apply (TmiLinkFacts.store_frame I _ _ _ _ x S1). congruence. }
  assert (K3 : keeps_others I h h3).
  { repeat (eapply TmiLinkFacts.keeps_others_trans;
            [eapply TmiLinkFacts.store_keeps_others; eassumption|]).
    apply TmiLinkFacts.keeps_others_refl. }
  assert (Ev : links nv1 I = mkLink (Some w) (l_right (links nv I))
                               (l_parent (links nv I)) (l_bf (links nv I)))
    by exact E1.
  assert (Ew : links nw3 I = mkLink (l_left (links nw I))
                               (l_left (links nv I)) (Some v)
                               (l_bf (links nw I))).
  { rewrite E3, E2. reflexivity. }
  destruct (l_left (links nv I)) as [b|] eqn:Eb; cbn [is_null negb].
  - destruct (HB b eq_refl) as (Hbv & Hbw & [nb Hb]).
    assert (H3b : h3 !! b = Some nb) by (rewrite F3; auto).
    destruct (Tmi.store I h3 (Some b)
                (fun l => mkLink (l_left l) (l_right l) (Some w) (l_bf l)))
      as [h4| | |] eqn:S4;
      [|rewrite (TmiFacts.store_Some I h3 b nb _ H3b) in S4; discriminate..].
    exists h4, nv1, nw3. split; [reflexivity|].
    split; [|split; [exact Ev|split; [|split; [exact Ew|]]]].
    { rewrite (TmiLinkFacts.store_frame I _ _ _ _ v S4) by congruence.
      exact H3v. }
    { rewrite (TmiLinkFacts.store_frame I _ _ _ _ w S4) by congruence.
      exact H3w. }
    split; [|split; [|split]].
    + intros x n Hxv Hxw Hx.
      eapply (store_same_children h3 h4 (Some b)); [|exact S4|].
      * intros l. repeat split.
      * now rewrite F3.
    + intros x Hxv Hxw Hxb.
      rewrite (TmiLinkFacts.store_frame I _ _ _ _ x S4) by congruence.
      now apply F3.
    + eapply TmiLinkFacts.keeps_others_trans; [exact K3|].
      eapply TmiLinkFacts.store_keeps_others. exact S4.
    + intros b' Hb'. injection Hb' as <-.
      destruct (TmiLinkFacts.store_links I _ _ _ _ S4)
        as (m & nb' & _ & H4b & E4).
      exists nb'. split; [exact H4b|]. now rewrite E4.
  - exists h3, nv1, nw3. split; [reflexivity|].
    split; [exact H3v|]. split; [exact Ev|]. split; [exact H3w|].
    split; [exact Ew|]. split; [|split; [|split; [exact K3|]]].
    + intros x n Hxv Hxw Hx. exists n. rewrite F3 by assumption.
      split; [exact Hx|]. repeat split.
    + intros x Hxv Hxw _. now apply F3.
    + intros b' Hb'. discriminate.
Qed.

(** A rotation keeps the in-order sequence of the subtree. *)
Lemma addrs_rotate (A B Cs : shape) (w v : nat) :
  addrs (Node A w (Node B v Cs)) = addrs (Node (Node A w B) v Cs).
Proof. simpl. now rewrite <- app_assoc. Qed.

(** The cells and subtrees of a tree with a left child at its root. *)
Lemma left_rotation_parts (h : gmap nat (node T)) A w B v Cs :
  TmiTree.tree_at I h (Some v) (Node (Node A w B) v Cs) ->
  NoDup (addrs (Node (Node A w B) v Cs)) ->
  exists nv nw,
    h !! v = Some nv /\ l_left (links nv I) = Some w /\
    h !! w = Some nw /\ v <> w /\
    TmiTree.tree_at I h (l_left (links nw I)) A /\
    TmiTree.tree_at I h (l_right (links nw I)) B /\
    TmiTree.tree_at I h (l_right (links nv I)) Cs /\
    (forall b, l_right (links nw I) = Some b ->
               b ∈ addrs B /\ b <> v /\ b <> w /\ is_Some (h !! b)).
Proof.
  intros Ht Hnd.
  destruct (rotation_cells A B Cs w v Hnd) as (Hvw & HA & HB & HC).
  simpl in Ht.
  destruct Ht as (_ & nv & Hv & (Elw & nw & Hw & HtA & HtB) & HtC).
  exists nv, nw. repeat split; try assumption.
  - destruct B as [|Bl b' Br]; simpl in HtB; [congruence|].
    destruct HtB as [E _]. rewrite E in H. injection H as <-.
    simpl. apply elem_of_app. right. apply elem_of_cons. now left.
  - destruct B as [|Bl b' Br]; simpl in HtB; [congruence|].
    destruct HtB as [E _]. rewrite E in H. injection H as <-.
    apply (HB b'). simpl. apply elem_of_app. right. apply elem_of_cons.
    now left.
  - destruct B as [|Bl b' Br]; simpl in HtB; [congruence|].
    destruct HtB as [E _]. rewrite E in H. injection H as <-.
    apply (HB b'). simpl. apply elem_of_app. right. apply elem_of_cons.
    now left.
  - destruct B as [|Bl b' Br]; simpl in HtB; [congruence|].
    destruct HtB as [E (nb & Hnb & _)]. rewrite E in H. injection H as <-.
    eauto.
Qed.

(** [rotate_right(v)] on a tree: the heap then holds the rotated tree. *)
Lemma rotate_right_shape (h : gmap nat (node T)) A w B v Cs :
  TmiTree.tree_at I h (Some v) (Node (Node A w B) v Cs) ->
  NoDup (addrs (Node (Node A w B) v Cs)) ->
  exists h',
    rotate_right I h (Some v) = Ok h' /\
    TmiTree.tree_at I h' (Some w) (Node A w (Node B v Cs)) /\
    keeps_others I h h' /\
    (forall x, x ∉ addrs (Node (Node A w B) v Cs) -> h' !! x = h !! x) /\
    (forall x n, h !! x = Some n ->
       exists n', h' !! x = Some n' /\
                  l_bf (links n' I) = l_bf (links n I)) /\
    get_parent I h' (Some v) = Ok (Some w) /\
    get_parent I h' (Some w) = get_parent I h (Some w).
Proof.
  intros Ht Hnd.
  destruct (left_rotation_parts h A w B v Cs Ht Hnd)
    as (nv & nw & Hv & Elw & Hw & Hvw & HtA & HtB & HtC & Hb).
  destruct (rotation_cells A B Cs w v Hnd) as (_ & HA & HB & HC).
  destruct (rotate_right_cells h v w nv nw Hv Elw Hw Hvw)
    as (h' & nv' & nw' & E & Hw' & Ew & Hv' & Ev & Hsame & Hframe & Hkeep & _).
  { intros b Eb. destruct (Hb b Eb) as (_ & H1 & H2 & H3). auto. }
  exists h'. split; [exact E|].
  assert (Hsub : forall s p, TmiTree.tree_at I h p s ->
            (forall x, x ∈ addrs s -> x <> v /\ x <> w) ->
            TmiTree.tree_at I h' p s).
  { intros s p Hs Hne. apply (tree_at_links_agree s h h' p); [|exact Hs].
    intros x n Hx Hn. destruct (Hne x Hx). now apply Hsame. }
  split; [|split; [exact Hkeep|split; [|split; [|split]]]].
  - simpl. split; [reflexivity|]. exists nw'. split; [exact Hw'|].
    rewrite Ew. cbn [l_left l_right]. split.
    + apply Hsub; [exact HtA|]. intros x Hx. destruct (HA x Hx) as (?&?&?).
      auto.
    + split; [reflexivity|]. exists nv'. split; [exact Hv'|].
      rewrite Ev. cbn [l_left l_right]. split.
      * apply Hsub; [exact HtB|]. exact HB.
      * apply Hsub; [exact HtC|]. intros x Hx.
        destruct (HC x Hx) as (?&?&?). auto.
  - intros x Hx. simpl in Hx.
    assert (Hxv : x <> v).
    { intros ->. apply Hx. apply elem_of_app. right. apply elem_of_cons.
      now left. }
    assert (Hxw : x <> w).
    { intros ->. apply Hx. apply elem_of_app. left. apply elem_of_app.
      right. apply elem_of_cons. now left. }
    apply Hframe; [exact Hxv|exact Hxw|].
    intros Exb. symmetry in Exb. destruct (Hb x Exb) as (HxB & _).
    apply Hx. apply elem_of_app. left. apply elem_of_app. right.
    apply elem_of_cons. now right.
  - intros x n Hn.
    destruct (decide (x = v)) as [->|Hxv].
    { rewrite Hv in Hn. injection Hn as <-. exists nv'.
      split; [exact Hv'|]. now rewrite Ev. }
    destruct (decide (x = w)) as [->|Hxw].
    { rewrite Hw in Hn. injection Hn as <-. exists nw'.
      split; [exact Hw'|]. now rewrite Ew. }
    destruct (Hsame x n Hxv Hxw Hn) as (n' & Hn' & _ & _ & Hbf). eauto.
  - unfold get_parent. rewrite (TmiFacts.tmi_load_Some _ _ _ Hv').
    cbn. now rewrite Ev.
  - unfold get_parent. rewrite (TmiFacts.tmi_load_Some _ _ _ Hw').
    rewrite (TmiFacts.tmi_load_Some _ _ _ Hw). cbn. now rewrite Ew.
Qed.


(** The cells and subtrees of a tree with a right child at its root. *)
Lemma right_rotation_parts (h : gmap nat (node T)) A w B v Cs :
  TmiTree.tree_at I h (Some w) (Node A w (Node B v Cs)) ->
  NoDup (addrs (Node A w (Node B v Cs))) ->
  exists nv nw,
    h !! w = Some nw /\ l_right (links nw I) = Some v /\
    h !! v = Some nv /\ v <> w /\
    TmiTree.tree_at I h (l_left (links nw I)) A /\
    TmiTree.tree_at I h (l_left (links nv I)) B /\
    TmiTree.tree_at I h (l_right (links nv I)) Cs /\
    (forall b, l_left (links nv I) = Some b ->
               b ∈ addrs B /\ b <> v /\ b <> w /\ is_Some (h !! b)).
Proof.
  intros Ht Hnd. rewrite addrs_rotate in Hnd.
  destruct (rotation_cells A B Cs w v Hnd) as (Hvw & HA & HB & HC).
  simpl in Ht.
  destruct Ht as (_ & nw & Hw & HtA & (Erv & nv & Hv & HtB & HtC)).
  exists nv, nw. repeat split; try assumption.
  - destruct B as [|Bl b' Br]; simpl in HtB; [congruence|].
    destruct HtB as [E _]. rewrite E in H. injection H as <-.
    simpl. apply elem_of_app. right. apply elem_of_cons. now left.
  - destruct B as [|Bl b' Br]; simpl in HtB; [congruence|].
    destruct HtB as [E _]. rewrite E in H. injection H as <-.
    apply (HB b'). simpl. apply elem_of_app. right. apply elem_of_cons.
    now left.
  - destruct B as [|Bl b' Br]; simpl in HtB; [congruence|].
    destruct HtB as [E _]. rewrite E in H. injection H as <-.
    apply (HB b'). simpl. apply elem_of_app. right. apply elem_of_cons.
    now left.
  - destruct B as [|Bl b' Br]; simpl in HtB; [congruence|].
    destruct HtB as [E (nb & Hnb & _)]. rewrite E in H. injection H as <-.
    eauto.
Qed.

(** [rotate_left(w)] on a tree: the heap then holds the rotated tree. *)
Lemma rotate_left_shape (h : gmap nat (node T)) A w B v Cs :
  TmiTree.tree_at I h (Some w) (Node A w (Node B v Cs)) ->
  NoDup (addrs (Node A w (Node B v Cs))) ->
  exists h',
    rotate_left I h (Some w) = Ok h' /\
    TmiTree.tree_at I h' (Some v) (Node (Node A w B) v Cs) /\
    keeps_others I h h' /\
    (forall x, x ∉ addrs (Node A w (Node B v Cs)) -> h' !! x = h !! x) /\
    (forall x n, h !! x = Some n ->
       exists n', h' !! x = Some n' /\
                  l_bf (links n' I) = l_bf (links n I)) /\
    get_parent I h' (Some w) = Ok (Some v) /\
    get_parent I h' (Some v) = get_parent I h (Some v).
Proof.
  intros Ht Hnd.
  destruct (right_rotation_parts h A w B v Cs Ht Hnd)
    as (nv & nw & Hw & Erv & Hv & Hvw & HtA & HtB & HtC & Hb).
  pose proof Hnd as Hnd'. rewrite addrs_rotate in Hnd'.
  destruct (rotation_cells A B Cs w v Hnd') as (_ & HA & HB & HC).
  destruct (rotate_left_cells h v w nv nw Hw Erv Hv Hvw)
    as (h' & nv' & nw' & E & Hv' & Ev & Hw' & Ew & Hsame & Hframe & Hkeep & _).
  { intros b Eb. destruct (Hb b Eb) as (_ & H1 & H2 & H3). auto. }
  exists h'. split; [exact E|].
  assert (Hsub : forall s p, TmiTree.tree_at I h p s ->
            (forall x, x ∈ addrs s -> x <> v /\ x <> w) ->
            TmiTree.tree_at I h' p s).
  { intros s p Hs Hne. apply (tree_at_links_agree s h h' p); [|exact Hs].
    intros x n Hx Hn. destruct (Hne x Hx). now apply Hsame. }
  split; [|split; [exact Hkeep|split; [|split; [|split]]]].
  - simpl. split; [reflexivity|]. exists nv'. split; [exact Hv'|].
    rewrite Ev. cbn [l_left l_right]. split.
    + split; [reflexivity|]. exists nw'. split; [exact Hw'|].
      rewrite Ew. cbn [l_left l_right]. split.
      * apply Hsub; [exact HtA|]. intros x Hx.
        destruct (HA x Hx) as (?&?&?). auto.
      * apply Hsub; [exact HtB|]. exact HB.
    + apply Hsub; [exact HtC|]. intros x Hx.
      destruct (HC x Hx) as (?&?&?). auto.
  - intros x Hx. rewrite addrs_rotate in Hx. simpl in Hx.
    assert (Hxv : x <> v).
    { intros ->. apply Hx. apply elem_of_app. right. apply elem_of_cons.
      now left. }
    assert (Hxw : x <> w).
    { intros ->. apply Hx. apply elem_of_app. left. apply elem_of_app.
      right. apply elem_of_cons. now left. }
    apply Hframe; [exact Hxv|exact Hxw|].
    intros Exb. symmetry in Exb. destruct (Hb x Exb) as (HxB & _).
    apply Hx. apply elem_of_app. left. apply elem_of_app. right.
    apply elem_of_cons. now right.
  - intros x n Hn.
    destruct (decide (x = v)) as [->|Hxv].
    { rewrite Hv in Hn. injection Hn as <-. exists nv'.
      split; [exact Hv'|]. now rewrite Ev. }
    destruct (decide (x = w)) as [->|Hxw].
    { rewrite Hw in Hn. injection Hn as <-. exists nw'.
      split; [exact Hw'|]. now rewrite Ew. }
    destruct (Hsame x n Hxv Hxw Hn) as (n' & Hn' & _ & _ & Hbf). eauto.
  - unfold get_parent. rewrite (TmiFacts.tmi_load_Some _ _ _ Hw').
    cbn. now rewrite Ew.
  - unfold get_parent. rewrite (TmiFacts.tmi_load_Some _ _ _ Hv').
    rewrite (TmiFacts.tmi_load_Some _ _ _ Hv). cbn. now rewrite Ev.
Qed.

(** [rotate_left] undoes the child links written by [rotate_right]. *)
Lemma rotate_right_left_cells (h : gmap nat (node T)) A w B v Cs :
  TmiTree.tree_at I h (Some v) (Node (Node A w B) v Cs) ->
  NoDup (addrs (Node (Node A w B) v Cs)) ->
  exists h' h'',
    rotate_right I h (Some v) = Ok h' /\
    rotate_left I h' (Some w) = Ok h'' /\
    keeps_others I h h'' /\
    (forall x n, h !! x = Some n ->
       exists n'', h'' !! x = Some n'' /\ same_children I n n'') /\
    get_parent I h'' (Some v) = Ok (Some w) /\
    get_parent I h'' (Some w) = Ok (Some v).
Proof.
  intros Ht Hnd.
  destruct (left_rotation_parts h A w B v Cs Ht Hnd)
    as (nv & nw & Hv & Elw & Hw & Hvw & _ & _ & _ & Hb).
  destruct (rotate_right_cells h v w nv nw Hv Elw Hw Hvw)
    as (h' & nv' & nw' & E & Hw' & Ew & Hv' & Ev & Hsame & _ & Hkeep & _).
  { intros b Eb. destruct (Hb b Eb) as (_ & H1 & H2 & H3). auto. }
  assert (Erv' : l_right (links nw' I) = Some v) by now rewrite Ew.
  assert (HB' : forall b, l_left (links nv' I) = Some b ->
                  b <> v /\ b <> w /\ is_Some (h' !! b)).
  { intros b Eb. rewrite Ev in Eb. cbn in Eb.
    destruct (Hb b Eb) as (_ & H1 & H2 & [nb Hnb]).
    split; [exact H1|]. split; [exact H2|].
    destruct (Hsame b nb H1 H2 Hnb) as (nb' & Hnb' & _). eauto. }
  destruct (rotate_left_cells h' v w nv' nw' Hw' Erv' Hv' Hvw HB')
    as (h'' & nv'' & nw'' & E' & Hv'' & Ev' & Hw'' & Ew' & Hsame' & _
        & Hkeep' & _).
  exists h', h''. split; [exact E|]. split; [exact E'|].
  split; [now apply (TmiLinkFacts.keeps_others_trans I h h' h'')|].
  split; [|split].
  - intros x n Hn.
    destruct (decide (x = v)) as [->|Hxv].
    { rewrite Hv in Hn. injection Hn as <-. exists nv''.
      split; [exact Hv''|]. unfold same_children.
      rewrite Ev', Ev. cbn. now rewrite Elw. }
    destruct (decide (x = w)) as [->|Hxw].
    { rewrite Hw in Hn. injection Hn as <-. exists nw''.
      split; [exact Hw''|]. unfold same_children.
      rewrite Ew', Ew, Ev. cbn. auto. }
    destruct (Hsame x n Hxv Hxw Hn) as (n' & Hn' & S1 & S2 & S3).
    destruct (Hsame' x n' Hxv Hxw Hn') as (n'' & Hn'' & S1' & S2' & S3').
    exists n''. split; [exact Hn''|]. unfold same_children.
    rewrite S1', S2', S3'. auto.
  - unfold get_parent. rewrite (TmiFacts.tmi_load_Some _ _ _ Hv'').
    cbn. now rewrite Ev', Ev.
  - unfold get_parent. rewrite (TmiFacts.tmi_load_Some _ _ _ Hw'').
    cbn. now rewrite Ew'.
Qed.

Hypothesis C_swo : strict_weak_order (m_comparator C).

(** The ordering of a tree is the ordering of its rotated tree. *)
Lemma bst_rotate_right (h : gmap nat (node T)) A w B v Cs :
  is_Some (h !! v) ->
  TmiTree.bst C h (Node (Node A w B) v Cs) ->
  TmiTree.bst C h (Node A w (Node B v Cs)).
Proof.
  intros [nv Hv] (Bvl & Bvr & (Bwl & Bwr & HA & HB) & HC).
  assert (Hvw : forall nw, h !! w = Some nw ->
            m_comparator C (key_of C nv) (key_of C nw) = false).
  { intros nw Hw. apply (Bvl nv w nw Hv); [|exact Hw]. simpl.
    apply elem_of_app. right. apply elem_of_cons. now left. }
  simpl. split; [exact Bwl|]. split; [|split; [exact HA|]].
  - intros nw x nx Hw Hx Hnx.
    apply elem_of_app in Hx as [Hx|Hx]; [now apply (Bwr nw x nx)|].
    apply elem_of_cons in Hx as [->|Hx].
    + rewrite Hv in Hnx. injection Hnx as <-. now apply Hvw.
    + apply (TmiSearchFacts.lt_neg_trans _ C_swo _ (key_of C nv)).
      * now apply (Bvr nv x nx).
      * now apply Hvw.
  - split; [|split; [exact Bvr|split; [exact HB|exact HC]]].
    intros n x nx Hn Hx Hnx. apply (Bvl n x nx Hn); [|exact Hnx].
    simpl. apply elem_of_app. right. apply elem_of_cons. now right.
Qed.

Lemma bst_rotate_left (h : gmap nat (node T)) A w B v Cs :
  is_Some (h !! w) ->
  TmiTree.bst C h (Node A w (Node B v Cs)) ->
  TmiTree.bst C h (Node (Node A w B) v Cs).
Proof.
  intros [nw Hw] (Bwl & Bwr & HA & (Bvl & Bvr & HB & HC)).
  assert (Hvw : forall nv, h !! v = Some nv ->
            m_comparator C (key_of C nv) (key_of C nw) = false).
  { intros nv Hv. apply (Bwr nw v nv Hw); [|exact Hv]. simpl.
    apply elem_of_app. right. apply elem_of_cons. now left. }
  simpl. split; [|split; [exact Bvr|split; [|exact HC]]].
  - intros nv x nx Hv Hx Hnx.
    apply elem_of_app in Hx as [Hx|Hx].
    + apply (TmiSearchFacts.lt_neg_trans _ C_swo _ (key_of C nw)).
      * now apply Hvw.
      * now apply (Bwl nw x nx).
    + apply elem_of_cons in Hx as [->|Hx]; [|now apply (Bvl nv x nx)].
      rewrite Hw in Hnx. injection Hnx as <-. now apply Hvw.
  - split; [exact Bwl|]. split; [|split; [exact HA|exact HB]].
    intros n x nx Hn Hx Hnx. apply (Bwr n x nx Hn); [|exact Hnx].
    simpl. apply elem_of_app. now left.
Qed.

(** An ordering only depends on the values of the cells. *)
Lemma bst_keeps_others (t : shape) :
  forall (h h' : gmap nat (node T)),
    (forall x, x ∈ addrs t -> is_Some (h !! x)) ->
    keeps_others I h h' -> TmiTree.bst C h t -> TmiTree.bst C h' t.
Proof.
  induction t as [|l IHl a r IHr]; intros h h' Hal Hk Hb; simpl in *.
  - trivial.
  - destruct Hb as (Bl & Br & Hbl & Hbr).
    assert (Hinl : forall x, x ∈ addrs l -> x ∈ addrs l ++ a :: addrs r).
    { intros x Hx. apply elem_of_app. now left. }
    assert (Hinr : forall x, x ∈ addrs r -> x ∈ addrs l ++ a :: addrs r).
    { intros x Hx. apply elem_of_app. right. apply elem_of_cons. now right. }
    assert (Hina : a ∈ addrs l ++ a :: addrs r).
    { apply elem_of_app. right. apply elem_of_cons. now left. }
    assert (Hkey : forall x nx', x ∈ addrs l ++ a :: addrs r ->
              h' !! x = Some nx' ->
              exists nx, h !! x = Some nx /\ key_of C nx' = key_of C nx).
    { intros x nx' Hx Hnx'. destruct (Hal x Hx) as [nx Hnx].
      destruct (Hk x nx Hnx) as (n2 & Hn2 & Hv & _).
      rewrite Hnx' in Hn2. injection Hn2 as <-.
      exists nx. split; [exact Hnx|]. unfold key_of. now rewrite Hv. }
    split; [|split; [|split]].
    + intros n' x nx' Hn' Hx Hnx'.
      destruct (Hkey a n' Hina Hn') as (n & Hn & ->).
      destruct (Hkey x nx' (Hinl x Hx) Hnx') as (nx & Hnx & ->).
      now apply (Bl n x nx).
    + intros n' x nx' Hn' Hx Hnx'.
      destruct (Hkey a n' Hina Hn') as (n & Hn & ->).
      destruct (Hkey x nx' (Hinr x Hx) Hnx') as (nx & Hnx & ->).
      now apply (Br n x nx).
    + apply (IHl h h'); auto.
    + apply (IHr h h'); auto.
Qed.

End Engine.

End TmiRotationFacts.

(** X15.  [rotate_right(v)] on a search tree whose root [v] has the left
    child [w] turns the tree (A w B) v C into A w (B v C): the heap then
    holds that tree at [w], it is a search tree with the same in-order
    sequence, [v] has [w] as its parent, and the rotation writes no cell
    outside the tree, no value, no balance factor and no link of another
    index.  The parent link of [w] is the one it had. *)
Theorem rotate_right_keeps_search_tree {T : Type} (C : Comparator T)
    (I : nat) (h : gmap nat (node T)) (A B Cs : shape) (w v : nat) :
  strict_weak_order (m_comparator C) ->
  TmiTree.tree_at I h (Some v) (Node (Node A w B) v Cs) ->
  NoDup (addrs (Node (Node A w B) v Cs)) ->
  TmiTree.bst C h (Node (Node A w B) v Cs) ->
  exists h',
    rotate_right I h (Some v) = Ok h' /\
    TmiTree.tree_at I h' (Some w) (Node A w (Node B v Cs)) /\
    TmiTree.bst C h' (Node A w (Node B v Cs)) /\
    addrs (Node A w (Node B v Cs)) = addrs (Node (Node A w B) v Cs) /\
    keeps_others I h h' /\
    (forall x, x ∉ addrs (Node (Node A w B) v Cs) -> h' !! x = h !! x) /\
    (forall x n, h !! x = Some n ->
       exists n', h' !! x = Some n' /\
                  l_bf (links n' I) = l_bf (links n I)) /\
    get_parent I h' (Some v) = Ok (Some w) /\
    get_parent I h' (Some w) = get_parent I h (Some w).
Proof.
  intros Hswo Ht Hnd Hb.
  destruct (TmiRotationFacts.rotate_right_shape I h A w B v Cs Ht Hnd)
    as (h' & E & Ht' & Hk & Hrest).
  exists h'. split; [exact E|]. split; [exact Ht'|].
  split; [|split; [apply TmiRotationFacts.addrs_rotate|
                   split; [exact Hk|exact Hrest]]].
  apply (TmiRotationFacts.bst_keeps_others C I _ h h'); [|exact Hk|].
  - intros x Hx. rewrite TmiRotationFacts.addrs_rotate in Hx.
    apply (TmiFacts.tree_at_allocated I _ h (Some v) x Ht Hx).
  - apply (TmiRotationFacts.bst_rotate_right C Hswo); [|exact Hb].
    apply (TmiFacts.tree_at_allocated I _ h (Some v) v Ht). simpl.
    apply elem_of_app. right. apply elem_of_cons. now left.
Qed.

Lemma rotate_right_keeps_search_tree_witness :
  exists h',
    rotate_right 0 (balanced3 5) (Some 1%nat) = Ok h' /\
    TmiTree.tree_at 0 h' (Some 2%nat)
      (Node Leaf 2%nat (Node Leaf 1%nat (Node Leaf 3%nat Leaf))) /\
    TmiTree.bst int_index h'
      (Node Leaf 2%nat (Node Leaf 1%nat (Node Leaf 3%nat Leaf))) /\
    addrs (Node Leaf 2%nat (Node Leaf 1%nat (Node Leaf 3%nat Leaf)))
      = addrs shape3 /\
    keeps_others 0 (balanced3 5) h' /\
    (forall x, x ∉ addrs shape3 -> h' !! x = balanced3 5 !! x) /\
    (forall x n, balanced3 5 !! x = Some n ->
       exists n', h' !! x = Some n' /\
                  l_bf (links n' 0) = l_bf (links n 0)) /\
    get_parent 0 h' (Some 1%nat) = Ok (Some 2%nat) /\
    get_parent 0 h' (Some 2%nat) = get_parent 0 (balanced3 5) (Some 2%nat).
Proof.
  apply (rotate_right_keeps_search_tree int_index 0%nat (balanced3 5)
           Leaf Leaf (Node Leaf 3%nat Leaf) 2%nat 1%nat
           int_index_swo balanced3_tree shape3_NoDup balanced3_bst).
Defined.

(** X16.  [rotate_left(w)] on a search tree whose root [w] has the right
    child [v] turns the tree A w (B v C) into (A w B) v C, with the mirror
    guarantees: a search tree at [v] with the same in-order sequence, [w]
    has [v] as its parent, nothing outside the tree, no value, no balance
    factor and no link of another index is written, and the parent link of
    [v] is the one it had. *)
Theorem rotate_left_keeps_search_tree {T : Type} (C : Comparator T)
    (I : nat) (h : gmap nat (node T)) (A B Cs : shape) (w v : nat) :
  strict_weak_order (m_comparator C) ->
  TmiTree.tree_at I h (Some w) (Node A w (Node B v Cs)) ->
  NoDup (addrs (Node A w (Node B v Cs))) ->
  TmiTree.bst C h (Node A w (Node B v Cs)) ->
  exists h',
    rotate_left I h (Some w) = Ok h' /\
    TmiTree.tree_at I h' (Some v) (Node (Node A w B) v Cs) /\
    TmiTree.bst C h' (Node (Node A w B) v Cs) /\
    addrs (Node (Node A w B) v Cs) = addrs (Node A w (Node B v Cs)) /\
    keeps_others I h h' /\
    (forall x, x ∉ addrs (Node A w (Node B v Cs)) -> h' !! x = h !! x) /\
    (forall x n, h !! x = Some n ->
       exists n', h' !! x = Some n' /\
                  l_bf (links n' I) = l_bf (links n I)) /\
    get_parent I h' (Some w) = Ok (Some v) /\
    get_parent I h' (Some v) = get_parent I h (Some v).
Proof.
  intros Hswo Ht Hnd Hb.
  destruct (TmiRotationFacts.rotate_left_shape I h A w B v Cs Ht Hnd)
    as (h' & E & Ht' & Hk & Hrest).
  exists h'. split; [exact E|]. split; [exact Ht'|].
  split; [|split; [symmetry; apply TmiRotationFacts.addrs_rotate|
                   split; [exact Hk|exact Hrest]]].
  apply (TmiRotationFacts.bst_keeps_others C I _ h h'); [|exact Hk|].
  - intros x Hx. rewrite <- TmiRotationFacts.addrs_rotate in Hx.
    apply (TmiFacts.tree_at_allocated I _ h (Some w) x Ht Hx).
  - apply (TmiRotationFacts.bst_rotate_left C Hswo); [|exact Hb].
    apply (TmiFacts.tree_at_allocated I _ h (Some w) w Ht). simpl.
    apply elem_of_app. right. apply elem_of_cons. now left.
Qed.

Lemma rotate_left_keeps_search_tree_witness :
  exists h',
    rotate_left 0 (balanced3 5) (Some 1%nat) = Ok h' /\
    TmiTree.tree_at 0 h' (Some 3%nat)
      (Node (Node (Node Leaf 2%nat Leaf) 1%nat Leaf) 3%nat Leaf) /\
    TmiTree.bst int_index h'
      (Node (Node (Node Leaf 2%nat Leaf) 1%nat Leaf) 3%nat Leaf) /\
    addrs (Node (Node (Node Leaf 2%nat Leaf) 1%nat Leaf) 3%nat Leaf)
      = addrs shape3 /\
    keeps_others 0 (balanced3 5) h' /\
    (forall x, x ∉ addrs shape3 -> h' !! x = balanced3 5 !! x) /\
    (forall x n, balanced3 5 !! x = Some n ->
       exists n', h' !! x = Some n' /\
                  l_bf (links n' 0) = l_bf (links n 0)) /\
    get_parent 0 h' (Some 1%nat) = Ok (Some 3%nat) /\
    get_parent 0 h' (Some 3%nat) = get_parent 0 (balanced3 5) (Some 3%nat).
Proof.
  apply (rotate_left_keeps_search_tree int_index 0%nat (balanced3 5)
           (Node Leaf 2%nat Leaf) Leaf Leaf 1%nat 3%nat
           int_index_swo balanced3_tree shape3_NoDup balanced3_bst).
Defined.

(** X17.  [rotate_left] is the inverse of [rotate_right] on the child
    links, as the comment of the source says: after [rotate_right(v)] and
    [rotate_left(w)] every cell has the children and the balance factor it
    had, and its value and its other indices' links.  The parent links of
    the two nodes are not restored: [v] is left with the parent [w], [w]
    with the parent [v]. *)
Theorem rotate_right_then_left_restores_children {T : Type} (I : nat)
    (h : gmap nat (node T)) (A B Cs : shape) (w v : nat) :
  TmiTree.tree_at I h (Some v) (Node (Node A w B) v Cs) ->
  NoDup (addrs (Node (Node A w B) v Cs)) ->
  exists h' h'',
    rotate_right I h (Some v) = Ok h' /\
    rotate_left I h' (Some w) = Ok h'' /\
    keeps_others I h h'' /\
    (forall x n, h !! x = Some n ->
       exists n'', h'' !! x = Some n'' /\ same_children I n n'') /\
    get_parent I h'' (Some v) = Ok (Some w) /\
    get_parent I h'' (Some w) = Ok (Some v).
Proof. apply TmiRotationFacts.rotate_right_left_cells. Qed.

Lemma rotate_right_then_left_restores_children_witness :
  exists h' h'',
    rotate_right 0 (balanced3 5) (Some 1%nat) = Ok h' /\
    rotate_left 0 h' (Some 2%nat) = Ok h'' /\
    keeps_others 0 (balanced3 5) h'' /\
    (forall x n, balanced3 5 !! x = Some n ->
       exists n'', h'' !! x = Some n'' /\ same_children 0 n n'') /\
    get_parent 0 h'' (Some 1%nat) = Ok (Some 2%nat) /\
    get_parent 0 h'' (Some 2%nat) = Ok (Some 1%nat).
Proof.
  apply (rotate_right_then_left_restores_children 0%nat (balanced3 5)
           Leaf Leaf (Node Leaf 3%nat Leaf) 2%nat 1%nat
           balanced3_tree shape3_NoDup).
Defined.

(** * The height walk of avl.cpp *)

Module AvlHeightFacts.

(** The loop of [height] on a tree ends, and adds at least one per link it
    follows. *)
Lemma height_loop_tree (t : shape) :
  forall (h : gmap nat AVLnode) c H fuel,
    AvlTree.tree_at h (Some c) t -> (depth t <= S fuel)%nat ->
    exists H', Avl.height_loop fuel h (Some c) H = Ok H' /\ H <= H' /\
      (forall n, h !! c = Some n ->
         left_ n <> None \/ right_ n <> None -> H < H').
Proof.
  induction t as [|l IHl a r IHr]; intros h c H fuel Ht Hd.
  - simpl in Ht. discriminate.
  - destruct Ht as [E (n & Hn & Hl & Hr)]. injection E as ->.
    simpl in Hd.
    assert (Hstep : forall f : nat, Avl.height_loop f h (Some a) H
              = (n0 ← Ok n;
                 if negb (is_null (left_ n0)) || negb (is_null (right_ n0))
                 then match f with
                      | O => OutOfFuel
                      | S fuel' =>
                        lheavy ← (if negb (is_null (left_ n0))
                                  then l0 ← Avl.load h (left_ n0);
                                       Ok (heavy_ l0)
                                  else Ok false : outcome bool);
                        if (lheavy : bool)
                        then Avl.height_loop fuel' h (left_ n0) (H + 2)
                        else
                          rheavy ← (if negb (is_null (right_ n0))
                                    then r0 ← Avl.load h (right_ n0);
                                         Ok (heavy_ r0)
                                    else Ok false : outcome bool);
                          if (rheavy : bool)
                          then Avl.height_loop fuel' h (right_ n0) (H + 2)
                          else Avl.height_loop fuel' h
                                 (if negb (is_null (left_ n0))
                                  then left_ n0 else right_ n0) (H + 1)
                      end
                 else Ok H)).
    { intros f. destruct f; cbn [height_loop];
        now rewrite (AvlFacts.avl_load_Some _ _ _ Hn). }
    rewrite Hstep. cbn [mbind outcome_bind].
    assert (Hchild : forall s p H0 f, AvlTree.tree_at h p s ->
              p <> None -> (depth s <= S f)%nat ->
              (forall h0 c0 H1 f0, AvlTree.tree_at h0 (Some c0) s ->
                 (depth s <= S f0)%nat ->
                 exists H', Avl.height_loop f0 h0 (Some c0) H1 = Ok H' /\
                   H1 <= H' /\
                   (forall n0, h0 !! c0 = Some n0 ->
                      left_ n0 <> None \/ right_ n0 <> None -> H1 < H')) ->
              exists H' ns, Avl.load h p = Ok ns /\
                Avl.height_loop f h p H0 = Ok H' /\ H0 <= H').
    { intros s p H0 f Hs Hp Hds IH. destruct p as [c0|]; [|contradiction].
      destruct (IH h c0 H0 f Hs Hds) as (H' & E' & Hle & _).
      destruct s as [|sl sa sr]; [simpl in Hs; discriminate|].
      destruct Hs as [E (ns & Hns & _)]. injection E as ->.
      exists H', ns. split; [now apply AvlFacts.avl_load_Some|auto]. }
    destruct (left_ n) as [cl|] eqn:El; destruct (right_ n) as [cr|] eqn:Er;
      cbn [is_null negb orb].
    + destruct fuel as [|fuel].
      { destruct l; simpl in Hl; [discriminate|]. simpl in Hd. lia. }
      destruct (Hchild l (Some cl) (H + 2) fuel Hl ltac:(discriminate)
                  ltac:(lia) IHl) as (H2 & nl & Ll & E2 & Hle2).
      destruct (Hchild l (Some cl) (H + 1) fuel Hl ltac:(discriminate)
                  ltac:(lia) IHl) as (H1 & _ & _ & E1 & Hle1).
      destruct (Hchild r (Some cr) (H + 2) fuel Hr ltac:(discriminate)
                  ltac:(lia) IHr) as (H3 & nr & Lr & E3 & Hle3).
      rewrite Ll. cbn [mbind outcome_bind].
      destruct (heavy_ nl).
      * exists H2. split; [exact E2|]. split; [lia|]. intros; lia.
      * rewrite Lr. cbn [mbind outcome_bind]. destruct (heavy_ nr).
        -- exists H3. split; [exact E3|]. split; [lia|]. intros; lia.
        -- exists H1. split; [exact E1|]. split; [lia|]. intros; lia.
    + destruct fuel as [|fuel].
      { destruct l; simpl in Hl; [discriminate|]. simpl in Hd. lia. }
      destruct (Hchild l (Some cl) (H + 2) fuel Hl ltac:(discriminate)
                  ltac:(lia) IHl) as (H2 & nl & Ll & E2 & Hle2).
      destruct (Hchild l (Some cl) (H + 1) fuel Hl ltac:(discriminate)
                  ltac:(lia) IHl) as (H1 & _ & _ & E1 & Hle1).
      rewrite Ll. cbn [mbind outcome_bind].
      destruct (heavy_ nl).
      * exists H2. split; [exact E2|]. split; [lia|]. intros; lia.
      * exists H1. split; [exact E1|]. split; [lia|]. intros; lia.
    + destruct fuel as [|fuel].
      { destruct r; simpl in Hr; [discriminate|]. simpl in Hd. lia. }
      destruct (Hchild r (Some cr) (H + 2) fuel Hr ltac:(discriminate)
                  ltac:(lia) IHr) as (H3 & nr & Lr & E3 & Hle3).
      destruct (Hchild r (Some cr) (H + 1) fuel Hr ltac:(discriminate)
                  ltac:(lia) IHr) as (H1 & _ & _ & E1 & Hle1).
      rewrite Lr. cbn [mbind outcome_bind].
      destruct (heavy_ nr).
      * exists H3. split; [exact E3|]. split; [lia|]. intros; lia.
      * exists H1. split; [exact E1|]. split; [lia|]. intros; lia.
    + exists H. split; [reflexivity|]. split; [lia|].
      intros n0 Hn0 [Hc|Hc]; rewrite Hn in Hn0; injection Hn0 as <-;
        congruence.
Qed.

End AvlHeightFacts.

(** X18.  [insert] does not maintain what [verify] checks: after an
    insertion into a non-empty tree whose root carries the height
    annotation 0 (as every node that [insert] alone has created does),
    [verify] on the returned root fails an assertion. *)
Theorem verify_rejects_tree_after_insert (h : gmap nat AVLnode) (a : nat)
    (t : shape) (n : AVLnode) (K : Z) (V : string) :
  AvlTree.tree_at h (Some a) t -> NoDup (addrs t) ->
  h !! a = Some n -> height_ n = 0 ->
  exists fuel0, forall fuel, (fuel0 <= fuel)%nat ->
    exists h' e,
      Avl.insert fuel h (Some a) K V = Ok (h', Some a) /\
      Avl.verify fuel h' (Some a) = AssertFail e.
Proof.
  intros Ht Hnd Hn Hh. exists (depth t). intros fuel Hf.
  destruct (AvlInsertFacts.insert_without_rebalancing_shape t h a K V fuel
              Ht Hnd Hf) as (h' & E & Ht' & _ & _ & Hpay).
  assert (Hroot : a ∈ addrs t).
  { destruct t as [|l a0 r]; [simpl in Ht; discriminate|].
    destruct Ht as [Ea _]. injection Ea as ->. simpl.
    apply elem_of_app. right. apply elem_of_cons. now left. }
  destruct (Hpay a n Hroot Hn) as (n' & Hn' & _ & _ & _ & Hheavy & Hheight).
  assert (Hchild : left_ n' <> None \/ right_ n' <> None).
  { assert (Hins : forall s, ins_shape h K (fresh (dom h)) s <> Leaf).
    { intros [|sl sa sr]; simpl; [discriminate|].
      destruct (h !! sa) as [ns|]; [|discriminate].
      destruct (K <? K_ ns); discriminate. }
    destruct t as [|l a0 r]; [simpl in Ht; discriminate|].
    pose proof Ht as Ht0. destruct Ht0 as [Ea _]. injection Ea as ->.
    cbn [ins_shape] in Ht'. rewrite Hn in Ht'.
    destruct (K <? K_ n); simpl in Ht';
      destruct Ht' as [_ (m & Hm & Hl' & Hr')];
      rewrite Hn' in Hm; injection Hm as <-.
    - left. intros El. rewrite El in Hl'.
      destruct (ins_shape h K (fresh (dom h)) l) eqn:Es;
        [now apply (Hins l)|]. simpl in Hl'. destruct Hl'. discriminate.
    - right. intros Er. rewrite Er in Hr'.
      destruct (ins_shape h K (fresh (dom h)) r) eqn:Es;
        [now apply (Hins r)|]. simpl in Hr'. destruct Hr'. discriminate. }
  destruct (AvlHeightFacts.height_loop_tree _ h' a 0 fuel Ht')
    as (H' & EH & _ & Hpos).
  { pose proof (AvlInsertFacts.depth_ins_shape t h K (fresh (dom h))). lia. }
  specialize (Hpos n' Hn' Hchild).
  exists h'. unfold Avl.insert, Avl.verify. cbn [is_null negb].
  rewrite E. cbn [mbind outcome_bind].
  rewrite (AvlFacts.avl_load_Some _ _ _ Hn'). cbn [mbind outcome_bind].
  destruct (heavy_ n'); cbn [negb assert mbind outcome_bind].
  - eexists. split; reflexivity.
  - unfold Avl.height. cbn [is_null]. rewrite EH. cbn [mbind outcome_bind].
    rewrite (AvlFacts.avl_load_Some _ _ _ Hn'). cbn [mbind outcome_bind].
    rewrite Hheight, Hh.
    destruct (Z.eqb_spec 0 H') as [E0|_]; [lia|]. cbn.
    eexists. split; reflexivity.
Qed.

Lemma avl_single : AvlTree.tree_at
    (<[0%nat := new_AVLnode 2 "abc"]> ∅) (Some 0%nat) (Node Leaf 0%nat Leaf).
Proof.
  simpl. split; [reflexivity|]. eexists. split; [reflexivity|].
  split; reflexivity.
Defined.

Lemma avl_single_NoDup : NoDup (addrs (Node Leaf 0%nat Leaf)).
Proof. apply (bool_decide_unpack _). vm_compute. exact Logic.I. Defined.

Lemma verify_rejects_tree_after_insert_witness :
  exists fuel0, forall fuel, (fuel0 <= fuel)%nat ->
    exists h' e,
      Avl.insert fuel (<[0%nat := new_AVLnode 2 "abc"]> ∅) (Some 0%nat)
        1 "abc" = Ok (h', Some 0%nat) /\
      Avl.verify fuel h' (Some 0%nat) = AssertFail e.
Proof.
  apply (verify_rejects_tree_after_insert
           (<[0%nat := new_AVLnode 2 "abc"]> ∅) 0%nat (Node Leaf 0%nat Leaf)
           (new_AVLnode 2 "abc") 1 "abc" avl_single avl_single_NoDup
           eq_refl eq_refl).
Defined.

(** X19.  [insert_node] below a parent never returns unless the parent's
    balance factor is -1: the loop of [tree_balance_after_insert] neither
    moves to the parent nor writes a balance factor, so with the balance
    factors that the engine itself writes (all 0) the insertion of a
    second node runs for ever, whatever the fuel. *)
Theorem insert_node_below_parent_never_returns {T : Type} (I fuel : nat)
    (h : gmap nat (node T)) (m_root : ptr) (nd p : nat) (n np : node T)
    (hints : insert_hints) :
  m_parent hints = Some p -> p <> nd -> Some nd <> m_root ->
  h !! nd = Some n -> h !! p = Some np ->
  l_bf (links np I) < INT_MAX -> l_bf (links np I) <> -1 ->
  insert_node I fuel h m_root (Some nd) hints = OutOfFuel.
Proof. apply TmiFacts.insert_node_stuck. Qed.

Lemma insert_node_below_parent_never_returns_witness :
  insert_node 0 10 two_cells (Some 0%nat) (Some 1%nat)
    (mkHints (Some 0%nat) false) = OutOfFuel.
Proof.
  apply (insert_node_below_parent_never_returns 0 10 two_cells (Some 0%nat)
           1%nat 0%nat (cell 2 None None None) (cell 1 None None None)
           (mkHints (Some 0%nat) false));
    first [reflexivity | discriminate].
Defined.
